(** * Wait-Wizard: scheduling core ([src/algorithms.js])

    A shallow embedding of the queueing, assignment, availability, caching,
    batching, rate-limiting and statistics routines of [algorithms.js],
    together with the properties stated about them.

    Conventions of the embedding.
    - A JS array is a [list]; [a[i]] is the stdpp lookup [a !! i], whose
      [None] is JS's [undefined].
    - [null] / [undefined] results are [None].
    - A [TypeError] raised by reading a property of [undefined] is an
      explicit [None] in the option monad of the routine that can raise it.
    - Ticket priorities, loads and time values (milliseconds, as
      [Date.now] and [Date.getTime] return them) are integers [Z].
    - The numbers that the token bucket and the statistics compute are
      doubles.  A finite double is the rational [Q] it denotes, and an
      arithmetic operation returns the double nearest to its exact result
      ([Double.fl]: 53 significant bits, a tie going to the even
      neighbour), as IEEE 754 binary64 prescribes.  The exponent range is
      not bounded: results at or beyond [2^1024] in magnitude, which JS
      turns into [Infinity], and below [2^-1022] are outside the model,
      as are [NaN] and the infinities.  The similarity ratios of
      [knnRecommendation] are quotients of two counts and are only
      compared: they are kept as exact rationals (rounding is monotone,
      and separates the quotients of counts below [2^26]).
    - A plain object used as a dictionary is the [gmap] of its own
      properties, read and assigned through [PlainObject], which accounts
      for what it inherits from [Object.prototype].
    - A [while] loop is a structurally recursive function on a fuel
      argument; each loop comes with a lemma showing that the fuel the
      caller passes is never exhausted. *)

From Stdlib Require Import ZArith QArith Qround Qminmax Qpower Lqa Lia Ascii.
From stdpp Require Import base tactics option list strings gmap sorting.

Local Open Scope Z_scope.
Local Open Scope nat_scope.

(** ** Data model *)

Inductive status := Open | Booked | Completed.

#[global] Instance status_eq_dec : EqDecision status.
Proof. solve_decision. Defined.

(** A ticket record.  [createdAt] and [completedAt] hold the stored time
    value, a number of milliseconds, when the field is present. *)
Record ticket := Ticket {
  tid : string;
  priority : Z;
  tstatus : status;
  createdAt : option Z;
  completedAt : option Z;
  doctorAssigned : option string
}.

Record doctor := Doctor {
  did : string;
  specialties : option string
}.

(** ** PriorityQueue *)

Module PriorityQueue.

(** [[heap[i], heap[j]] = [heap[j], heap[i]]] for in-range [i], [j]. *)
Definition swap (heap : list ticket) (i j : nat) : list ticket :=
  match heap !! i, heap !! j with
  | Some ti, Some tj => <[i := tj]> (<[j := ti]> heap)
  | _, _ => heap
  end.

(** The [while (index > 0)] loop of [bubbleUp].  Reading [.priority] of an
    out-of-range slot raises, rendered as [None]. *)
Fixpoint bubbleUp_loop (fuel : nat) (heap : list ticket) (index : nat)
  : option (list ticket) :=
  match fuel with
  | O => Some heap
  | S fuel' =>
      if decide (0 < index) then
        let parent := (index - 1) / 2 in
        tp ← heap !! parent;
        ti ← heap !! index;
        if decide (priority tp >= priority ti)%Z then Some heap
        else bubbleUp_loop fuel' (swap heap parent index) parent
      else Some heap
  end.

Definition bubbleUp (heap : list ticket) (index : nat) : option (list ticket) :=
  bubbleUp_loop index heap index.

Definition insert (heap : list ticket) (t : ticket) : option (list ticket) :=
  let heap' := heap ++ [t] in
  bubbleUp heap' (length heap' - 1).

(** One evaluation of the two [if]s that pick [largest] in [bubbleDown].
    The bound test [left < heap.length] is the [Some] case of the lookup;
    [heap[largest]] is only read behind it. *)
Definition pick (heap : list ticket) (largest child : nat) : nat :=
  match heap !! child, heap !! largest with
  | Some tc, Some tl =>
      if decide (priority tc > priority tl)%Z then child else largest
  | _, _ => largest
  end.

Definition largest_of (heap : list ticket) (index : nat) : nat :=
  pick heap (pick heap index (2 * index + 1)) (2 * index + 2).

(** The [while (true)] loop of [bubbleDown]. *)
Fixpoint bubbleDown_loop (fuel : nat) (heap : list ticket) (index : nat)
  : list ticket :=
  match fuel with
  | O => heap
  | S fuel' =>
      let largest := largest_of heap index in
      if decide (largest = index) then heap
      else bubbleDown_loop fuel' (swap heap index largest) largest
  end.

Definition bubbleDown (heap : list ticket) (index : nat) : list ticket :=
  bubbleDown_loop (length heap) heap index.

(** [heap.pop()] for its effect on the array. *)
Definition pop (heap : list ticket) : list ticket :=
  take (length heap - 1) heap.

(** [extractMax]: the returned value ([None] is [null]) and the new heap. *)
Definition extractMax (heap : list ticket) : option ticket * list ticket :=
  match heap !! 0 with
  | None => (None, heap)
  | Some max =>
      let heap1 :=
        match heap !! (length heap - 1) with
        | Some lst => <[0 := lst]> heap
        | None => heap
        end in
      let heap2 := pop heap1 in
      let heap3 := if decide (0 < length heap2) then bubbleDown heap2 0 else heap2 in
      (Some max, heap3)
  end.

Definition isEmpty (heap : list ticket) : bool := bool_decide (length heap = 0).

(** A call on a queue, and the run of a sequence of calls from
    [new PriorityQueue()].  The run yields the final heap and the values
    the [extractMax] calls returned, in call order. *)
Inductive call := Insert (t : ticket) | ExtractMax.

Fixpoint run_from (heap : list ticket) (cs : list call)
  : option (list ticket * list (option ticket)) :=
  match cs with
  | [] => Some (heap, [])
  | Insert t :: cs' => heap' ← insert heap t; run_from heap' cs'
  | ExtractMax :: cs' =>
      let '(r, heap') := extractMax heap in
      '(h, rs) ← run_from heap' cs';
      Some (h, r :: rs)
  end.

Definition run (cs : list call) := run_from [] cs.

(** The max-heap property, stated on parent and child indices. *)
Definition is_child (p c : nat) : Prop := c = 2 * p + 1 ∨ c = 2 * p + 2.

Definition heap_ok (heap : list ticket) : Prop :=
  ∀ p c tp tc, is_child p c → heap !! p = Some tp → heap !! c = Some tc →
    (priority tc <= priority tp)%Z.

(** Loop invariants of the two sifting loops: the heap property everywhere
    except on the edge into [i] (sifting up) or on the edges out of [i]
    (sifting down); in both cases the parent of [i] already dominates the
    children of [i]. *)
Definition skip_edges (heap : list ticket) (i : nat) : Prop :=
  ∀ g c tg tc, is_child g i → is_child i c →
    heap !! g = Some tg → heap !! c = Some tc → (priority tc <= priority tg)%Z.

Definition up_inv (heap : list ticket) (i : nat) : Prop :=
  (∀ p c tp tc, is_child p c → c ≠ i →
     heap !! p = Some tp → heap !! c = Some tc → (priority tc <= priority tp)%Z)
  ∧ skip_edges heap i.

Definition down_inv (heap : list ticket) (i : nat) : Prop :=
  (∀ p c tp tc, is_child p c → p ≠ i →
     heap !! p = Some tp → heap !! c = Some tc → (priority tc <= priority tp)%Z)
  ∧ skip_edges heap i.

(** The array after [heap[0] = heap[length - 1]; heap.pop()]. *)
Definition moved_last (heap : list ticket) : list ticket :=
  pop (match heap !! (length heap - 1) with
       | Some lst => <[0 := lst]> heap
       | None => heap
       end).

(** An open ticket that only carries a priority. *)
Definition ticket_of_priority (p : Z) : ticket :=
  Ticket "t" p Open None None None.

(** What a sequence of calls put in, and what its [extractMax] calls got
    out. *)
Definition inserted (cs : list call) : list ticket :=
  omap (λ c, match c with Insert t => Some t | ExtractMax => None end) cs.

Definition extracted (rs : list (option ticket)) : list ticket := omap id rs.

Definition by_priority_desc (a b : ticket) : Prop :=
  (priority b <= priority a)%Z.

End PriorityQueue.

(** ** Array helpers shared by several routines *)

Module JS.

(** [Array.prototype.sort(cmp)], which is stable: insertion of each element
    in front of the first later element it does not have to follow.
    [gt a b] is [cmp(a, b) > 0]. *)
Fixpoint sort_insert {A} (gt : A → A → bool) (x : A) (l : list A) : list A :=
  match l with
  | [] => [x]
  | y :: l' => if gt x y then y :: sort_insert gt x l' else x :: y :: l'
  end.

Fixpoint sort_by {A} (gt : A → A → bool) (l : list A) : list A :=
  match l with
  | [] => []
  | x :: l' => sort_insert gt x (sort_by gt l')
  end.

(** [a.slice(0, k)]: a negative [k] counts from the end. *)
Definition slice0 {A} (l : list A) (k : Z) : list A :=
  if decide (0 <= k)%Z then take (Z.to_nat k) l
  else take (Z.to_nat (Z.max (Z.of_nat (length l) + k) 0)) l.

(** [i % n] on array positions: [n = 0] gives [NaN], and [a[NaN]] is
    [undefined]. *)
Definition index_mod (i n : nat) : option nat :=
  if decide (n = 0) then None else Some (i mod n).

(** [Math.round]: nearest integer, halves towards plus infinity. *)
Definition round (x : Q) : Z := Qfloor (x + (1 # 2)).

(** [Math.max(...l)]; [None] stands for the [-Infinity] of the empty list. *)
Definition max_of (l : list Q) : option Q :=
  match l with
  | [] => None
  | x :: l' => Some (foldl Qmax x l')
  end.

End JS.

(** ** Plain objects used as dictionaries *)

Module PlainObject.

(** The property names that a plain object inherits from
    [Object.prototype]. *)
Definition inherited_names : list string :=
  ["constructor"; "hasOwnProperty"; "isPrototypeOf"; "propertyIsEnumerable";
   "toLocaleString"; "toString"; "valueOf"; "__proto__";
   "__defineGetter__"; "__defineSetter__"; "__lookupGetter__";
   "__lookupSetter__"].

Definition inherited (key : string) : bool :=
  bool_decide (key ∈ inherited_names).

(** What [o[key]] evaluates to: the own property when there is one;
    otherwise, for an inherited name, what the prototype holds (a function,
    or the prototype object itself for [__proto__]); otherwise
    [undefined]. *)
Inductive value (A : Type) :=
  | Undefined
  | Own (a : A)
  | Inherited.
Arguments Undefined {A}.
Arguments Own {A} a.
Arguments Inherited {A}.

Definition read {A} (o : gmap string A) (key : string) : value A :=
  match o !! key with
  | Some a => Own a
  | None => if inherited key then Inherited else Undefined
  end.

(** [o[key] = a] for a value [a] that is not an object.  Unless [o] has an
    own property [__proto__], an assignment to that name goes to the
    inherited setter, which ignores such a value. *)
Definition assign {A} (o : gmap string A) (key : string) (a : A)
  : gmap string A :=
  match o !! key with
  | Some _ => <[key := a]> o
  | None => if bool_decide (key = "__proto__") then o else <[key := a]> o
  end.

End PlainObject.

(** ** Double arithmetic *)

Module Double.

(** [2^e] for an integer exponent. *)
Definition pow2 (e : Z) : Q := (2 ^ e)%Q.

(** The integer nearest to [x], a half going to the even neighbour. *)
Definition rne (x : Q) : Z :=
  let f := Qfloor x in
  match (x - inject_Z f ?= 1 # 2)%Q with
  | Lt => f
  | Gt => (f + 1)%Z
  | Eq => if Z.even f then f else (f + 1)%Z
  end.

(** The multiple of [2^e] nearest to [x]. *)
Definition round_at (e : Z) (x : Q) : Q :=
  (inject_Z (rne (x / pow2 e)) * pow2 e)%Q.

(** The binary exponent [k] of a positive [x]: [2^k <= x < 2^(k+1)]. *)
Definition ilog2 (x : Q) : Z :=
  let k := (Z.log2 (Qnum x) - Z.log2 (Zpos (Qden x)))%Z in
  if Qle_bool (pow2 k) x then k else (k - 1)%Z.

(** A positive [x] rounded to 53 significant bits. *)
Definition fl_pos (x : Q) : Q := round_at (ilog2 x - 52) x.

(** The double nearest to the real number [x]. *)
Definition fl (x : Q) : Q :=
  match (x ?= 0)%Q with
  | Eq => 0%Q
  | Gt => fl_pos x
  | Lt => (- fl_pos (- x))%Q
  end.

(** [a + b], [a - b], [a * b] and [a / b] on doubles ([b] not zero). *)
Definition add (a b : Q) : Q := fl (a + b).
Definition sub (a b : Q) : Q := fl (a - b).
Definition mul (a b : Q) : Q := fl (a * b).
Definition div (a b : Q) : Q := fl (a / b).

(** [x] is a double. *)
Definition representable (x : Q) : Prop := (fl x == x)%Q.

(** The double written [0.1]. *)
Definition tenth : Q := fl (1 # 10).

(** The unit roundoff [2^-53]. *)
Definition eps : Q := pow2 (-53).

(** [q^n] *)
Fixpoint power (q : Q) (n : nat) : Q :=
  match n with
  | 0 => 1%Q
  | S n' => (q * power q n')%Q
  end.

(** [x] is the non-negative real number [exact] up to the rounding of [n]
    operations: a relative error of at most [(1 + 2^-53)^n - 1]. *)
Definition within (n : nat) (exact x : Q) : Prop :=
  (power (1 - eps) n * exact <= x)%Q ∧ (x <= power (1 + eps) n * exact)%Q.

End Double.

(** ** Assignment strategies *)

Module Assignment.

(** [{ ...ticket, assignedDoctor }]; [None] is [undefined]. *)
Record assigned := Assigned {
  aticket : ticket;
  assignedDoctor : option doctor
}.

Fixpoint roundRobin_from (doctorIndex : nat) (tickets : list ticket)
  (doctors : list doctor) : list assigned :=
  match tickets with
  | [] => []
  | t :: ts =>
      Assigned t (JS.index_mod doctorIndex (length doctors) ≫= (doctors !!.))
      :: roundRobin_from (S doctorIndex) ts doctors
  end.

Definition roundRobinAssignment (tickets : list ticket) (doctors : list doctor)
  : list assigned :=
  roundRobin_from 0 tickets doctors.

(** [load < minLoad], where [minLoad = None] is the initial [Infinity]. *)
Definition below (load : Z) (minLoad : option Z) : bool :=
  match minLoad with
  | None => true
  | Some m => bool_decide (load < m)%Z
  end.

(** [currentLoads[doctor.id] || 0] when it is a number.  An id that names
    a property of [Object.prototype], and no own property of
    [currentLoads], reads a function or an object: it is truthy, so it is
    the load, and it compares as [NaN]; this is [None]. *)
Definition load_of (currentLoads : gmap string Z) (d : doctor) : option Z :=
  match PlainObject.read currentLoads (did d) with
  | PlainObject.Own n => Some n
  | PlainObject.Undefined => Some 0%Z
  | PlainObject.Inherited => None
  end.

(** The body of the [forEach]: the state is [(minLoad, selectedDoctor)]. *)
Definition leastLoad_step (currentLoads : gmap string Z)
  (st : option Z * option doctor) (d : doctor) : option Z * option doctor :=
  match load_of currentLoads d with
  | Some load => if below load st.1 then (Some load, Some d) else st
  | None => st
  end.

Definition leastLoadAssignment (t : ticket) (doctors : list doctor)
  (currentLoads : gmap string Z) : option doctor :=
  (foldl (leastLoad_step currentLoads) (None, None) doctors).2.

(** The state of the [forEach] after the doctors [seen]: the first doctor
    of least load among those whose load is a number, with that load. *)
Definition least_inv (currentLoads : gmap string Z) (seen : list doctor)
  (st : option Z * option doctor) : Prop :=
  (Forall (λ e, load_of currentLoads e = None) seen ∧ st = (None, None))
  ∨ ∃ pre d post n,
      seen = pre ++ d :: post
      ∧ load_of currentLoads d = Some n
      ∧ st = (Some n, Some d)
      ∧ Forall (λ e, ∀ m, load_of currentLoads e = Some m → (n < m)%Z) pre
      ∧ Forall (λ e, ∀ m, load_of currentLoads e = Some m → (n <= m)%Z) post.

End Assignment.

(** ** Specialty similarity *)

Module Knn.

(** A JS number as far as the similarity computation can produce one. *)
Inductive jsnum := NaN | PInf | NInf | Fin (q : Q).

(** [a / b] on two array lengths. *)
Definition div_len (a b : nat) : jsnum :=
  if decide (b = 0) then (if decide (a = 0) then NaN else PInf)
  else Fin (Z.of_nat a # Pos.of_nat b).

Definition sub (x y : jsnum) : jsnum :=
  match x, y with
  | NaN, _ | _, NaN => NaN
  | PInf, PInf | NInf, NInf => NaN
  | PInf, _ | _, NInf => PInf
  | NInf, _ | _, PInf => NInf
  | Fin a, Fin b => Fin (a - b)
  end.

(** [x > 0]; false on [NaN]. *)
Definition positive (x : jsnum) : bool :=
  match x with
  | PInf => true
  | Fin q => match (0 ?= q)%Q with Lt => true | _ => false end
  | _ => false
  end.

Definition well_defined (x : jsnum) : Prop :=
  match x with Fin _ => True | _ => False end.

(** Text is modelled as ASCII.  [\s] and the comma of [/[\s,]+/]. *)
Definition is_sep (c : ascii) : bool :=
  let n := nat_of_ascii c in
  bool_decide (n = 9 ∨ n = 10 ∨ n = 11 ∨ n = 12 ∨ n = 13 ∨ n = 32 ∨ n = 44).

Definition lower (c : ascii) : ascii :=
  let n := nat_of_ascii c in
  if bool_decide (65 ≤ n ∧ n ≤ 90) then ascii_of_nat (n + 32) else c.

Fixpoint toLowerCase (s : string) : string :=
  match s with
  | EmptyString => EmptyString
  | String c s' => String (lower c) (toLowerCase s')
  end.

(** [s.split(/[\s,]+/)]: [cur] is the piece being read, [in_run] tells
    whether the previous character was a separator. *)
Fixpoint split_from (s : string) (cur : string) (in_run : bool) : list string :=
  match s with
  | EmptyString => [cur]
  | String c s' =>
      if is_sep c then
        if in_run then split_from s' EmptyString true
        else cur :: split_from s' EmptyString true
      else split_from s' (cur +:+ String c EmptyString) false
  end.

Definition split (s : string) : list string := split_from s EmptyString false.

(** [.filter(s => s)]: the empty string is the only falsy string. *)
Definition truthy (s : string) : bool :=
  match s with EmptyString => false | _ => true end.

Definition tokens (s : string) : list string :=
  filter (λ t, truthy t = true) (split (toLowerCase s)).

Definition specialty_tokens (d : doctor) : list string :=
  tokens (default EmptyString (specialties d)).

Record scored := Scored {
  sdoctor : doctor;
  similarity : jsnum
}.

Definition score (symp : list string) (d : doctor) : scored :=
  let doctorSpecialties := specialty_tokens d in
  let commonTerms := filter (λ s, s ∈ doctorSpecialties) symp in
  Scored d (div_len (length commonTerms)
                    (Nat.max (length symp) (length doctorSpecialties))).

(** The comparator [(a, b) => b.similarity - a.similarity] is positive. *)
Definition by_similarity (a b : scored) : bool :=
  positive (sub (similarity b) (similarity a)).

Definition knnRecommendation (symptoms : string) (doctors : list doctor)
  (k : option Z) : list scored :=
  let k := default 3%Z k in
  let symp := tokens symptoms in
  let distances := JS.sort_by by_similarity (map (score symp) doctors) in
  filter (λ d, positive (similarity d) = true) (JS.slice0 distances k).

(** Order of two entries by similarity, on numbers. *)
Definition sim_ge (a b : scored) : Prop :=
  match similarity a, similarity b with
  | Fin qa, Fin qb => (qb <= qa)%Q
  | _, _ => False
  end.

Definition finite (r : scored) : Prop :=
  match similarity r with Fin _ => True | _ => False end.

End Knn.

(** ** Availability *)

Module Availability.

Record slot := Slot {
  start : Z;
  end_ : Z
}.

(** The comparator [(a, b) => a.start - b.start] is positive. *)
Definition by_start (a b : slot) : bool := bool_decide (start a - start b > 0)%Z.

(** The body of the [for] loop: the state is [(currentTime, available)]. *)
Definition sweep_step (st : Z * list slot) (s : slot) : Z * list slot :=
  let '(currentTime, available) := st in
  (Z.max currentTime (end_ s),
   if decide (currentTime < start s)%Z
   then available ++ [Slot currentTime (start s)]
   else available).

Definition findAvailableSlots (bookedSlots : list slot) (startTime endTime : Z)
  (slotDuration : option Z) : list slot :=
  let sortedSlots := JS.sort_by by_start bookedSlots in
  let '(currentTime, available) := foldl sweep_step (startTime, []) sortedSlots in
  if decide (currentTime < endTime)%Z
  then available ++ [Slot currentTime endTime]
  else available.

(** Half-open intervals: [g] lies inside the window [[s, e)], and [g]
    shares no instant with [b]. *)
Definition within (g : slot) (s e : Z) : Prop :=
  (s <= start g)%Z ∧ (end_ g <= e)%Z.

Definition disjoint (g b : slot) : Prop :=
  ∀ t : Z, ¬ ((start g <= t < end_ g)%Z ∧ (start b <= t < end_ b)%Z).

(** The sweep as two structural recursions: the gaps emitted from cursor
    [cur] on, and where the cursor ends up. *)
Fixpoint gaps_from (cur : Z) (l : list slot) : list slot :=
  match l with
  | [] => []
  | s :: l' =>
      (if decide (cur < start s)%Z then [Slot cur (start s)] else [])
      ++ gaps_from (Z.max cur (end_ s)) l'
  end.

Fixpoint cursor_after (cur : Z) (l : list slot) : Z :=
  match l with
  | [] => cur
  | s :: l' => cursor_after (Z.max cur (end_ s)) l'
  end.

Definition starts_le (a b : slot) : Prop := (start a <= start b)%Z.

(** The instant [t] lies in the half-open interval [g]; the interval [g]
    ends before [h] begins. *)
Definition covers (g : slot) (t : Z) : Prop := (start g <= t < end_ g)%Z.

Definition before (g h : slot) : Prop := (end_ g <= start h)%Z.

End Availability.

(** ** Retry helper *)

Module Retry.

Section Backoff.
(** The wrapped operation acts on some world [W]; an attempt either
    fulfils with a value or rejects with an error. *)
Context {W E V : Type}.

Inductive outcome :=
| Returned (v : option V)   (* [None]: the function fell off its end, [undefined] *)
| Thrown (e : E).

Inductive event := Invoke | Sleep (ms : Z).

(** The [for (let i = 0; i < maxRetries; i++)] loop from counter [i].
    The result is the outcome, the log of operation calls and delays, and
    the final world. *)
Fixpoint backoff_loop (fuel : nat) (operation : W → (E + V) * W)
  (maxRetries i : Z) (w : W) : outcome * list event * W :=
  match fuel with
  | O => (Returned None, [], w)
  | S fuel' =>
      if decide (i < maxRetries)%Z then
        match operation w with
        | (inr v, w') => (Returned (Some v), [Invoke], w')
        | (inl error, w') =>
            if decide (i = maxRetries - 1)%Z then (Thrown error, [Invoke], w')
            else
              let delay := (2 ^ i * 1000)%Z in
              let '(r, log, w'') :=
                backoff_loop fuel' operation maxRetries (i + 1) w' in
              (r, Invoke :: Sleep delay :: log, w'')
        end
      else (Returned None, [], w)
  end.

Definition exponentialBackoff (operation : W → (E + V) * W)
  (maxRetries : option Z) (w : W) : outcome * list event * W :=
  let maxRetries := default 5%Z maxRetries in
  backoff_loop (Z.to_nat maxRetries) operation maxRetries 0 w.

Definition is_invoke (ev : event) : bool :=
  match ev with Invoke => true | Sleep _ => false end.

Definition invocations (log : list event) : nat :=
  length (filter (λ ev, is_invoke ev = true) log).
End Backoff.

#[global] Arguments outcome : clear implicits.

(** An operation that counts its attempts and rejects each of them. *)
Definition always_down (w : nat) : (string + nat) * nat := (inl "down", S w).

(** The log of [n] attempts from loop counter [i]: a delay of
    [2^i * 1000] after every attempt but the last. *)
Fixpoint schedule (i : Z) (n : nat) : list event :=
  match n with
  | 0 => []
  | S n' =>
      match n' with
      | 0 => [Invoke]
      | S _ => Invoke :: Sleep (2 ^ i * 1000) :: schedule (i + 1) n'
      end
  end.

End Retry.

(** ** LRUCache *)

Module LRUCache.

Section Cache.
Context {V : Type}.

(** A JS [Map] with string keys: its entries in insertion order. *)
Local Abbreviation jsmap := (list (string * V)).

Definition map_has (m : jsmap) (key : string) : bool :=
  bool_decide (key ∈ m.*1).

Definition map_get (m : jsmap) (key : string) : option V :=
  (λ r, r.2.2) <$> list_find (λ e, e.1 = key) m.

Definition map_delete (m : jsmap) (key : string) : jsmap :=
  filter (λ e, e.1 ≠ key) m.

(** [Map.set] keeps the position of a key that is already present. *)
Fixpoint map_set (m : jsmap) (key : string) (value : V) : jsmap :=
  match m with
  | [] => [(key, value)]
  | e :: m' =>
      if decide (e.1 = key) then (key, value) :: m'
      else e :: map_set m' key value
  end.

(** [m.keys().next().value] *)
Definition first_key (m : jsmap) : option string := fst <$> head m.

Record lru := LRU {
  capacity : Z;
  cache : jsmap
}.

Definition new (capacity : Z) : lru := LRU capacity [].

(** [get]: the returned value ([None] is [null]) and the new cache.
    [cache.has(key)] holds exactly when [cache.get(key)] finds an entry,
    so the test and the read are one [match]. *)
Definition get (c : lru) (key : string) : option V * lru :=
  match map_get (cache c) key with
  | None => (None, c)
  | Some value =>
      let m := map_delete (cache c) key in
      let m := map_set m key value in
      (Some value, LRU (capacity c) m)
  end.

Definition put (c : lru) (key : string) (value : V) : lru :=
  let m := if map_has (cache c) key then map_delete (cache c) key else cache c in
  let m := map_set m key value in
  let m :=
    if decide (Z.of_nat (length m) > capacity c)%Z
    then from_option (map_delete m) m (first_key m)
    else m in
  LRU (capacity c) m.

Definition getSize (c : lru) : nat := length (cache c).
End Cache.

#[global] Arguments lru : clear implicits.

(** Calls on a cache, from [new LRUCache(capacity)]. *)
Section Calls.
Context {V : Type}.

(** [clear] *)
Definition clear (c : lru V) : lru V := LRU (capacity c) [].

Inductive op := Put (key : string) (value : V) | Get (key : string) | Clear.

Definition step (c : lru V) (o : op) : lru V :=
  match o with
  | Put key value => put c key value
  | Get key => (get c key).2
  | Clear => clear c
  end.

Definition run (capacity : Z) (ops : list op) : lru V :=
  foldl step (new capacity) ops.

(** What every cache satisfies that calls have built. *)
Definition cache_ok (c : lru V) : Prop :=
  NoDup (cache c).*1 ∧ (Z.of_nat (length (cache c)) <= Z.max 0 (capacity c))%Z.
End Calls.
#[global] Arguments op : clear implicits.

End LRUCache.

(** ** NotificationBatcher *)

Module NotificationBatcher.

Section Batcher.
Context {N : Type}.

(** [timer] is [None] for [null], and otherwise the delay of the pending
    one-shot timeout. *)
Record batcher := Batcher {
  batch : list N;
  batchSize : Z;
  flushInterval : Z;
  timer : option Z
}.

Definition new (batchSize flushInterval : option Z) : batcher :=
  Batcher [] (default 10%Z batchSize) (default 5000%Z flushInterval) None.

(** [flush]: what the returned promise fulfils with ([None] is
    [undefined]) and the new state. *)
Definition flush (b : batcher) : option (list N) * batcher :=
  if decide (length (batch b) = 0) then (None, b)
  else
    let toSend := batch b in
    (Some toSend, Batcher [] (batchSize b) (flushInterval b) None).

(** What a call of [add] did besides pushing. *)
Inductive effect :=
| Flushed (sent : option (list N))
| Armed
| Nothing.

Definition add (b : batcher) (notification : N) : effect * batcher :=
  let b1 := Batcher (batch b ++ [notification]) (batchSize b)
                    (flushInterval b) (timer b) in
  if decide (Z.of_nat (length (batch b1)) >= batchSize b1)%Z then
    let '(sent, b2) := flush b1 in (Flushed sent, b2)
  else if timer b1 is None then
    (Armed, Batcher (batch b1) (batchSize b1) (flushInterval b1)
                    (Some (flushInterval b1)))
  else (Nothing, b1).

(** Consecutive [add] calls, with no timeout firing in between. *)
Fixpoint add_all (b : batcher) (ns : list N) : list effect * batcher :=
  match ns with
  | [] => ([], b)
  | n :: ns' =>
      let '(e, b1) := add b n in
      let '(es, b2) := add_all b1 ns' in
      (e :: es, b2)
  end.

Definition getBatchSize (b : batcher) : nat := length (batch b).

Definition is_flush (e : effect) : Prop :=
  match e with Flushed _ => True | _ => False end.
End Batcher.

#[global] Arguments batcher : clear implicits.
#[global] Arguments effect : clear implicits.

Section Events.
Context {N : Type}.

(** What happens to a batcher: a notification is added, or [flush] is
    called, by a caller or by the pending timeout. *)
Inductive event := Add (notification : N) | Flush.

(** The batches sent by one event. *)
Definition sent_by (e : effect N) : list (list N) :=
  match e with
  | Flushed (Some toSend) => [toSend]
  | _ => []
  end.

(** A sequence of events: the batches sent, in order, and the final state. *)
Fixpoint run (b : batcher N) (evs : list event) : list (list N) * batcher N :=
  match evs with
  | [] => ([], b)
  | Add n :: evs' =>
      let '(e, b1) := add b n in
      let '(out, b2) := run b1 evs' in
      (sent_by e ++ out, b2)
  | Flush :: evs' =>
      let '(r, b1) := flush b in
      let '(out, b2) := run b1 evs' in
      (sent_by (Flushed r) ++ out, b2)
  end.

Definition added (evs : list event) : list N :=
  omap (λ ev, match ev with Add n => Some n | Flush => None end) evs.

(** Between calls, of a batcher with a positive batch size: the batch is
    below the batch size, and a timeout is pending exactly when something
    waits in the batch. *)
Definition batcher_ok (b : batcher N) : Prop :=
  (Z.of_nat (length (batch b)) < batchSize b)%Z
  ∧ (timer b = None ↔ batch b = []).
End Events.
#[global] Arguments event : clear implicits.

End NotificationBatcher.

(** ** TokenBucket *)

Module TokenBucket.

(** The capacity, the token count and the refill rate are doubles;
    [lastRefill] is a clock reading in milliseconds. *)
Record bucket := Bucket {
  capacity : Q;
  tokens : Q;
  refillRate : Q;
  lastRefill : Z
}.

(** [new TokenBucket(capacity, refillRate)] at clock reading [now]. *)
Definition new (capacity refillRate : Q) (now : Z) : bucket :=
  Bucket capacity capacity refillRate now.

(** [refill] when [Date.now()] reads [now]. *)
Definition refill (b : bucket) (now : Z) : bucket :=
  let elapsed :=
    Double.div (Double.sub (inject_Z now) (inject_Z (lastRefill b))) 1000 in
  Bucket (capacity b)
         (Qmin (capacity b)
               (Double.add (tokens b) (Double.mul elapsed (refillRate b))))
         (refillRate b) now.

Definition consume (b : bucket) (now : Z) (amount : option Q) : bool * bucket :=
  let amount := default 1%Q amount in
  let b1 := refill b now in
  if Qle_bool amount (tokens b1) then
    (true, Bucket (capacity b1) (Double.sub (tokens b1) amount)
                  (refillRate b1) (lastRefill b1))
  else (false, b1).

(** One observed [consume] call: the token count right after the refill,
    the answer, and the token count when the call returns. *)
Record observation := Observation {
  after_refill : Q;
  answer : bool;
  after_consume : Q
}.

(** A sequence of [consume] calls, each with the clock reading at which it
    happens and its amount. *)
Fixpoint run (b : bucket) (calls : list (Z * Q)) : list observation * bucket :=
  match calls with
  | [] => ([], b)
  | (now, amount) :: calls' =>
      let '(ok, b1) := consume b now (Some amount) in
      let '(obs, b2) := run b1 calls' in
      (Observation (tokens (refill b now)) ok (tokens b1) :: obs, b2)
  end.

(** Time does not run backwards and amounts are not negative. *)
Fixpoint admissible (last : Z) (calls : list (Z * Q)) : Prop :=
  match calls with
  | [] => True
  | (now, amount) :: calls' =>
      (last <= now)%Z ∧ (0 <= amount)%Q ∧ admissible now calls'
  end.

Definition in_range (cap x : Q) : Prop := (0 <= x)%Q ∧ (x <= cap)%Q.

(** Three calls at once, one half a second later, one a second after. *)
Definition sample_calls : list (Z * Q) :=
  [(0%Z, 1%Q); (0%Z, 1%Q); (0%Z, 1%Q); (500%Z, 1%Q); (1500%Z, 3 # 2)].

(** The bucket is emptied, then asked for nothing every 100 ms for a
    second. *)
Definition tenth_steps : list (Z * Q) :=
  (0%Z, 5%Q) :: map (λ i, (100 * i, 0%Q)%Z) [1; 2; 3; 4; 5; 6; 7; 8; 9; 10]%Z.

(** What every reachable bucket satisfies. *)
Definition bucket_ok (b : bucket) : Prop :=
  Double.representable (capacity b) ∧ Double.representable (tokens b)
  ∧ (0 <= refillRate b)%Q ∧ in_range (capacity b) (tokens b).

(** [getAvailableTokens] when the clock reads [now]: the number returned
    and the refilled bucket. *)
Definition getAvailableTokens (b : bucket) (now : Z) : Z * bucket :=
  let b1 := refill b now in
  (Qfloor (tokens b1), b1).

End TokenBucket.

(** ** Wait-time statistics *)

Module Analytics.

Record stats := Stats {
  avgWaitTime : Z;
  medianWaitTime : Z;
  maxWaitTime : Z
}.

(** A stored time value used as a condition: an absent field and the
    number 0 are falsy. *)
Definition truthy_time (time : option Z) : bool :=
  match time with
  | Some ms => negb (ms =? 0)%Z
  | None => false
  end.

(** [t.status === 'Completed' && t.createdAt && t.completedAt] *)
Definition qualifies (t : ticket) : bool :=
  bool_decide (tstatus t = Completed)
  && truthy_time (createdAt t)
  && truthy_time (completedAt t).

(** [(completed - created) / 1000 / 60] on two time values. *)
Definition minutes (created completed : Z) : Q :=
  Double.div
    (Double.div (Double.sub (inject_Z completed) (inject_Z created)) 1000) 60.

(** The wait time of a ticket; an absent field makes [getTime] yield
    [NaN], which is outside the model ([None]). *)
Definition waitTime (t : ticket) : option Q :=
  created ← createdAt t;
  completed ← completedAt t;
  Some (minutes created completed).

(** The comparator [(a, b) => a - b] is positive. *)
Definition ascending (a b : Q) : bool :=
  match (0 ?= Double.sub a b)%Q with Lt => true | _ => false end.

(** [l.reduce((a, b) => a + b) / l.length]: the values added from left to
    right, then the sum divided by their number, each operation rounding.
    [None] is the [TypeError] of reducing an empty array with no initial
    value. *)
Definition mean (l : list Q) : option Q :=
  match l with
  | [] => None
  | x :: l' =>
      Some (Double.div (foldl Double.add x l') (inject_Z (Z.of_nat (length l))))
  end.

(** [tickets] is the list [Object.values(tickets)].  [None] would be a
    [NaN] statistic. *)
Definition calculateWaitTimeStats (tickets : list ticket) : option stats :=
  let completedTickets := filter (λ t, qualifies t = true) tickets in
  if decide (length completedTickets = 0) then Some (Stats 0 0 0)
  else
    waitTimes ← mapM waitTime completedTickets;
    let waitTimes := JS.sort_by ascending waitTimes in
    avgWaitTime ← mean waitTimes;
    medianWaitTime ← waitTimes !! (length waitTimes / 2);
    maxWaitTime ← JS.max_of waitTimes;
    Some (Stats (JS.round avgWaitTime) (JS.round medianWaitTime)
                (JS.round maxWaitTime)).

(** A ticket created at [t0] and completed [ms] milliseconds later. *)
Definition completed_in (name : string) (t0 ms : Z) : ticket :=
  Ticket name 0 Completed (Some t0) (Some (t0 + ms)%Z) None.

(** A ticket completed [m] minutes after its creation at [t0]. *)
Definition completed_after (name : string) (t0 m : Z) : ticket :=
  completed_in name t0 (m * 60000).

(** The statistics in the words of their description.  A time value
    counts when it is present and not the number 0. *)
Definition counts (time : option Z) : Prop :=
  match time with
  | Some ms => ms ≠ 0%Z
  | None => False
  end.

#[global] Instance counts_dec time : Decision (counts time).
Proof. destruct time; apply _. Defined.

Definition considered (t : ticket) : Prop :=
  tstatus t = Completed ∧ counts (createdAt t) ∧ counts (completedAt t).

#[global] Instance considered_dec t : Decision (considered t).
Proof. unfold considered. apply _. Defined.

Definition wait_of (t : ticket) (w : Q) : Prop :=
  ∃ created completed,
    createdAt t = Some created ∧ completedAt t = Some completed
    ∧ w = minutes created completed.

(** The mean of real numbers, without rounding. *)
Definition arithmetic_mean (l : list Q) : Q :=
  (foldr Qplus 0 l / inject_Z (Z.of_nat (length l)))%Q.

Definition is_max (l : list Q) (x : Q) : Prop :=
  x ∈ l ∧ ∀ y, y ∈ l → (y <= x)%Q.

(** [z] is the integer nearest to [x], halves going up. *)
Definition nearest (x : Q) (z : Z) : Prop :=
  (x - (1 # 2) < inject_Z z)%Q ∧ (inject_Z z <= x + (1 # 2))%Q.

(** [a.slice(s)]: a negative [s] counts from the end. *)
Definition slice_from {A} (l : list A) (s : Z) : list A :=
  if decide (s < 0)%Z
  then drop (Z.to_nat (Z.max (Z.of_nat (length l) + s) 0)) l
  else drop (Z.to_nat s) l.

(** [calculateMovingAverage] on a list of doubles; [None] is the
    non-finite result of dividing by a zero window size. *)
Definition calculateMovingAverage (waitTimes : list Q) (windowSize : option Z)
  : option Q :=
  let windowSize := default 10%Z windowSize in
  if decide (length waitTimes = 0) then Some 0%Q
  else if decide (Z.of_nat (length waitTimes) < windowSize)%Z then
    Some (Double.div (foldl Double.add 0%Q waitTimes)
                     (inject_Z (Z.of_nat (length waitTimes))))
  else
    let recent := slice_from waitTimes (- windowSize) in
    if decide (windowSize = 0)%Z then None
    else Some (Double.div (foldl Double.add 0%Q recent) (inject_Z windowSize)).

(** The last [k] values. *)
Definition last_values {A} (k : nat) (l : list A) : list A :=
  drop (length l - k) l.

(** The sum and the mean of whole numbers, without rounding. *)
Fixpoint total (l : list Z) : Z :=
  match l with
  | [] => 0%Z
  | x :: l' => (x + total l')%Z
  end.

Definition exact_mean (l : list Z) : Q :=
  (inject_Z (total l) / inject_Z (Z.of_nat (length l)))%Q.

End Analytics.

(** ** Load ranking *)

Module Schedule.

(** What [doctorLoad] holds under a key: a count, or the text that [+ 1]
    makes of a function inherited from [Object.prototype]. *)
Inductive entry :=
  | Count (n : Z)
  | Text.

(** [{ doctor, load }]; a [load] that is not a number is [None]. *)
Record ranked := Ranked {
  rdoctor : doctor;
  load : option Z
}.

(** The first [forEach]: [doctorLoad[doc.id] = 0]. *)
Definition zero_loads (doctors : list doctor) : gmap string entry :=
  foldl (λ doctorLoad doc, PlainObject.assign doctorLoad (did doc) (Count 0))
        ∅ doctors.

(** [ticket.doctorAssigned && ticket.status !== 'Completed'], giving the
    doctor id to charge; the empty string is falsy. *)
Definition charged (t : ticket) : option string :=
  match doctorAssigned t with
  | Some id =>
      if Knn.truthy id && negb (bool_decide (tstatus t = Completed))
      then Some id else None
  | None => None
  end.

(** [(v || 0) + 1]: a function, an object or a text is truthy, and [+]
    then makes a text. *)
Definition bump (v : PlainObject.value entry) : entry :=
  match v with
  | PlainObject.Undefined => Count 1
  | PlainObject.Own (Count n) => Count (n + 1)
  | PlainObject.Own Text => Text
  | PlainObject.Inherited => Text
  end.

(** The body of the second [forEach]. *)
Definition tally (doctorLoad : gmap string entry) (t : ticket)
  : gmap string entry :=
  match charged t with
  | Some id =>
      PlainObject.assign doctorLoad id (bump (PlainObject.read doctorLoad id))
  | None => doctorLoad
  end.

(** [v || 0] as a load. *)
Definition reported (v : PlainObject.value entry) : option Z :=
  match v with
  | PlainObject.Undefined => Some 0%Z
  | PlainObject.Own (Count n) => Some n
  | PlainObject.Own Text => None
  | PlainObject.Inherited => None
  end.

(** The comparator [(a, b) => a.load - b.load] is positive; with a load
    that is not a number the difference is [NaN], which is not. *)
Definition by_load (a b : ranked) : bool :=
  match load a, load b with
  | Some x, Some y => bool_decide (x - y > 0)%Z
  | _, _ => false
  end.

(** [tickets] is the list [Object.values(tickets)].  When some load is not
    a number the comparator is not consistent, and the order in which
    [sort] leaves the entries is the implementation's choice; the entries
    themselves are not affected. *)
Definition optimizeDoctorSchedule (tickets : list ticket) (doctors : list doctor)
  : list ranked :=
  let doctorLoad := foldl tally (zero_loads doctors) tickets in
  JS.sort_by by_load
    (map (λ doc, Ranked doc (reported (PlainObject.read doctorLoad (did doc))))
         doctors).

(** The tickets that weigh on the doctor with identifier [id]. *)
Definition open_tickets_of (id : string) (tickets : list ticket) : list ticket :=
  filter (λ t, charged t = Some id) tickets.

(** The load that the schedule shows for a doctor. *)
Definition shown_load (tickets : list ticket) (doc : doctor) : option Z :=
  if bool_decide (did doc = "__proto__") then None
  else Some (Z.of_nat (length (open_tickets_of (did doc) tickets))).

Definition load_le (a b : ranked) : Prop :=
  ∃ x y, load a = Some x ∧ load b = Some y ∧ (x <= y)%Z.

End Schedule.

(** ** Active tickets *)

Module ActiveWindow.

(** A stored ticket: the record and its legacy [timestamp] field. *)
Record stored := Stored {
  sticket : ticket;
  timestamp : option Z
}.

(** [ticket.createdAt || ticket.timestamp] as an instant: an absent
    [createdAt] and the number 0 are falsy.  [None] is the [NaN] that
    [getTime] gives when [timestamp] is then absent. *)
Definition ticketTime (s : stored) : option Z :=
  match createdAt (sticket s) with
  | Some created => if (created =? 0)%Z then timestamp s else Some created
  | None => timestamp s
  end.

(** The filter predicate; a comparison with [NaN] is false. *)
Definition active (now windowMs : Z) (s : stored) : bool :=
  match ticketTime s with
  | Some time => bool_decide (now - time <= windowMs)%Z
  | None => false
  end
  && (bool_decide (tstatus (sticket s) = Open)
      || bool_decide (tstatus (sticket s) = Booked)).

(** [tickets] is the list [Object.values(tickets)]; [now] is what
    [Date.now()] reads. *)
Definition getActiveTicketsInWindow (tickets : list stored)
  (windowMinutes : option Z) (now : Z) : list stored :=
  let windowMs := (default 30 windowMinutes * 60 * 1000)%Z in
  filter (λ s, active now windowMs s = true) tickets.
End ActiveWindow.

(** ** Fuzzy search *)

Module Fuzzy.

(** The table [matrix[j][i]]; a cell is [None] while it holds [null]. *)
Definition cell (matrix : list (list (option nat))) (j i : nat) : option nat :=
  match matrix !! j with
  | Some row => match row !! i with Some c => c | None => None end
  | None => None
  end.

(** [matrix[j][i] = v] *)
Definition set_cell (matrix : list (list (option nat))) (j i v : nat)
  : list (list (option nat)) :=
  alter (λ row, <[i := Some v]> row) j matrix.

(** [str1[i - 1] === str2[j - 1] ? 0 : 1] *)
Definition cost (str1 str2 : string) (i j : nat) : nat :=
  if decide (String.get (i - 1) str1 = String.get (j - 1) str2) then 0 else 1.

(** The body of the inner loop.  The three cells it reads hold numbers
    whenever it runs; the model stops with [None] on a cell that does not. *)
Definition fill_cell (str1 str2 : string) (j : nat)
  (matrix : option (list (list (option nat)))) (i : nat)
  : option (list (list (option nat))) :=
  m ← matrix;
  a ← cell m j (i - 1);
  b ← cell m (j - 1) i;
  c ← cell m (j - 1) (i - 1);
  Some (set_cell m j i (Nat.min (a + 1) (Nat.min (b + 1) (c + cost str1 str2 i j)))).

Definition fill_row (str1 str2 : string)
  (matrix : option (list (list (option nat)))) (j : nat)
  : option (list (list (option nat))) :=
  foldl (fill_cell str1 str2 j) matrix (seq 1 (String.length str1)).

Definition levenshteinDistance (str1 str2 : string) : option nat :=
  let len1 := String.length str1 in
  let len2 := String.length str2 in
  let matrix := replicate (S len2) (replicate (S len1) None) in
  let matrix := foldl (λ m i, set_cell m 0 i i) matrix (seq 0 (S len1)) in
  let matrix := foldl (λ m j, set_cell m j 0 j) matrix (seq 0 (S len2)) in
  matrix ← foldl (fill_row str1 str2) (Some matrix) (seq 1 len2);
  cell matrix len2 len1.

(** The recurrence the table follows, on the lengths [i] and [j] of the
    prefixes of [str1] and [str2]. *)
Fixpoint prefix_distance (str1 str2 : string) (i : nat) : nat → nat :=
  match i with
  | 0 => λ j, j
  | S i' =>
      fix row (j : nat) : nat :=
        match j with
        | 0 => S i'
        | S j' =>
            Nat.min (prefix_distance str1 str2 i' (S j') + 1)
              (Nat.min (row j' + 1)
                 (prefix_distance str1 str2 i' j' + cost str1 str2 (S i') (S j')))
        end
  end.

Definition distance (str1 str2 : string) : nat :=
  prefix_distance str1 str2 (String.length str1) (String.length str2).

(** [fuzzySearch]: [searchField] reads [item[searchField]]; [None] only if
    a distance is not a number. *)
Definition search_distance {A} (query : string) (searchField : A → option string)
  (item : A) : option nat :=
  levenshteinDistance (Knn.toLowerCase query)
    (Knn.toLowerCase (default EmptyString (searchField item))).

(** The comparator [(a, b) => a.distance - b.distance] is positive. *)
Definition by_distance {A} (a b : A * nat) : bool :=
  bool_decide (Z.of_nat a.2 - Z.of_nat b.2 > 0)%Z.

Definition fuzzySearch {A} (query : string) (items : list A)
  (searchField : A → option string) (threshold : option Z) : option (list A) :=
  let threshold := default 3%Z threshold in
  results ← mapM (λ item, d ← search_distance query searchField item;
                          Some (item, d)) items;
  Some (map fst (JS.sort_by by_distance
                   (filter (λ r, (Z.of_nat r.2 <= threshold)%Z) results))).

(** The distance between the query and an item, case set aside. *)
Definition item_distance {A} (query : string) (searchField : A → option string)
  (item : A) : nat :=
  distance (Knn.toLowerCase query)
    (Knn.toLowerCase (default EmptyString (searchField item))).

(** The table agrees with the recurrence on the cells that [P] selects. *)
Definition agrees (str1 str2 : string) (matrix : list (list (option nat)))
  (P : nat → nat → Prop) : Prop :=
  length matrix = S (String.length str2)
  ∧ Forall (λ row, length row = S (String.length str1)) matrix
  ∧ ∀ j i, j ≤ String.length str2 → i ≤ String.length str1 → P j i →
      cell matrix j i = Some (prefix_distance str1 str2 i j).

End Fuzzy.

(** * Properties *)

(** ** Sorting *)

Section SortFacts.
Context {A : Type} (gt : A → A → bool).

Lemma sort_insert_perm x l : JS.sort_insert gt x l ≡ₚ x :: l.
Proof.
  induction l as [|y l IH]; simpl; [done|].
  destruct (gt x y); [|done]. by rewrite IH, Permutation_swap.
Qed.

Lemma sort_by_perm l : JS.sort_by gt l ≡ₚ l.
Proof.
  induction l as [|x l IH]; simpl; [done|].
  by rewrite sort_insert_perm, IH.
Qed.

Lemma sort_by_elem x l : x ∈ JS.sort_by gt l ↔ x ∈ l.
Proof. by rewrite sort_by_perm. Qed.

Lemma sort_by_length l : length (JS.sort_by gt l) = length l.
Proof. by rewrite sort_by_perm. Qed.

(** When the comparator decides a total preorder [R], the result is
    ordered by [R]. *)
Context (R : relation A) `{!Transitive R}.
Hypothesis gt_false : ∀ a b, gt a b = false → R a b.
Hypothesis gt_true : ∀ a b, gt a b = true → R b a.

Lemma sort_insert_sorted x l :
  StronglySorted R l → StronglySorted R (JS.sort_insert gt x l).
Proof.
  induction 1 as [|y l Hl IH Hy]; simpl.
  - repeat constructor.
  - destruct (gt x y) eqn:Hxy.
    + constructor; [done|]. rewrite sort_insert_perm.
      constructor; [by apply gt_true|done].
    + constructor; [by constructor|].
      constructor; [by apply gt_false|].
      eapply Forall_impl; [done|]. intros z Hz. simpl in Hz.
      transitivity y; [by apply gt_false|done].
Qed.

Lemma sort_by_sorted l : StronglySorted R (JS.sort_by gt l).
Proof.
  induction l as [|x l IH]; simpl; [constructor|].
  by apply sort_insert_sorted.
Qed.
End SortFacts.

(** The same when the comparator is only known to order the elements that
    satisfy [P]. *)
Section SortOn.
Context {A : Type} (gt : A → A → bool) (P : A → Prop) (R : relation A).
Hypothesis R_trans : ∀ a b c, P a → P b → P c → R a b → R b c → R a c.
Hypothesis gt_false : ∀ a b, P a → P b → gt a b = false → R a b.
Hypothesis gt_true : ∀ a b, P a → P b → gt a b = true → R b a.

Lemma sort_insert_sorted_on x l :
  P x → Forall P l →
  StronglySorted R l → StronglySorted R (JS.sort_insert gt x l).
Proof.
  intros Hx Hl Hsorted. induction Hsorted as [|y l Hs IH Hy]; simpl.
  - repeat constructor.
  - apply Forall_cons in Hl as [HPy HPl].
    destruct (gt x y) eqn:Hxy.
    + constructor; [by apply IH|]. rewrite sort_insert_perm.
      constructor; [by apply gt_true|done].
    + constructor; [by constructor|].
      constructor; [by apply gt_false|].
      rewrite Forall_forall in Hy, HPl |- *. intros z Hz.
      apply (R_trans x y z); auto.
Qed.

Lemma sort_by_sorted_on l : Forall P l → StronglySorted R (JS.sort_by gt l).
Proof.
  induction 1 as [|x l Hx Hl IH]; simpl; [constructor|].
  apply sort_insert_sorted_on; [done| |done]. by rewrite sort_by_perm.
Qed.
End SortOn.

Lemma StronglySorted_sublist {A} (R : relation A) l1 l2 :
  l1 `sublist_of` l2 → StronglySorted R l2 → StronglySorted R l1.
Proof.
  induction 1 as [|x l1 l2 Hsub IH|x l1 l2 Hsub IH]; intros Hsorted.
  - constructor.
  - apply StronglySorted_inv in Hsorted as [Hs Hx].
    constructor; [by apply IH|].
    rewrite Forall_forall in Hx |- *. intros y Hy. apply Hx.
    by eapply elem_of_sublist.
  - apply StronglySorted_inv in Hsorted as [Hs _]. by apply IH.
Qed.

(** ** PriorityQueue *)

Module PriorityQueueFacts.
Import PriorityQueue.

Lemma swap_length heap i j : length (swap heap i j) = length heap.
Proof.
  unfold swap. destruct (heap !! i), (heap !! j); by rewrite ?length_insert.
Qed.

Lemma swap_lookup heap i j ti tj k :
  heap !! i = Some ti → heap !! j = Some tj →
  swap heap i j !! k =
    if decide (k = i) then Some tj
    else if decide (k = j) then Some ti else heap !! k.
Proof.
  intros Hi Hj. unfold swap. rewrite Hi, Hj.
  pose proof (lookup_lt_Some _ _ _ Hi). pose proof (lookup_lt_Some _ _ _ Hj).
  rewrite !list_lookup_insert, !length_insert.
  repeat case_decide; destruct_and?; simplify_eq; try done; exfalso; lia.
Qed.

Lemma swap_perm heap i j : swap heap i j ≡ₚ heap.
Proof.
  unfold swap. destruct (heap !! i) eqn:Hi, (heap !! j) eqn:Hj; try done.
  by apply Permutation_insert_swap.
Qed.

Lemma parent_is_child i : 0 < i → is_child ((i - 1) / 2) i.
Proof.
  intros Hi. unfold is_child.
  pose proof (Nat.div_mod_eq (i - 1) 2) as Hd.
  pose proof (Nat.mod_upper_bound (i - 1) 2). lia.
Qed.

(** From the lookups in the context, collect every priority comparison that
    the edge facts [Hedge] and [Hskip] give, then finish by arithmetic. *)
Ltac heap_facts Hedge Hskip :=
  repeat match goal with
  | Ha : ?h !! ?a = Some ?ta, Hb : ?h !! ?b = Some ?tb |- _ =>
      lazymatch goal with
      | _ : (priority tb <= priority ta)%Z |- _ => fail
      | _ => idtac
      end;
      assert (priority tb <= priority ta)%Z
        by (first
              [ eapply (Hedge a b ta tb);
                solve [ exact Ha | exact Hb | unfold is_child in *; lia ]
              | eapply (Hskip a b ta tb);
                solve [ exact Ha | exact Hb | unfold is_child in *; lia ] ])
  end;
  lia.

Lemma up_inv_swap heap p i tp ti :
  up_inv heap i → is_child p i →
  heap !! p = Some tp → heap !! i = Some ti →
  (priority tp < priority ti)%Z →
  up_inv (swap heap p i) p.
Proof.
  intros [Hedge Hskip] Hpi Hp Hi Hlt.
  split.
  - intros q c tq tc Hqc Hne.
    rewrite !(swap_lookup _ _ _ _ _ _ Hp Hi).
    unfold is_child in *.
    repeat case_decide; intros; simplify_eq; try lia; heap_facts Hedge Hskip.
  - intros g c tg tc Hgp Hpc.
    rewrite !(swap_lookup _ _ _ _ _ _ Hp Hi).
    unfold is_child in *.
    repeat case_decide; intros; simplify_eq; try lia; heap_facts Hedge Hskip.
Qed.

Lemma up_inv_done heap i :
  up_inv heap i →
  (∀ tp ti, heap !! ((i - 1) / 2) = Some tp → heap !! i = Some ti →
     0 < i → (priority ti <= priority tp)%Z) →
  heap_ok heap.
Proof.
  intros [Hedge _] Htop p c tp tc Hpc Hp Hc.
  destruct (decide (c = i)) as [->|Hne]; [|by eapply Hedge].
  assert (p = (i - 1) / 2) as ->.
  { pose proof (parent_is_child i). unfold is_child in *. lia. }
  apply Htop; auto. unfold is_child in *. lia.
Qed.

Lemma bubbleUp_loop_S fuel heap index :
  bubbleUp_loop (S fuel) heap index =
    if decide (0 < index) then
      tp ← heap !! ((index - 1) / 2);
      ti ← heap !! index;
      if decide (priority tp >= priority ti)%Z then Some heap
      else bubbleUp_loop fuel (swap heap ((index - 1) / 2) index) ((index - 1) / 2)
    else Some heap.
Proof. done. Qed.

Lemma bubbleUp_loop_ok fuel : ∀ heap i,
  i ≤ fuel → i < length heap → up_inv heap i →
  ∃ heap', bubbleUp_loop fuel heap i = Some heap'
           ∧ heap_ok heap' ∧ heap' ≡ₚ heap.
Proof.
  induction fuel as [|fuel IH]; intros heap i Hfuel Hlen Hinv.
  - exists heap. split_and!; [done| |done].
    eapply up_inv_done; [done|]. intros; lia.
  - rewrite bubbleUp_loop_S. case_decide as Hpos.
    + pose proof (parent_is_child i Hpos) as Hchild.
      destruct (lookup_lt_is_Some_2 heap ((i - 1) / 2)) as [tp Hp].
      { unfold is_child in *; lia. }
      destruct (lookup_lt_is_Some_2 heap i Hlen) as [ti Hi].
      rewrite Hp, Hi. cbn [mbind option_bind]. case_decide as Hge.
      * exists heap. split_and!; [done| |done].
        eapply up_inv_done; [done|]. intros; simplify_eq. lia.
      * destruct (IH (swap heap ((i - 1) / 2) i) ((i - 1) / 2))
          as (heap' & Hrun & Hok & Hperm).
        { unfold is_child in *; lia. }
        { rewrite swap_length. unfold is_child in *; lia. }
        { eapply up_inv_swap; eauto. lia. }
        exists heap'. split_and!; [done|done|].
        by rewrite Hperm, swap_perm.
    + exists heap. split_and!; [done| |done].
      eapply up_inv_done; [done|]. intros; lia.
Qed.

Lemma bubbleUp_loop_fuel fuel1 : ∀ fuel2 heap i,
  i ≤ fuel1 → i ≤ fuel2 →
  bubbleUp_loop fuel1 heap i = bubbleUp_loop fuel2 heap i.
Proof.
  induction fuel1 as [|fuel1 IH]; intros [|fuel2] heap i H1 H2;
    rewrite ?bubbleUp_loop_S; try done.
  - case_decide; [lia|done].
  - case_decide; [lia|done].
  - case_decide as Hpos; [|done].
    pose proof (parent_is_child i Hpos) as Hchild.
    destruct (heap !! ((i - 1) / 2)); cbn [mbind option_bind]; [|done].
    destruct (heap !! i); cbn [mbind option_bind]; [|done].
    case_decide; [done|]. apply IH; unfold is_child in *; lia.
Qed.

Lemma insert_ok heap t :
  heap_ok heap →
  ∃ heap', insert heap t = Some heap' ∧ heap_ok heap' ∧ heap' ≡ₚ t :: heap.
Proof.
  intros Hok. unfold insert, bubbleUp.
  destruct (bubbleUp_loop_ok (length (heap ++ [t]) - 1) (heap ++ [t])
              (length (heap ++ [t]) - 1)) as (heap' & Hrun & Hok' & Hperm).
  - done.
  - rewrite length_app. simpl. lia.
  - rewrite length_app. simpl. replace (length heap + 1 - 1) with (length heap) by lia.
    split.
    + intros p c tp tc Hpc Hne Hp Hc.
      assert (c < length heap).
      { apply lookup_lt_Some in Hc. rewrite length_app in Hc. simpl in Hc. lia. }
      rewrite lookup_app_l in Hp by (unfold is_child in *; lia).
      rewrite lookup_app_l in Hc by done. by eapply Hok.
    + intros g c tg tc Hg Hc _ Hlook.
      apply lookup_lt_Some in Hlook. rewrite length_app in Hlook. simpl in Hlook.
      unfold is_child in *. lia.
  - exists heap'. split_and!; [done|done|].
    rewrite Hperm. by rewrite Permutation_app_comm.
Qed.

Lemma pick_cases heap l c :
  (pick heap l c = l
   ∧ ∀ tc tl, heap !! c = Some tc → heap !! l = Some tl →
       (priority tc <= priority tl)%Z)
  ∨ (pick heap l c = c
     ∧ ∃ tc tl, heap !! c = Some tc ∧ heap !! l = Some tl
                ∧ (priority tl < priority tc)%Z).
Proof.
  unfold pick.
  destruct (heap !! c) as [tc|] eqn:Hc; [|left; split; [done|congruence]].
  destruct (heap !! l) as [tl|] eqn:Hl; [|left; split; [done|congruence]].
  case_decide.
  - right. split; [done|]. exists tc, tl. split_and!; [done|done|lia].
  - left. split; [done|]. intros ?? [= <-] [= <-]. lia.
Qed.

Lemma largest_of_cases heap i ti :
  heap !! i = Some ti →
  (largest_of heap i = i
   ∧ ∀ c tc, is_child i c → heap !! c = Some tc →
       (priority tc <= priority ti)%Z)
  ∨ (is_child i (largest_of heap i)
     ∧ ∃ tl, heap !! largest_of heap i = Some tl
             ∧ (priority ti < priority tl)%Z
             ∧ ∀ c tc, is_child i c → heap !! c = Some tc →
                 (priority tc <= priority tl)%Z).
Proof.
  intros Hi. unfold largest_of.
  destruct (pick_cases heap i (2 * i + 1)) as [[-> Hl]|[-> (tl & ti' & Hl & Hi' & Hlt)]].
  - destruct (pick_cases heap i (2 * i + 2)) as [[-> Hr]|[-> (tr & ti' & Hr & Hi' & Hlt)]].
    + left. split; [done|]. intros c tc [->| ->] Hc; eauto.
    + right. simplify_eq. split; [by right|]. exists tr. split_and!; [done|done|].
      intros c tc [->| ->] Hc; simplify_eq; [|lia].
      specialize (Hl _ _ Hc Hi). lia.
  - simplify_eq.
    destruct (pick_cases heap (2 * i + 1) (2 * i + 2))
      as [[-> Hr]|[-> (tr & tl' & Hr & Hl' & Hlt')]].
    + right. split; [by left|]. exists tl. split_and!; [done|done|].
      intros c tc [->| ->] Hc; simplify_eq; [lia|]. eauto.
    + right. simplify_eq. split; [by right|]. exists tr. split_and!; [done|lia|].
      intros c tc [->| ->] Hc; simplify_eq; lia.
Qed.

Lemma largest_of_outside heap i : length heap ≤ i → largest_of heap i = i.
Proof.
  intros Hlen. unfold largest_of, pick.
  rewrite !(lookup_ge_None_2 heap) by lia. done.
Qed.

Lemma down_inv_swap heap i l ti tl :
  down_inv heap i → is_child i l →
  heap !! i = Some ti → heap !! l = Some tl →
  (priority ti < priority tl)%Z →
  (∀ c tc, is_child i c → heap !! c = Some tc → (priority tc <= priority tl)%Z) →
  down_inv (swap heap i l) l.
Proof.
  intros [Hedge Hskip] Hil Hi Hl Hlt Hbig.
  split.
  - intros q c tq tc Hqc Hne.
    rewrite !(swap_lookup _ _ _ _ _ _ Hi Hl).
    unfold is_child in *.
    repeat case_decide; intros; simplify_eq; try lia.
    all: try (assert (priority tc <= priority tq)%Z
                by (eapply Hbig; [|eassumption]; lia); lia).
    all: heap_facts Hedge Hskip.
  - intros g c tg tc Hgl Hlc.
    rewrite !(swap_lookup _ _ _ _ _ _ Hi Hl).
    unfold is_child in *.
    repeat case_decide; intros; simplify_eq; try lia.
    all: heap_facts Hedge Hskip.
Qed.

Lemma bubbleDown_loop_ok fuel : ∀ heap i,
  length heap ≤ fuel + i → down_inv heap i →
  heap_ok (bubbleDown_loop fuel heap i) ∧ bubbleDown_loop fuel heap i ≡ₚ heap.
Proof.
  induction fuel as [|fuel IH]; intros heap i Hfuel Hinv.
  - split; [|done]. cbn [bubbleDown_loop]. intros p c tp tc Hpc Hp Hc.
    destruct (decide (p = i)) as [->|Hne]; [|by eapply (proj1 Hinv)].
    apply lookup_lt_Some in Hp. simpl in Hfuel. lia.
  - cbn [bubbleDown_loop]. case_decide as Hstop.
    + split; [|done]. intros p c tp tc Hpc Hp Hc.
      destruct (decide (p = i)) as [->|Hne]; [|by eapply (proj1 Hinv)].
      destruct (largest_of_cases heap i tp Hp) as [[_ Hall]|[Hchild _]]; [eauto|].
      rewrite Hstop in Hchild. unfold is_child in Hchild. lia.
    + destruct (heap !! i) as [ti|] eqn:Hi.
      2:{ apply lookup_ge_None in Hi. by rewrite largest_of_outside in Hstop. }
      destruct (largest_of_cases heap i ti Hi)
        as [[? _]|[Hchild (tl & Hl & Hlt & Hbig)]]; [done|].
      destruct (IH (swap heap i (largest_of heap i)) (largest_of heap i))
        as [Hok Hperm].
      { rewrite swap_length. unfold is_child in Hchild. lia. }
      { by eapply down_inv_swap. }
      split; [done|]. by rewrite Hperm, swap_perm.
Qed.

Lemma bubbleDown_loop_fuel fuel1 : ∀ fuel2 heap i,
  length heap ≤ fuel1 + i → length heap ≤ fuel2 + i →
  bubbleDown_loop fuel1 heap i = bubbleDown_loop fuel2 heap i.
Proof.
  induction fuel1 as [|fuel1 IH]; intros [|fuel2] heap i H1 H2;
    cbn [bubbleDown_loop]; try done.
  - rewrite largest_of_outside by (simpl in *; lia). by rewrite decide_True.
  - rewrite largest_of_outside by (simpl in *; lia). by rewrite decide_True.
  - case_decide as Hstop; [done|].
    destruct (heap !! i) as [ti|] eqn:Hi.
    2:{ apply lookup_ge_None in Hi. by rewrite largest_of_outside in Hstop. }
    destruct (largest_of_cases heap i ti Hi) as [[? _]|[Hchild _]]; [done|].
    apply IH; rewrite swap_length; unfold is_child in Hchild; lia.
Qed.

Lemma moved_last_lookup heap k :
  0 < k → moved_last heap !! k =
            if decide (k < length heap - 1) then heap !! k else None.
Proof.
  intros Hk. unfold moved_last, pop.
  destruct (heap !! (length heap - 1)) as [lst|];
    rewrite ?length_insert, lookup_take; case_decide; try done.
  by rewrite list_lookup_insert_ne by lia.
Qed.

Lemma moved_last_perm heap max :
  heap !! 0 = Some max → heap ≡ₚ max :: moved_last heap.
Proof.
  intros H0. unfold moved_last, pop.
  destruct heap as [|x rest]; simplify_eq/=.
  rewrite Nat.sub_0_r.
  destruct rest as [|y rest0 _] using rev_ind; [done|].
  rewrite length_app. cbn [length].
  replace (length rest0 + 1) with (S (length rest0)) by lia.
  rewrite lookup_cons_ne_0 by lia. cbn [pred].
  rewrite lookup_app_r, Nat.sub_diag by lia.
  cbn [lookup list_lookup insert list_insert length].
  rewrite length_app. cbn [length].
  replace (S (length rest0 + 1) - 1) with (S (length rest0)) by lia.
  rewrite firstn_cons, take_app_length.
  by rewrite (Permutation_app_comm rest0 [y]).
Qed.

Lemma moved_last_down_inv heap : heap_ok heap → down_inv (moved_last heap) 0.
Proof.
  intros Hok. split.
  - intros p c tp tc Hpc Hne.
    rewrite !moved_last_lookup by (unfold is_child in *; lia).
    repeat case_decide; try done. by apply Hok.
  - intros g c tg tc Hg. unfold is_child in Hg. lia.
Qed.

Lemma extractMax_empty heap : (extractMax heap).1 = None ↔ heap = [].
Proof.
  unfold extractMax. destruct heap as [|x rest]; cbn [lookup list_lookup fst];
    [done|].
  split; intros [=].
Qed.

Lemma extractMax_ok heap max :
  heap_ok heap → heap !! 0 = Some max →
  ∃ heap', extractMax heap = (Some max, heap')
           ∧ heap_ok heap' ∧ heap ≡ₚ max :: heap'.
Proof.
  intros Hok H0. unfold extractMax. rewrite H0. fold (moved_last heap).
  pose proof (moved_last_perm heap max H0) as Hperm.
  case_decide.
  - destruct (bubbleDown_loop_ok (length (moved_last heap)) (moved_last heap) 0)
      as [Hok' Hperm']; [lia|by apply moved_last_down_inv|].
    eexists. split; [done|]. split; [done|].
    unfold bubbleDown. by rewrite Hperm'.
  - eexists. split; [done|]. split; [|done].
    destruct (moved_last heap); [|simpl in *; lia].
    intros p c tp tc _ Hp. by rewrite lookup_nil in Hp.
Qed.

Lemma heap_ok_root heap max :
  heap_ok heap → heap !! 0 = Some max →
  ∀ t, t ∈ heap → (priority t <= priority max)%Z.
Proof.
  intros Hok H0 t [i Hi]%list_elem_of_lookup. revert t Hi.
  induction (lt_wf i) as [i _ IH]. intros t Hi.
  destruct (decide (i = 0)) as [->|Hpos]; [by simplify_eq|].
  pose proof (parent_is_child i ltac:(lia)) as Hchild.
  destruct (lookup_lt_is_Some_2 heap ((i - 1) / 2)) as [tp Hp].
  { apply lookup_lt_Some in Hi. unfold is_child in *; lia. }
  assert (priority tp <= priority max)%Z.
  { apply (IH ((i - 1) / 2)); [unfold is_child in *; lia|done]. }
  pose proof (Hok _ _ _ _ Hchild Hp Hi). lia.
Qed.

Lemma heap_ok_nil : heap_ok [].
Proof. intros p c tp tc _ Hp. by rewrite lookup_nil in Hp. Qed.

Lemma run_from_ok cs : ∀ heap,
  heap_ok heap →
  ∃ heap' rs, run_from heap cs = Some (heap', rs) ∧ heap_ok heap'.
Proof.
  induction cs as [|[t|] cs IH]; intros heap Hok; cbn [run_from].
  - by eexists _, _.
  - destruct (insert_ok heap t Hok) as (heap1 & -> & Hok1 & _).
    cbn [mbind option_bind]. by apply IH.
  - destruct (heap !! 0) as [max|] eqn:H0.
    + destruct (extractMax_ok heap max Hok H0) as (heap1 & -> & Hok1 & _).
      destruct (IH heap1 Hok1) as (heap' & rs & -> & Hok').
      by eexists _, _.
    + unfold extractMax. rewrite H0.
      destruct (IH heap Hok) as (heap' & rs & -> & Hok').
      by eexists _, _.
Qed.

(** Claim C2.  Every sequence of [insert] and [extractMax] calls on a new
    queue runs without raising, and in the heap array it leaves, the ticket
    at every parent index has a priority greater than or equal to the
    priority of the ticket at each of its child indices that is in bounds. *)
Theorem heap_property_after_any_calls (cs : list call) :
  ∃ heap rs, run cs = Some (heap, rs)
    ∧ ∀ p c tp tc, (c = 2 * p + 1 ∨ c = 2 * p + 2) →
        heap !! p = Some tp → heap !! c = Some tc →
        (priority tp >= priority tc)%Z.
Proof.
  destruct (run_from_ok cs [] heap_ok_nil) as (heap & rs & Hrun & Hok).
  exists heap, rs. split; [done|].
  intros p c tp tc Hpc Hp Hc. pose proof (Hok p c tp tc Hpc Hp Hc). lia.
Qed.

(** Claim C3.  [extractMax] returns [null] exactly when the queue holds no
    entries.  On every queue that calls can build, a non-empty heap yields
    an entry whose priority is the maximum, and the entries left are the
    old ones minus that entry.  Inserting priorities 5, 1, 9, 3 and then
    extracting five times yields 9, 5, 3, 1 and then [null]. *)
Theorem extractMax_returns_maximum :
  (∀ heap, (extractMax heap).1 = None ↔ heap = [])
  ∧ (∀ cs, ∃ heap rs, run cs = Some (heap, rs)
       ∧ (heap = [] ∨
          ∃ max heap', extractMax heap = (Some max, heap')
            ∧ max ∈ heap
            ∧ (∀ t, t ∈ heap → (priority t <= priority max)%Z)
            ∧ heap ≡ₚ max :: heap'))
  ∧ (snd <$> run [Insert (ticket_of_priority 5); Insert (ticket_of_priority 1); Insert (ticket_of_priority 9); Insert (ticket_of_priority 3);
                  ExtractMax; ExtractMax; ExtractMax; ExtractMax; ExtractMax])
    = Some [Some (ticket_of_priority 9); Some (ticket_of_priority 5); Some (ticket_of_priority 3); Some (ticket_of_priority 1); None].
Proof.
  split_and!.
  - apply extractMax_empty.
  - intros cs.
    destruct (run_from_ok cs [] heap_ok_nil) as (heap & rs & Hrun & Hok).
    exists heap, rs. split; [done|].
    destruct (heap !! 0) as [max|] eqn:H0.
    + right. destruct (extractMax_ok heap max Hok H0) as (heap' & Hex & _ & Hperm).
      exists max, heap'. split_and!; [done| | |done].
      * by eapply list_elem_of_lookup_2.
      * by apply heap_ok_root.
    + left. by destruct heap.
  - by vm_compute.
Qed.

Lemma extractMax_nil_result heap :
  heap !! 0 = None → extractMax heap = (None, heap).
Proof. intros H0. unfold extractMax. by rewrite H0. Qed.

Lemma run_from_conserves cs : ∀ heap heap' rs,
  heap_ok heap → run_from heap cs = Some (heap', rs) →
  heap' ++ extracted rs ≡ₚ heap ++ inserted cs.
Proof.
  induction cs as [|[t|] cs IH]; intros heap heap' rs Hok Hrun;
    cbn [run_from] in Hrun.
  - simplify_eq. done.
  - destruct (insert_ok heap t Hok) as (heap1 & Hins & Hok1 & Hperm).
    rewrite Hins in Hrun. cbn [mbind option_bind] in Hrun.
    rewrite (IH _ _ _ Hok1 Hrun).
    change (inserted (Insert t :: cs)) with (t :: inserted cs).
    by rewrite Hperm, <-Permutation_middle.
  - destruct (heap !! 0) as [max|] eqn:H0.
    + destruct (extractMax_ok heap max Hok H0) as (heap1 & Hex & Hok1 & Hperm).
      rewrite Hex in Hrun.
      destruct (run_from heap1 cs) as [[h rs']|] eqn:Hrest; simplify_eq/=.
      change (extracted (Some max :: rs')) with (max :: extracted rs').
      change (inserted (ExtractMax :: cs)) with (inserted cs).
      rewrite <-Permutation_middle, (IH _ _ _ Hok1 Hrest).
      by rewrite Hperm.
    + rewrite (extractMax_nil_result heap H0) in Hrun.
      destruct (run_from heap cs) as [[h rs']|] eqn:Hrest; simplify_eq/=.
      change (extracted (None :: rs')) with (extracted rs').
      change (inserted (ExtractMax :: cs)) with (inserted cs).
      by rewrite (IH _ _ _ Hok Hrest).
Qed.

Lemma drain_sorted n : ∀ heap,
  heap_ok heap → length heap = n →
  ∃ out, run_from heap (replicate n ExtractMax) = Some ([], Some <$> out)
         ∧ out ≡ₚ heap ∧ StronglySorted by_priority_desc out.
Proof.
  induction n as [|n IH]; intros heap Hok Hlen.
  - destruct heap; [|done]. exists []. split_and!; [done|done|constructor].
  - destruct heap as [|x rest] eqn:Hheap; [done|]. rewrite <-Hheap in *.
    assert (heap !! 0 = Some x) as H0 by (by rewrite Hheap).
    destruct (extractMax_ok heap x Hok H0) as (heap1 & Hex & Hok1 & Hperm).
    destruct (IH heap1 Hok1) as (out & Hrun & Hout & Hsorted).
    { apply Permutation_length in Hperm. simpl in Hperm. lia. }
    exists (x :: out). split_and!.
    + cbn [replicate run_from]. rewrite Hex, Hrun. done.
    + by rewrite Hout, Hperm.
    + constructor; [done|]. apply Forall_forall. intros t Ht.
      apply (heap_ok_root heap x Hok H0). rewrite Hperm. right. by rewrite <-Hout.
Qed.

(** X1.  Whatever the calls, no ticket is lost or made up: the entries
    left in the heap together with those that [extractMax] returned are,
    up to order, the tickets that were inserted. *)
Theorem queue_conserves_tickets (cs : list call) :
  ∃ heap rs, run cs = Some (heap, rs)
    ∧ heap ++ extracted rs ≡ₚ inserted cs.
Proof.
  destruct (run_from_ok cs [] heap_ok_nil) as (heap & rs & Hrun & _).
  exists heap, rs. split; [done|].
  by apply (run_from_conserves cs [] heap rs heap_ok_nil).
Qed.

(** X2.  Whatever the calls that built it, emptying the queue with one
    [extractMax] per entry returns every entry once, in non-increasing
    order of priority, and leaves the heap empty. *)
Theorem queue_drains_in_priority_order (cs : list call) :
  ∃ heap rs out,
    run cs = Some (heap, rs)
    ∧ run_from heap (replicate (length heap) ExtractMax)
      = Some ([], Some <$> out)
    ∧ out ≡ₚ heap
    ∧ StronglySorted by_priority_desc out.
Proof.
  destruct (run_from_ok cs [] heap_ok_nil) as (heap & rs & Hrun & Hok).
  destruct (drain_sorted (length heap) heap Hok eq_refl)
    as (out & Hdrain & Hperm & Hsorted).
  by exists heap, rs, out.
Qed.

End PriorityQueueFacts.

(** ** Assignment strategies *)

Module AssignmentFacts.
Import Assignment.

Lemma roundRobin_from_empty_roster tickets : ∀ doctorIndex,
  roundRobin_from doctorIndex tickets [] = (λ t, Assigned t None) <$> tickets.
Proof.
  induction tickets as [|t ts IH]; intros doctorIndex; simpl; [done|].
  by rewrite IH.
Qed.

(** Claim C1.  With an empty roster, for every list of tickets,
    [roundRobinAssignment] returns the tickets with no doctor assigned
    ([assignedDoctor] is [undefined]), [leastLoadAssignment] returns [null]
    and [knnRecommendation] returns the empty list.  The three are total
    here: reading [doctors[NaN]] gives [undefined], the [forEach] body
    never runs, and nothing is dereferenced. *)
Theorem empty_roster_no_assignment (tickets : list ticket) (t : ticket)
    (currentLoads : gmap string Z) (symptoms : string) (k : option Z) :
  roundRobinAssignment tickets [] = (λ t, Assigned t None) <$> tickets
  ∧ leastLoadAssignment t [] currentLoads = None
  ∧ Knn.knnRecommendation symptoms [] k = [].
Proof.
  split_and!.
  - apply roundRobin_from_empty_roster.
  - done.
  - unfold Knn.knnRecommendation, JS.slice0. simpl.
    case_decide; by rewrite take_nil.
Qed.

Lemma roundRobin_from_lookup tickets : ∀ doctorIndex doctors i t,
  tickets !! i = Some t →
  roundRobin_from doctorIndex tickets doctors !! i
  = Some (Assigned t (JS.index_mod (doctorIndex + i) (length doctors)
                        ≫= (doctors !!.))).
Proof.
  induction tickets as [|t0 ts IH]; intros doctorIndex doctors i t Hi; [done|].
  destruct i as [|i]; simplify_eq/=.
  - by rewrite Nat.add_0_r.
  - rewrite (IH _ _ _ _ Hi). by rewrite Nat.add_succ_r.
Qed.

Lemma roundRobin_from_length tickets : ∀ doctorIndex doctors,
  length (roundRobin_from doctorIndex tickets doctors) = length tickets.
Proof.
  induction tickets as [|t ts IH]; intros; simpl; [done|]. by rewrite IH.
Qed.

(** X3.  With a non-empty roster [roundRobinAssignment] returns the tickets
    in their order, the ticket at position [i] with the doctor at roster
    position [i mod n]; every ticket gets a doctor. *)
Theorem roundRobin_cycles_through_roster tickets doctors :
  doctors ≠ [] →
  length (roundRobinAssignment tickets doctors) = length tickets
  ∧ ∀ i t, tickets !! i = Some t →
      ∃ d, doctors !! (i mod length doctors) = Some d
           ∧ roundRobinAssignment tickets doctors !! i = Some (Assigned t (Some d)).
Proof.
  intros Hne. split; [apply roundRobin_from_length|].
  intros i t Hi. unfold roundRobinAssignment.
  rewrite (roundRobin_from_lookup _ _ _ _ _ Hi). cbn [Nat.add].
  unfold JS.index_mod.
  assert (length doctors ≠ 0) by (by destruct doctors).
  rewrite decide_False by done. cbn [mbind option_bind].
  destruct (lookup_lt_is_Some_2 doctors (i mod length doctors)) as [d Hd].
  { by apply Nat.mod_upper_bound. }
  exists d. by rewrite Hd.
Qed.

Lemma leastLoad_step_inv currentLoads seen st x :
  least_inv currentLoads seen st →
  least_inv currentLoads (seen ++ [x]) (leastLoad_step currentLoads st x).
Proof.
  unfold leastLoad_step.
  destruct (load_of currentLoads x) as [load|] eqn:Hx.
  - intros [[Hnone ->]|(pre & d & post & n & -> & Hd & -> & Hpre & Hpost)];
      cbn [fst below].
    + right. exists seen, x, [], load.
      split_and!; [done|done|done| |constructor].
      eapply Forall_impl; [exact Hnone|]. intros e He m Hm. congruence.
    + case_bool_decide as Hlt; right.
      * exists (pre ++ d :: post), x, [], load.
        split_and!; [done|done|done| |constructor].
        rewrite Forall_app, Forall_cons. split_and!.
        -- eapply Forall_impl; [exact Hpre|]. intros e He m Hm.
           specialize (He m Hm). lia.
        -- intros m Hm. simplify_eq. lia.
        -- eapply Forall_impl; [exact Hpost|]. intros e He m Hm.
           specialize (He m Hm). lia.
      * exists pre, d, (post ++ [x]), n.
        split_and!; [by rewrite <-app_assoc|done|done|done|].
        rewrite Forall_app, Forall_singleton. split; [done|].
        intros m Hm. simplify_eq. lia.
  - intros [[Hnone ->]|(pre & d & post & n & -> & Hd & -> & Hpre & Hpost)].
    + left. split; [|done]. rewrite Forall_app, Forall_singleton. done.
    + right. exists pre, d, (post ++ [x]), n.
      split_and!; [by rewrite <-app_assoc|done|done|done|].
      rewrite Forall_app, Forall_singleton. split; [done|].
      intros m Hm. congruence.
Qed.

Lemma leastLoad_fold_inv currentLoads doctors : ∀ seen st,
  least_inv currentLoads seen st →
  least_inv currentLoads (seen ++ doctors)
            (foldl (leastLoad_step currentLoads) st doctors).
Proof.
  induction doctors as [|x doctors IH]; intros seen st Hinv; cbn [foldl].
  - by rewrite app_nil_r.
  - replace (seen ++ x :: doctors) with ((seen ++ [x]) ++ doctors)
      by (by rewrite <-app_assoc).
    apply IH. by apply leastLoad_step_inv.
Qed.

Lemma roundRobin_cycles_through_roster_witness :
  [Doctor "a" None; Doctor "b" None] ≠ []
  ∧ length (roundRobinAssignment
              [PriorityQueue.ticket_of_priority 1; PriorityQueue.ticket_of_priority 2; PriorityQueue.ticket_of_priority 3]
              [Doctor "a" None; Doctor "b" None])
    = length [PriorityQueue.ticket_of_priority 1; PriorityQueue.ticket_of_priority 2; PriorityQueue.ticket_of_priority 3]
  ∧ ∀ i t,
      [PriorityQueue.ticket_of_priority 1; PriorityQueue.ticket_of_priority 2; PriorityQueue.ticket_of_priority 3] !! i
        = Some t →
      ∃ d, [Doctor "a" None; Doctor "b" None]
             !! (i mod length [Doctor "a" None; Doctor "b" None]) = Some d
           ∧ roundRobinAssignment
               [PriorityQueue.ticket_of_priority 1; PriorityQueue.ticket_of_priority 2; PriorityQueue.ticket_of_priority 3]
               [Doctor "a" None; Doctor "b" None] !! i
             = Some (Assigned t (Some d)).
Proof.
  assert ([Doctor "a" None; Doctor "b" None] ≠ []) as Hne by discriminate.
  split; [exact Hne|].
  exact (roundRobin_cycles_through_roster
           [PriorityQueue.ticket_of_priority 1; PriorityQueue.ticket_of_priority 2; PriorityQueue.ticket_of_priority 3]
           [Doctor "a" None; Doctor "b" None] Hne).
Defined.

(** A doctor whose id names a property of [Object.prototype] is passed
    over, unless the load map has an entry of its own for that id. *)
Example leastLoad_samples :
  leastLoadAssignment (PriorityQueue.ticket_of_priority 1)
    [Doctor "a" None; Doctor "b" None; Doctor "c" None]
    (<["a" := 2%Z]> (<["b" := 1%Z]> (<["c" := 1%Z]> ∅)))
  = Some (Doctor "b" None)
  ∧ leastLoadAssignment (PriorityQueue.ticket_of_priority 1)
      [Doctor "constructor" None] ∅
    = None
  ∧ leastLoadAssignment (PriorityQueue.ticket_of_priority 1)
      [Doctor "constructor" None; Doctor "a" None] (<["a" := 4%Z]> ∅)
    = Some (Doctor "a" None)
  ∧ leastLoadAssignment (PriorityQueue.ticket_of_priority 1)
      [Doctor "a" None; Doctor "constructor" None]
      (<["a" := 4%Z]> (<["constructor" := 3%Z]> ∅))
    = Some (Doctor "constructor" None).
Proof. by vm_compute. Qed.

(** X4.  [leastLoadAssignment] returns the first doctor of least load
    among the doctors whose load reads as a number: every such doctor
    before it in the roster has a strictly greater load, and no such
    doctor after it has a smaller one.  It returns [null] exactly when no
    doctor's load reads as a number, as with an empty roster.  A doctor
    absent from the load map counts as load 0, unless its id names a
    property inherited from [Object.prototype]: such a doctor is never
    selected. *)
Theorem leastLoad_selects_first_minimum t doctors currentLoads :
  (leastLoadAssignment t doctors currentLoads = None
   ∧ Forall (λ e, load_of currentLoads e = None) doctors)
  ∨ ∃ pre d post n,
      doctors = pre ++ d :: post
      ∧ leastLoadAssignment t doctors currentLoads = Some d
      ∧ load_of currentLoads d = Some n
      ∧ Forall (λ e, ∀ m, load_of currentLoads e = Some m → (n < m)%Z) pre
      ∧ Forall (λ e, ∀ m, load_of currentLoads e = Some m → (n <= m)%Z) post.
Proof.
  unfold leastLoadAssignment.
  destruct (leastLoad_fold_inv currentLoads doctors [] (None, None))
    as [[Hnone ->]|(pre & d & post & n & Heq & Hd & -> & Hpre & Hpost)].
  - left. by split.
  - by left.
  - right. by exists pre, d, post, n.
Qed.
End AssignmentFacts.

(** ** Specialty similarity *)

Module KnnFacts.
Import Knn.

Lemma div_len_cases a b :
  a ≤ b →
  (a = 0 ∧ b = 0 ∧ div_len a b = NaN)
  ∨ (0 < b ∧ ∃ q, div_len a b = Fin q ∧ (0 <= q)%Q ∧ (q <= 1)%Q
                  ∧ (positive (Fin q) = true ↔ 0 < a)).
Proof.
  intros Hab. unfold div_len. case_decide as Hb.
  - left. rewrite decide_True by lia. split_and!; [lia|done|done].
  - right. split; [lia|]. eexists. split; [done|].
    assert (Z.pos (Pos.of_nat b) = Z.of_nat b) as Hden.
    { by rewrite <-positive_nat_Z, Nat2Pos.id. }
    unfold positive, Qcompare, Qle. simpl. rewrite Hden.
    split_and!; [lia|lia|].
    rewrite Z.mul_1_r. destruct a; simpl; split; try done; lia.
Qed.

Lemma filter_elem_of_nil (l : list string) :
  filter (λ s : string, s ∈ @nil string) l = [].
Proof.
  induction l as [|x l IH]; [done|].
  rewrite filter_cons_False; [done|]. apply not_elem_of_nil.
Qed.

Lemma elem_of_slice0 {A} (x : A) l k : x ∈ JS.slice0 l k → x ∈ l.
Proof.
  unfold JS.slice0. case_decide;
    intros (i & Hi & _)%elem_of_take; by eapply list_elem_of_lookup_2.
Qed.

Lemma score_cases symp d :
  (symp = [] ∧ specialty_tokens d = [] ∧ similarity (score symp d) = NaN)
  ∨ (¬ (symp = [] ∧ specialty_tokens d = [])
     ∧ ∃ q, similarity (score symp d) = Fin q ∧ (0 <= q)%Q ∧ (q <= 1)%Q
            ∧ (positive (Fin q) = true →
               symp ≠ [] ∧ specialty_tokens d ≠ [])).
Proof.
  unfold score, specialty_tokens. cbn [similarity].
  set (specs := tokens (default EmptyString (specialties d))).
  pose proof (length_filter (λ s : string, s ∈ specs) symp) as Hle.
  destruct (div_len_cases (length (filter (λ s : string, s ∈ specs) symp))
              (Nat.max (length symp) (length specs)))
    as [(_ & Hmax & ->)|(Hmax & q & -> & H0 & H1 & Hpos)]; [lia| |].
  - left. split_and!; [|  |done].
    + apply length_zero_iff_nil. lia.
    + apply length_zero_iff_nil. lia.
  - right. split.
    + intros [-> Hs]. rewrite Hs in Hmax. simpl in Hmax. lia.
    + exists q. split_and!; [done|done|done|].
      intros Hq%Hpos. split.
      * intros ->. simpl in Hq. lia.
      * intros Hs. rewrite Hs in Hq.
        rewrite filter_elem_of_nil in Hq. simpl in Hq; lia.
Qed.

(** Tokens are the maximal runs of characters other than white space and
    commas, in lower case. *)
Example tokens_of_a_list :
  tokens " Heart, Lungs  ,,skin" = ["heart"; "lungs"; "skin"].
Proof. by vm_compute. Qed.

(** Two of three doctors share terms with the symptoms; the one sharing
    more comes first and the one sharing none is left out. *)
Example knn_ranks_by_overlap :
  (λ r, (did (sdoctor r), similarity r)) <$>
    knnRecommendation "heart pain"
      [Doctor "a" (Some "Heart surgery"); Doctor "b" None;
       Doctor "c" (Some "pain, heart")] None
  = [("c", Fin (2 # 2)); ("a", Fin (1 # 2))].
Proof. by vm_compute. Qed.

Lemma knn_result_scored symptoms doctors k r :
  r ∈ knnRecommendation symptoms doctors k →
  positive (similarity r) = true
  ∧ ∃ d, d ∈ doctors ∧ r = score (tokens symptoms) d.
Proof.
  unfold knnRecommendation. intros [Hpos Hin]%list_elem_of_filter.
  split; [done|].
  assert (r ∈ JS.sort_by by_similarity (map (score (tokens symptoms)) doctors))
    as Hsorted.
  { by eapply elem_of_slice0. }
  apply sort_by_elem in Hsorted.
  apply list_elem_of_fmap in Hsorted as (d & -> & Hd). eauto.
Qed.

(** Claim C6, amended.  The division is not guarded: the similarity is
    [NaN] exactly when both token lists are empty, and otherwise a rational
    between 0 and 1.  The final filter [similarity > 0] drops [NaN], so
    every entry that [knnRecommendation] returns carries a well-defined
    similarity in (0, 1], and a doctor whose specialty text tokenizes to
    the empty list is never returned. *)
Theorem knn_similarity_values :
  (∀ symp d, similarity (score symp d) = NaN
             ↔ symp = [] ∧ specialty_tokens d = [])
  ∧ (∀ symp d, ¬ (symp = [] ∧ specialty_tokens d = []) →
       ∃ q, similarity (score symp d) = Fin q ∧ (0 <= q)%Q ∧ (q <= 1)%Q)
  ∧ (∀ symptoms doctors k r, r ∈ knnRecommendation symptoms doctors k →
       (∃ q, similarity r = Fin q ∧ (0 < q)%Q ∧ (q <= 1)%Q)
       ∧ specialty_tokens (sdoctor r) ≠ []
       ∧ tokens symptoms ≠ []).
Proof.
  split_and!.
  - intros symp d.
    destruct (score_cases symp d) as [(? & ? & ?)|(Hne & q & Hq & _)].
    + done.
    + rewrite Hq. split; [done|]. intros. by destruct Hne.
  - intros symp d Hne.
    destruct (score_cases symp d) as [(? & ? & ?)|(_ & q & Hq & ? & ? & _)].
    + by destruct Hne.
    + by exists q.
  - intros symptoms doctors k r (Hpos & d & _ & ->)%knn_result_scored.
    destruct (score_cases (tokens symptoms) d)
      as [(_ & _ & Hnan)|(_ & q & Hq & H0 & H1 & Hne)].
    + by rewrite Hnan in Hpos.
    + rewrite Hq in Hpos |- *. destruct (Hne Hpos) as [??].
      split_and!; [|done|done].
      exists q. split_and!; [done| |done].
      unfold positive in Hpos. apply Qlt_alt.
      by destruct (0 ?= q)%Q.
Qed.

(** Claim C6 as stated fails: for a symptom text and a specialty text
    without tokens the division is 0/0 and the similarity produced is
    [NaN]. *)
Lemma knn_similarity_unguarded :
  similarity (score (tokens EmptyString) (Doctor "d1" (Some " , "))) = NaN
  ∧ ¬ well_defined
        (similarity (score (tokens EmptyString) (Doctor "d1" (Some " , ")))).
Proof. split; [by vm_compute|]. vm_compute. tauto. Qed.


Lemma slice0_sublist {A} (l : list A) k : JS.slice0 l k `sublist_of` l.
Proof. unfold JS.slice0. case_decide; apply sublist_take. Qed.

Lemma slice0_length {A} (l : list A) k :
  (0 <= k)%Z → length (JS.slice0 l k) ≤ Z.to_nat k.
Proof.
  intros Hk. unfold JS.slice0. rewrite decide_True by done.
  rewrite length_take. lia.
Qed.

Lemma by_similarity_false a b :
  finite a → finite b → by_similarity a b = false → sim_ge a b.
Proof.
  unfold finite, by_similarity, sim_ge, positive, sub.
  destruct (similarity a) as [| | |qa], (similarity b) as [| | |qb]; try done.
  intros _ _. destruct (0 ?= qb - qa)%Q eqn:Hc; try done.
  - apply Qeq_alt in Hc. lra.
  - apply Qgt_alt in Hc. lra.
Qed.

Lemma by_similarity_true a b :
  finite a → finite b → by_similarity a b = true → sim_ge b a.
Proof.
  unfold finite, by_similarity, sim_ge, positive, sub.
  destruct (similarity a) as [| | |qa], (similarity b) as [| | |qb]; try done.
  intros _ _. destruct (0 ?= qb - qa)%Q eqn:Hc; try done.
  apply Qlt_alt in Hc. lra.
Qed.

Lemma sim_ge_trans a b c : sim_ge a b → sim_ge b c → sim_ge a c.
Proof.
  unfold sim_ge.
  destruct (similarity a), (similarity b), (similarity c); try done.
  intros. lra.
Qed.

Lemma knn_empty_symptoms symptoms doctors k :
  tokens symptoms = [] → knnRecommendation symptoms doctors k = [].
Proof.
  intros Hs.
  destruct (knnRecommendation symptoms doctors k) as [|r l] eqn:Hres; [done|].
  assert (r ∈ knnRecommendation symptoms doctors k) as Hr by (rewrite Hres; left).
  apply knn_result_scored in Hr as (Hpos & d & _ & ->).
  destruct (score_cases (tokens symptoms) d)
    as [(_ & _ & Hnan)|(_ & q & Hq & _ & _ & Hne)].
  - by rewrite Hnan in Hpos.
  - rewrite Hq in Hpos. by destruct (Hne Hpos).
Qed.

Lemma scores_finite symp doctors :
  symp ≠ [] → Forall finite (map (score symp) doctors).
Proof.
  intros Hne. apply Forall_forall. intros r (d & -> & _)%list_elem_of_fmap.
  destruct (score_cases symp d) as [(? & _)|(_ & q & Hq & _)]; [done|].
  unfold finite. by rewrite Hq.
Qed.

Lemma ranking_sorted symp doctors :
  symp ≠ [] →
  StronglySorted sim_ge (JS.sort_by by_similarity (map (score symp) doctors)).
Proof.
  intros Hne. apply (sort_by_sorted_on by_similarity finite sim_ge).
  - intros a b c _ _ _. apply sim_ge_trans.
  - apply by_similarity_false.
  - apply by_similarity_true.
  - by apply scores_finite.
Qed.

(** X5.  For [k >= 0], [knnRecommendation] returns at most [k] entries, by
    non-increasing similarity. *)
Theorem knn_at_most_k_best_first symptoms doctors (k : Z) :
  (0 <= k)%Z →
  length (knnRecommendation symptoms doctors (Some k)) ≤ Z.to_nat k
  ∧ StronglySorted sim_ge (knnRecommendation symptoms doctors (Some k)).
Proof.
  intros Hk. destruct (decide (tokens symptoms = [])) as [Hs|Hs].
  { rewrite knn_empty_symptoms by done. split; [simpl; lia|constructor]. }
  unfold knnRecommendation. cbn [default from_option id]. split.
  - etrans; [apply length_filter|]. by apply slice0_length.
  - eapply StronglySorted_sublist; [|by apply ranking_sorted].
    etrans; [apply sublist_filter|apply slice0_sublist].
Qed.

Lemma knn_at_most_k_best_first_witness :
  (0 <= 2)%Z
  ∧ length (knnRecommendation "heart pain"
              [Doctor "a" (Some "Heart surgery"); Doctor "b" None;
               Doctor "c" (Some "pain, heart")] (Some 2%Z)) ≤ Z.to_nat 2
  ∧ StronglySorted sim_ge
      (knnRecommendation "heart pain"
         [Doctor "a" (Some "Heart surgery"); Doctor "b" None;
          Doctor "c" (Some "pain, heart")] (Some 2%Z)).
Proof.
  assert (0 <= 2)%Z as Hk by lia.
  split; [exact Hk|].
  exact (knn_at_most_k_best_first "heart pain"
           [Doctor "a" (Some "Heart surgery"); Doctor "b" None;
            Doctor "c" (Some "pain, heart")] 2 Hk).
Defined.

(** X6.  No doctor left out beats a doctor returned: for every entry
    returned and every doctor of the roster, that doctor's entry is returned
    too or its similarity is at most the returned entry's. *)
Theorem knn_returns_the_best symptoms doctors (k : option Z) r d :
  r ∈ knnRecommendation symptoms doctors k →
  d ∈ doctors →
  score (tokens symptoms) d ∈ knnRecommendation symptoms doctors k
  ∨ sim_ge r (score (tokens symptoms) d).
Proof.
  intros Hr Hd.
  destruct (decide (tokens symptoms = [])) as [Hs|Hs].
  { rewrite knn_empty_symptoms in Hr by done. by apply elem_of_nil in Hr. }
  pose proof (ranking_sorted (tokens symptoms) doctors Hs) as Hsorted.
  unfold knnRecommendation in *.
  set (ranked := JS.sort_by by_similarity (map (score (tokens symptoms)) doctors)) in *.
  set (n := if decide (0 <= default 3%Z k)%Z then Z.to_nat (default 3%Z k)
            else Z.to_nat (Z.max (Z.of_nat (length ranked) + default 3%Z k) 0)).
  assert (JS.slice0 ranked (default 3%Z k) = take n ranked) as Hslice.
  { unfold JS.slice0, n. by case_decide. }
  rewrite Hslice in *.
  apply list_elem_of_filter in Hr as [Hpos Hr].
  assert (score (tokens symptoms) d ∈ ranked) as Hin.
  { apply sort_by_elem. apply list_elem_of_fmap. eauto. }
  rewrite <-(take_drop n ranked) in Hin, Hsorted.
  apply elem_of_app in Hin as [Hin|Hin].
  - destruct (positive (similarity (score (tokens symptoms) d))) eqn:Hp.
    + left. apply list_elem_of_filter. by split.
    + right.
      pose proof (scores_finite (tokens symptoms) doctors Hs) as Hfin.
      rewrite Forall_forall in Hfin.
      assert (finite (score (tokens symptoms) d)) as Hfd.
      { apply Hfin. apply list_elem_of_fmap. eauto. }
      assert (finite r) as Hfr.
      { apply Hfin. apply (sort_by_elem by_similarity).
        eapply elem_of_sublist; [exact Hr|apply sublist_take]. }
      unfold sim_ge, finite, positive in *.
      destruct (similarity r) as [| | |qr]; try done.
      destruct (similarity (score (tokens symptoms) d)) as [| | |qd]; try done.
      destruct (0 ?= qr)%Q eqn:Hc1; try done. apply Qlt_alt in Hc1.
      destruct (0 ?= qd)%Q eqn:Hc2; try done.
      * apply Qeq_alt in Hc2. lra.
      * apply Qgt_alt in Hc2. lra.
  - right. by eapply StronglySorted_app_1_elem_of.
Qed.

Lemma knn_returns_the_best_witness :
  Scored (Doctor "a" (Some "Heart surgery")) (Fin (1 # 2))
    ∈ knnRecommendation "heart pain"
        [Doctor "a" (Some "Heart surgery"); Doctor "b" None] None
  ∧ Doctor "b" None ∈ [Doctor "a" (Some "Heart surgery"); Doctor "b" None]
  ∧ (score (tokens "heart pain") (Doctor "b" None)
       ∈ knnRecommendation "heart pain"
           [Doctor "a" (Some "Heart surgery"); Doctor "b" None] None
     ∨ sim_ge (Scored (Doctor "a" (Some "Heart surgery")) (Fin (1 # 2)))
              (score (tokens "heart pain") (Doctor "b" None))).
Proof.
  assert (Scored (Doctor "a" (Some "Heart surgery")) (Fin (1 # 2))
            ∈ knnRecommendation "heart pain"
                [Doctor "a" (Some "Heart surgery"); Doctor "b" None] None) as Hr
    by (vm_compute; left).
  assert (Doctor "b" None ∈ [Doctor "a" (Some "Heart surgery"); Doctor "b" None])
    as Hd by (right; left).
  split; [exact Hr|]. split; [exact Hd|].
  exact (knn_returns_the_best "heart pain"
           [Doctor "a" (Some "Heart surgery"); Doctor "b" None] None _ _ Hr Hd).
Defined.
End KnnFacts.

(** ** Availability *)

Module AvailabilityFacts.
Import Availability.

#[local] Instance starts_le_trans : Transitive starts_le.
Proof. unfold starts_le. intros a b c. lia. Qed.

Lemma sweep_foldl l : ∀ cur available,
  foldl sweep_step (cur, available) l
  = (cursor_after cur l, available ++ gaps_from cur l).
Proof.
  induction l as [|s l IH]; intros cur available; simpl.
  - by rewrite app_nil_r.
  - rewrite IH. case_decide; by rewrite ?app_nil_r, <-?app_assoc.
Qed.

Lemma cursor_after_ge l : ∀ cur,
  (cur <= cursor_after cur l)%Z
  ∧ ∀ b, b ∈ l → (end_ b <= cursor_after cur l)%Z.
Proof.
  induction l as [|s l IH]; intros cur; simpl.
  - split; [lia|]. intros b Hb. by apply elem_of_nil in Hb.
  - destruct (IH (Z.max cur (end_ s))) as [Hge Hall]. split; [lia|].
    intros b [->|Hb]%elem_of_cons; [lia|by apply Hall].
Qed.

Lemma gaps_from_spec l : ∀ cur g,
  StronglySorted starts_le l → g ∈ gaps_from cur l →
  (cur <= start g)%Z ∧ (start g < end_ g)%Z
  ∧ (∃ s, s ∈ l ∧ end_ g = start s)
  ∧ ∀ b, b ∈ l → (end_ g <= start b)%Z ∨ (end_ b <= start g)%Z.
Proof.
  induction l as [|s l IH]; intros cur g Hsorted Hg; simpl in Hg.
  - by apply elem_of_nil in Hg.
  - apply StronglySorted_inv in Hsorted as [Hl Hs].
    apply elem_of_app in Hg as [Hg|Hg].
    + case_decide; [|by apply elem_of_nil in Hg].
      apply list_elem_of_singleton in Hg as ->. simpl.
      split_and!; [lia|done| |].
      * exists s. split; [by left|done].
      * intros b [->|Hb]%elem_of_cons; [left; lia|].
        left. rewrite Forall_forall in Hs. apply (Hs b Hb).
    + destruct (IH _ _ Hl Hg) as (Hcur & Hne & (s' & Hs' & Hend) & Hdis).
      split_and!; [lia|done| |].
      * exists s'. split; [by right|done].
      * intros b [->|Hb]%elem_of_cons; [right; lia|by apply Hdis].
Qed.

Lemma sorted_by_start l : StronglySorted starts_le (JS.sort_by by_start l).
Proof.
  apply sort_by_sorted; [apply _| |]; unfold by_start, starts_le; intros a b H.
  - apply bool_decide_eq_false in H. lia.
  - apply bool_decide_eq_true in H. lia.
Qed.

Lemma findAvailableSlots_unfold bookedSlots startTime endTime slotDuration :
  findAvailableSlots bookedSlots startTime endTime slotDuration
  = let sortedSlots := JS.sort_by by_start bookedSlots in
    gaps_from startTime sortedSlots
    ++ (if decide (cursor_after startTime sortedSlots < endTime)%Z
        then [Slot (cursor_after startTime sortedSlots) endTime] else []).
Proof.
  unfold findAvailableSlots. rewrite sweep_foldl. simpl.
  case_decide; by rewrite ?app_nil_r.
Qed.

Lemma gap_cases bookedSlots startTime endTime slotDuration g :
  g ∈ findAvailableSlots bookedSlots startTime endTime slotDuration →
  (startTime <= start g)%Z ∧ (start g < end_ g)%Z
  ∧ (end_ g = endTime ∨ ∃ s, s ∈ bookedSlots ∧ end_ g = start s)
  ∧ ∀ b, b ∈ bookedSlots → (end_ g <= start b)%Z ∨ (end_ b <= start g)%Z.
Proof.
  rewrite findAvailableSlots_unfold. cbn zeta.
  set (sorted := JS.sort_by by_start bookedSlots).
  intros [Hg|Hg]%elem_of_app.
  - destruct (gaps_from_spec sorted startTime g (sorted_by_start _) Hg)
      as (Hcur & Hne & (s & Hs & Hend) & Hdis).
    split_and!; [done|done| |].
    + right. exists s. split; [by apply (sort_by_elem by_start)|done].
    + intros b Hb. apply Hdis. by apply (sort_by_elem by_start).
  - case_decide; [|by apply elem_of_nil in Hg].
    apply list_elem_of_singleton in Hg as ->. simpl.
    destruct (cursor_after_ge sorted startTime) as [Hge Hall].
    split_and!; [done|done|by left|].
    intros b Hb. right. apply Hall. by apply (sort_by_elem by_start).
Qed.

(** Bookings 10:00-10:30 and 11:00-11:30 in the window 09:00-12:00, in
    minutes of the day. *)
Example gaps_of_a_morning :
  findAvailableSlots [Slot 660 690; Slot 600 630] 540 720 None
  = [Slot 540 600; Slot 630 660; Slot 690 720].
Proof. by vm_compute. Qed.

(** Whatever the booked intervals, no gap starts before the window, no gap
    is empty, and no gap meets a booked interval. *)
Lemma gaps_after_start_and_free bookedSlots startTime endTime slotDuration g :
  g ∈ findAvailableSlots bookedSlots startTime endTime slotDuration →
  (startTime <= start g)%Z ∧ (start g < end_ g)%Z
  ∧ ∀ b, b ∈ bookedSlots → disjoint g b.
Proof.
  intros (Hlo & Hne & _ & Hdis)%gap_cases. split_and!; [done|done|].
  intros b Hb t. destruct (Hdis b Hb); lia.
Qed.

(** Claim C4, amended.  When every booked interval starts at or before the
    window end, [findAvailableSlots] returns only gaps contained within
    the window [[startTime, endTime)] and disjoint from every booked
    interval, and for a zero-length or inverted window the gap set is
    empty. *)
Theorem findAvailableSlots_gaps bookedSlots startTime endTime slotDuration :
  (∀ b, b ∈ bookedSlots → (start b <= endTime)%Z) →
  (∀ g, g ∈ findAvailableSlots bookedSlots startTime endTime slotDuration →
     within g startTime endTime ∧ ∀ b, b ∈ bookedSlots → disjoint g b)
  ∧ ((endTime <= startTime)%Z →
     findAvailableSlots bookedSlots startTime endTime slotDuration = []).
Proof.
  intros Hbooked.
  assert (∀ g, g ∈ findAvailableSlots bookedSlots startTime endTime slotDuration →
            within g startTime endTime) as Hin.
  { intros g (Hlo & Hne & Hend & _)%gap_cases. split; [done|].
    destruct Hend as [->|(s & Hs & ->)]; [lia|by apply Hbooked]. }
  split.
  - intros g Hg. split; [by apply Hin|].
    by apply gaps_after_start_and_free in Hg as (_ & _ & ?).
  - intros Hinv.
    destruct (findAvailableSlots _ _ _ _) as [|g l] eqn:Hres; [done|].
    assert (g ∈ g :: l) as Hg by left.
    pose proof (Hin g Hg) as [??].
    rewrite <-Hres in Hg. apply gap_cases in Hg as (_ & ? & _). lia.
Qed.

Lemma findAvailableSlots_gaps_witness :
  (∀ b, b ∈ [Slot 660 690; Slot 600 630] → (start b <= 720)%Z)
  ∧ (∀ g, g ∈ findAvailableSlots [Slot 660 690; Slot 600 630] 540 720 None →
       within g 540 720
       ∧ ∀ b, b ∈ [Slot 660 690; Slot 600 630] → disjoint g b)
  ∧ ((720 <= 540)%Z →
     findAvailableSlots [Slot 660 690; Slot 600 630] 540 720 None = []).
Proof.
  assert (∀ b, b ∈ [Slot 660 690; Slot 600 630] → (start b <= 720)%Z) as Hb.
  { intros b Hb. apply list_elem_of_In in Hb. simpl in Hb.
    destruct Hb as [<-|[<-|[]]]; simpl; lia. }
  split; [exact Hb|].
  exact (findAvailableSlots_gaps [Slot 660 690; Slot 600 630] 540 720 None Hb).
Defined.

(** Claim C4 as stated fails: a booked interval that starts after the
    window end yields a gap that runs past the window, also when the window
    is inverted. *)
Lemma findAvailableSlots_gap_past_window :
  (Slot 540 780 ∈ findAvailableSlots [Slot 780 840] 540 720 None
   ∧ ¬ within (Slot 540 780) 540 720)
  ∧ findAvailableSlots [Slot 780 840] 720 540 None ≠ [].
Proof.
  split_and!.
  - vm_compute. left.
  - unfold within. simpl. lia.
  - by vm_compute.
Qed.


Lemma gaps_from_cover l : ∀ cur t,
  (cur <= t < cursor_after cur l)%Z →
  (∃ g, g ∈ gaps_from cur l ∧ covers g t) ∨ (∃ b, b ∈ l ∧ covers b t).
Proof.
  induction l as [|s l IH]; intros cur t Ht; cbn [gaps_from cursor_after] in *.
  - lia.
  - destruct (decide (t < Z.max cur (end_ s))%Z) as [Hlt|Hge].
    + destruct (decide (t < start s)%Z) as [Hgap|Hbooked].
      * left. exists (Slot cur (start s)). split.
        -- rewrite decide_True by lia. apply elem_of_app. left. left.
        -- unfold covers. simpl. lia.
      * right. exists s. split; [left|]. unfold covers. lia.
    + destruct (IH (Z.max cur (end_ s)) t) as [(g & Hg & Hc)|(b & Hb & Hc)]; [lia| |].
      * left. exists g. split; [|done]. apply elem_of_app. by right.
      * right. exists b. split; [by right|done].
Qed.

(** X7.  Every instant of the window that no booked interval covers lies in
    one of the gaps returned: no free time is left out. *)
Theorem findAvailableSlots_covers_free_time bookedSlots startTime endTime
    slotDuration t :
  (startTime <= t < endTime)%Z →
  (∀ b, b ∈ bookedSlots → ¬ covers b t) →
  ∃ g, g ∈ findAvailableSlots bookedSlots startTime endTime slotDuration
       ∧ covers g t.
Proof.
  intros Ht Hfree. rewrite findAvailableSlots_unfold. cbn zeta.
  set (sorted := JS.sort_by by_start bookedSlots).
  destruct (decide (t < cursor_after startTime sorted)%Z) as [Hlt|Hge].
  - destruct (gaps_from_cover sorted startTime t) as [(g & Hg & Hc)|(b & Hb & Hc)];
      [lia| |].
    + exists g. split; [|done]. apply elem_of_app. by left.
    + apply (proj1 (sort_by_elem by_start b bookedSlots)) in Hb.
      by destruct (Hfree b Hb).
  - exists (Slot (cursor_after startTime sorted) endTime). split.
    + apply elem_of_app. right. rewrite decide_True by lia. left.
    + unfold covers. simpl. lia.
Qed.

Lemma findAvailableSlots_covers_free_time_witness :
  (540 <= 640 < 720)%Z
  ∧ (∀ b, b ∈ [Slot 660 690; Slot 600 630] → ¬ covers b 640)
  ∧ ∃ g, g ∈ findAvailableSlots [Slot 660 690; Slot 600 630] 540 720 None
         ∧ covers g 640.
Proof.
  assert (540 <= 640 < 720)%Z as Ht by lia.
  assert (∀ b, b ∈ [Slot 660 690; Slot 600 630] → ¬ covers b 640) as Hfree.
  { intros b Hb. apply list_elem_of_In in Hb. simpl in Hb. unfold covers.
    destruct Hb as [<-|[<-|[]]]; simpl; lia. }
  split; [exact Ht|]. split; [exact Hfree|].
  exact (findAvailableSlots_covers_free_time
           [Slot 660 690; Slot 600 630] 540 720 None 640 Ht Hfree).
Defined.

Lemma gaps_from_ordered l : ∀ cur,
  Forall (λ b, (start b <= end_ b)%Z) l →
  StronglySorted starts_le l →
  StronglySorted before (gaps_from cur l).
Proof.
  induction l as [|s l IH]; intros cur Hwf Hsorted; cbn [gaps_from].
  - constructor.
  - apply Forall_cons in Hwf as [Hs Hwf].
    pose proof Hsorted as Hsorted'.
    apply StronglySorted_inv in Hsorted as [Hl _].
    specialize (IH (Z.max cur (end_ s)) Hwf Hl).
    case_decide; [|done]. cbn [app]. constructor; [done|].
    apply Forall_forall. intros g Hg.
    destruct (gaps_from_spec l _ g Hl Hg) as (Hcur & _). unfold before. simpl. lia.
Qed.

(** X8.  When every booked interval ends no earlier than it starts, the
    gaps come in time order and do not overlap: each gap ends at or before
    the start of every later one. *)
Theorem findAvailableSlots_gaps_in_order bookedSlots startTime endTime
    slotDuration :
  (∀ b, b ∈ bookedSlots → (start b <= end_ b)%Z) →
  StronglySorted before
    (findAvailableSlots bookedSlots startTime endTime slotDuration).
Proof.
  intros Hwf. rewrite findAvailableSlots_unfold. cbn zeta.
  set (sorted := JS.sort_by by_start bookedSlots).
  assert (Forall (λ b, (start b <= end_ b)%Z) sorted) as Hwf'.
  { apply Forall_forall. intros b Hb. apply Hwf.
    by apply (sort_by_elem by_start). }
  apply StronglySorted_app_2.
  - intros g h Hg Hh. case_decide; [|by apply elem_of_nil in Hh].
    apply list_elem_of_singleton in Hh as ->.
    destruct (gaps_from_spec sorted startTime g (sorted_by_start _) Hg)
      as (_ & _ & (s & Hs & Hend) & _).
    destruct (cursor_after_ge sorted startTime) as [_ Hall].
    rewrite Forall_forall in Hwf'. pose proof (Hwf' s Hs). pose proof (Hall s Hs).
    unfold before. cbn [start end_]. lia.
  - apply gaps_from_ordered; [done|apply sorted_by_start].
  - case_decide; repeat constructor.
Qed.

Lemma findAvailableSlots_gaps_in_order_witness :
  (∀ b, b ∈ [Slot 660 690; Slot 600 630] → (start b <= end_ b)%Z)
  ∧ StronglySorted before
      (findAvailableSlots [Slot 660 690; Slot 600 630] 540 720 None).
Proof.
  assert (∀ b, b ∈ [Slot 660 690; Slot 600 630] → (start b <= end_ b)%Z) as Hwf.
  { intros b Hb. apply list_elem_of_In in Hb. simpl in Hb.
    destruct Hb as [<-|[<-|[]]]; simpl; lia. }
  split; [exact Hwf|].
  exact (findAvailableSlots_gaps_in_order
           [Slot 660 690; Slot 600 630] 540 720 None Hwf).
Defined.
End AvailabilityFacts.

(** ** Retry helper *)

Module RetryFacts.
Import Retry.

Section Facts.
Context {W E V : Type}.
Implicit Types (operation : W → (E + V) * W).

(** The loop counter reaches [maxRetries] within [maxRetries - i] turns,
    so any fuel beyond that gives one and the same result. *)
Lemma backoff_loop_fuel fuel1 : ∀ fuel2 operation maxRetries i w,
  (maxRetries - i <= Z.of_nat fuel1)%Z →
  (maxRetries - i <= Z.of_nat fuel2)%Z →
  backoff_loop fuel1 operation maxRetries i w
  = backoff_loop fuel2 operation maxRetries i w.
Proof.
  induction fuel1 as [|fuel1 IH]; intros [|fuel2] operation maxRetries i w H1 H2;
    cbn [backoff_loop]; try done.
  - by rewrite decide_False by lia.
  - by rewrite decide_False by lia.
  - case_decide; [|done].
    destruct (operation w) as [[error|v] w']; [|done].
    case_decide; [done|]. by rewrite (IH fuel2) by lia.
Qed.

Lemma backoff_loop_exhausted fuel operation maxRetries i w :
  (maxRetries <= i)%Z →
  backoff_loop fuel operation maxRetries i w = (Returned None, [], w).
Proof.
  intros Hle. destruct fuel; cbn [backoff_loop]; [done|].
  by rewrite decide_False by lia.
Qed.
End Facts.

(** Claim C10.  For [maxRetries <= 0], [exponentialBackoff] never invokes
    the wrapped operation, returns [undefined] and raises nothing; the loop
    condition fails at once, whatever the fuel. *)
Theorem backoff_without_attempts {W E V : Type}
    (operation : W → (E + V) * W) (maxRetries : Z) (w : W) :
  (maxRetries <= 0)%Z →
  exponentialBackoff operation (Some maxRetries) w = (Returned None, [], w)
  ∧ invocations (exponentialBackoff operation (Some maxRetries) w).1.2 = 0
  ∧ ∀ fuel, backoff_loop fuel operation maxRetries 0 w = (Returned None, [], w).
Proof.
  intros Hle.
  assert (∀ fuel, backoff_loop fuel operation maxRetries 0 w
                  = (Returned None, [], w)) as Hloop.
  { intros fuel. by apply backoff_loop_exhausted. }
  unfold exponentialBackoff. cbn [default from_option id].
  rewrite Hloop. done.
Qed.

Lemma backoff_without_attempts_witness :
  ((-1) <= 0)%Z
  ∧ exponentialBackoff always_down (Some (-1)%Z) 7 = (Returned None, [], 7)
  ∧ invocations (exponentialBackoff always_down (Some (-1)%Z) 7).1.2 = 0
  ∧ ∀ fuel, backoff_loop fuel always_down (-1) 0 7 = (Returned None, [], 7).
Proof.
  assert ((-1) <= 0)%Z as Hle by lia.
  split; [exact Hle|].
  exact (backoff_without_attempts always_down (-1) 7 Hle).
Defined.


Lemma schedule_invocations n : ∀ i, invocations (schedule i n) = n.
Proof.
  induction n as [|[|n] IH]; intros i; [done|done|].
  change (schedule i (S (S n)))
    with (Invoke :: Sleep (2 ^ i * 1000) :: schedule (i + 1) (S n)).
  unfold invocations in *. rewrite filter_cons_True by done.
  rewrite filter_cons_False by done. cbn [length]. by rewrite IH.
Qed.

Section Attempts.
Context {W E V : Type}.
Implicit Types (operation : W → (E + V) * W).

Lemma backoff_loop_attempts fuel : ∀ operation maxRetries i w,
  (i < maxRetries)%Z → (maxRetries - i <= Z.of_nat fuel)%Z →
  ∃ n, 1 ≤ n ∧ (i + Z.of_nat n <= maxRetries)%Z
    ∧ (backoff_loop fuel operation maxRetries i w).1.2 = schedule i n
    ∧ match (backoff_loop fuel operation maxRetries i w).1.1 with
      | Returned (Some _) => True
      | Returned None => False
      | Thrown _ => (i + Z.of_nat n = maxRetries)%Z
      end.
Proof.
  induction fuel as [|fuel IH]; intros operation maxRetries i w Hi Hfuel; [lia|].
  cbn [backoff_loop]. rewrite decide_True by done.
  destruct (operation w) as [[error|v] w'].
  - case_decide as Hlast.
    + exists 1. split_and!; [lia|lia|done|simpl; lia].
    + destruct (IH operation maxRetries (i + 1)%Z w') as (n & Hn & Hle & Hlog & Hres);
        [lia|lia|].
      destruct (backoff_loop fuel operation maxRetries (i + 1) w')
        as [[r log] w''] eqn:Hrun. cbn [fst snd] in *.
      exists (S n). split_and!; [lia|lia| |].
      * rewrite Hlog. by destruct n; [lia|].
      * destruct r as [[v|]|e]; [done|done|lia].
  - exists 1. split_and!; [lia|lia|done|done].
Qed.
End Attempts.

(** X9.  For [maxRetries >= 1], [exponentialBackoff] makes between one and
    [maxRetries] attempts, one after the other, and waits [2^i * 1000] after
    the failed attempt [i] unless it was the last allowed.  It never returns
    [undefined]: it returns the value of the attempt that succeeded, or,
    after exactly [maxRetries] failed attempts, throws. *)
Theorem backoff_attempts_and_delays {W E V : Type}
    (operation : W → (E + V) * W) (maxRetries : Z) (w : W) :
  (1 <= maxRetries)%Z →
  ∃ n, 1 ≤ n ∧ (Z.of_nat n <= maxRetries)%Z
    ∧ (exponentialBackoff operation (Some maxRetries) w).1.2 = schedule 0 n
    ∧ invocations (exponentialBackoff operation (Some maxRetries) w).1.2 = n
    ∧ match (exponentialBackoff operation (Some maxRetries) w).1.1 with
      | Returned (Some _) => True
      | Returned None => False
      | Thrown _ => Z.of_nat n = maxRetries
      end.
Proof.
  intros Hm. unfold exponentialBackoff. cbn [default from_option id].
  destruct (backoff_loop_attempts (Z.to_nat maxRetries) operation maxRetries 0 w)
    as (n & Hn & Hle & Hlog & Hres); [lia|lia|].
  exists n. split_and!; [done|lia|done| |].
  - rewrite Hlog. apply schedule_invocations.
  - destruct (backoff_loop _ _ _ _ _) as [[[[v|]|e] log] w']; simpl in *; [done|done|lia].
Qed.

Lemma backoff_attempts_and_delays_witness :
  (1 <= 3)%Z
  ∧ ∃ n, 1 ≤ n ∧ (Z.of_nat n <= 3)%Z
    ∧ (exponentialBackoff always_down (Some 3%Z) 0).1.2 = schedule 0 n
    ∧ invocations (exponentialBackoff always_down (Some 3%Z) 0).1.2 = n
    ∧ match (exponentialBackoff always_down (Some 3%Z) 0).1.1 with
      | Returned (Some _) => True
      | Returned None => False
      | Thrown _ => Z.of_nat n = 3%Z
      end.
Proof.
  assert (1 <= 3)%Z as Hm by lia.
  split; [exact Hm|].
  exact (backoff_attempts_and_delays always_down 3 0 Hm).
Defined.

(** Three attempts allowed and all of them failing. *)
Example three_failures :
  exponentialBackoff always_down (Some 3%Z) 0
  = (Thrown "down", [Invoke; Sleep 1000; Invoke; Sleep 2000; Invoke], 3).
Proof. by vm_compute. Qed.
End RetryFacts.

(** ** LRUCache *)

Module LRUCacheFacts.
Import LRUCache.

Section Facts.
Context {V : Type}.
Implicit Types (m : list (string * V)) (c : lru V) (key : string) (value : V).

Lemma map_get_cons m e key :
  map_get (e :: m) key = if decide (e.1 = key) then Some e.2 else map_get m key.
Proof.
  unfold map_get. cbn [list_find]. case_decide; [done|].
  by destruct (list_find _ m) as [[??]|].
Qed.

Lemma map_get_None m key : map_get m key = None ↔ key ∉ m.*1.
Proof.
  induction m as [|e m IH]; [split; [intros _; apply not_elem_of_nil|done]|].
  rewrite map_get_cons, fmap_cons, not_elem_of_cons.
  case_decide as He; [|rewrite IH; intuition congruence].
  split; [done|]. intros [Hne _]. by destruct Hne.
Qed.

Lemma map_has_get m key : map_has m key = bool_decide (is_Some (map_get m key)).
Proof.
  unfold map_has. apply bool_decide_ext.
  rewrite <-not_eq_None_Some, map_get_None. split; [tauto|].
  intros H. by destruct (decide (key ∈ m.*1)).
Qed.

Lemma map_set_fresh m key value :
  key ∉ m.*1 → map_set m key value = m ++ [(key, value)].
Proof.
  induction m as [|e m IH]; [done|].
  rewrite fmap_cons, not_elem_of_cons. intros [Hne Hm]. simpl.
  rewrite decide_False by done. by rewrite IH.
Qed.

Lemma map_delete_keys m key : key ∉ (map_delete m key).*1.
Proof.
  unfold map_delete. intros ([k v] & -> & [Hk _]%list_elem_of_filter)%list_elem_of_fmap.
  done.
Qed.

Lemma map_get_app m1 m2 key :
  map_get (m1 ++ m2) key
  = match map_get m1 key with Some v => Some v | None => map_get m2 key end.
Proof.
  induction m1 as [|e m1 IH]; [done|]. simpl.
  rewrite !map_get_cons. by case_decide.
Qed.

Lemma map_get_delete_ne m key key' :
  key ≠ key' → map_get (map_delete m key') key = map_get m key.
Proof.
  intros Hne. unfold map_delete. induction m as [|e m IH]; [done|].
  rewrite filter_cons. case_decide as He.
  - by rewrite !map_get_cons, IH.
  - rewrite IH, map_get_cons.
    rewrite decide_False; [done|congruence].
Qed.

(** A hit re-inserts the entry at the most recent end. *)
Lemma get_hit c key value :
  map_get (cache c) key = Some value →
  get c key = (Some value,
               LRU (capacity c) (map_delete (cache c) key ++ [(key, value)])).
Proof.
  intros Hget. unfold get. rewrite Hget.
  by rewrite map_set_fresh by apply map_delete_keys.
Qed.

Lemma get_miss c key : map_get (cache c) key = None → get c key = (None, c).
Proof. intros Hget. unfold get. by rewrite Hget. Qed.

Lemma map_delete_absent m key : key ∉ m.*1 → map_delete m key = m.
Proof.
  unfold map_delete. induction m as [|e m IH]; [done|].
  rewrite fmap_cons, not_elem_of_cons. intros [Hne Hm].
  rewrite filter_cons_True by done. by rewrite IH.
Qed.

Lemma map_delete_NoDup m key : NoDup m.*1 → NoDup (map_delete m key).*1.
Proof.
  unfold map_delete. induction m as [|e m IH]; [done|].
  rewrite fmap_cons, NoDup_cons. intros [He Hm].
  rewrite filter_cons. case_decide; [|by apply IH].
  rewrite fmap_cons, NoDup_cons. split; [|by apply IH].
  intros (e' & Heq & [_ Hin]%list_elem_of_filter)%list_elem_of_fmap.
  apply He. apply list_elem_of_fmap. eauto.
Qed.

Lemma map_delete_length m key value :
  NoDup m.*1 → map_get m key = Some value →
  length (map_delete m key) + 1 = length m.
Proof.
  unfold map_delete. induction m as [|e m IH]; [done|].
  rewrite fmap_cons, NoDup_cons, map_get_cons. intros [He Hm] Hget.
  destruct (decide (e.1 = key)) as [<-|Hne].
  - rewrite filter_cons_False by (intros []; done).
    fold (map_delete m e.1). rewrite map_delete_absent by done. simpl. lia.
  - rewrite filter_cons_True by done. simpl. by rewrite IH.
Qed.

Lemma map_get_absent m key : key ∉ m.*1 → map_get m key = None.
Proof. apply map_get_None. Qed.

(** The entries that the [delete]/[set] pair of [put] leaves: the new
    entry is last, and an overflow drops the first entry. *)
Lemma put_entries c key value :
  NoDup (cache c).*1 →
  cache (put c key value)
  = let m := map_delete (cache c) key ++ [(key, value)] in
    if decide (Z.of_nat (length m) > capacity c)%Z then drop 1 m else m.
Proof.
  intros Hnodup. unfold put. cbn [cache capacity].
  assert ((if map_has (cache c) key then map_delete (cache c) key else cache c)
          = map_delete (cache c) key) as ->.
  { unfold map_has. case_bool_decide as Hin; [done|].
    by rewrite map_delete_absent. }
  rewrite map_set_fresh by apply map_delete_keys. cbn zeta.
  case_decide; [|done].
  pose proof (map_delete_keys (cache c) key) as Hfresh.
  pose proof (map_delete_NoDup (cache c) key Hnodup) as Hnd.
  destruct (map_delete (cache c) key) as [|e m0] eqn:Hm.
  - cbn. by rewrite decide_False by (intros []; done).
  - rewrite fmap_cons, NoDup_cons in Hnd. destruct Hnd as [He Hm0].
    rewrite fmap_cons, not_elem_of_cons in Hfresh. destruct Hfresh as [Hk Hf].
    cbn [app first_key head fmap option_fmap option_map from_option skipn].
    unfold map_delete. rewrite filter_cons_False by (intros []; done).
    fold (map_delete (m0 ++ [(key, value)]) e.1).
    rewrite drop_0. apply map_delete_absent.
    rewrite fmap_app, elem_of_app. intros [?|Hin]; [done|].
    cbn in Hin. apply list_elem_of_singleton in Hin. congruence.
Qed.

Lemma map_delete_app m1 m2 key :
  map_delete (m1 ++ m2) key = map_delete m1 key ++ map_delete m2 key.
Proof. apply filter_app. Qed.

(** The entry just read is not the next victim. *)
Lemma read_entry_survives c key value key' value' :
  NoDup (cache c).*1 →
  (Z.of_nat (length (cache c)) <= capacity c)%Z →
  2 ≤ length (cache c) →
  map_get (cache c) key = Some value →
  key' ≠ key →
  map_get (cache (put (get c key).2 key' value')) key = Some value.
Proof.
  intros Hnodup Hcap Hlen Hget Hne.
  rewrite (get_hit c key value Hget). cbn [snd].
  pose proof (map_delete_length _ _ _ Hnodup Hget) as HlenD.
  pose proof (map_delete_keys (cache c) key) as HfreshD.
  set (D := map_delete (cache c) key) in *.
  rewrite put_entries; cbn [cache capacity].
  2:{ rewrite fmap_app, NoDup_app. split_and!.
      - by apply map_delete_NoDup.
      - intros k Hk Hin. cbn in Hin. apply list_elem_of_singleton in Hin.
        by subst k.
      - cbn. apply NoDup_singleton. }
  cbn zeta. rewrite map_delete_app.
  assert (map_delete [(key, value)] key' = [(key, value)]) as ->.
  { unfold map_delete. by rewrite filter_cons_True, filter_nil by (simpl; congruence). }
  assert (key ∉ (map_delete D key').*1) as HfreshX.
  { intros (e & Heq & [_ Hin]%list_elem_of_filter)%list_elem_of_fmap.
    apply HfreshD. apply list_elem_of_fmap. eauto. }
  pose proof (length_filter (λ e : string * V, e.1 ≠ key') D) as HlenX.
  fold (map_delete D key') in HlenX.
  destruct (map_delete D key') as [|x X] eqn:HX.
  - rewrite decide_False.
    + cbn [app]. by rewrite map_get_cons, decide_True.
    + cbn. lia.
  - rewrite fmap_cons, not_elem_of_cons in HfreshX.
    destruct HfreshX as [Hx HfreshX].
    case_decide.
    + cbn [app skipn]. rewrite drop_0, <-app_assoc, map_get_app, map_get_absent by done.
      cbn [app]. by rewrite map_get_cons, decide_True.
    + rewrite <-app_assoc, map_get_app.
      rewrite map_get_absent by (rewrite fmap_cons, not_elem_of_cons; done).
      cbn [app]. by rewrite map_get_cons, decide_True.
Qed.

(** On a full cache the victim of the next insertion is the oldest entry
    other than the one just read. *)
Lemma victim_after_read c key value key' value' :
  NoDup (cache c).*1 →
  Z.of_nat (length (cache c)) = capacity c →
  map_get (cache c) key = Some value →
  key' ∉ (cache c).*1 →
  cache (put (get c key).2 key' value')
  = drop 1 (map_delete (cache c) key ++ [(key, value)]) ++ [(key', value')].
Proof.
  intros Hnodup Hcap Hget Hfresh.
  rewrite (get_hit c key value Hget). cbn [snd].
  pose proof (map_delete_length _ _ _ Hnodup Hget) as HlenD.
  assert (key' ≠ key) as Hne.
  { intros ->. by apply map_get_None in Hfresh; congruence. }
  rewrite put_entries; cbn [cache capacity].
  2:{ rewrite fmap_app, NoDup_app. split_and!.
      - by apply map_delete_NoDup.
      - intros k Hk Hin. cbn in Hin. apply list_elem_of_singleton in Hin.
        subst k. by apply map_delete_keys in Hk.
      - cbn. apply NoDup_singleton. }
  cbn zeta. rewrite (map_delete_absent _ key').
  2:{ rewrite fmap_app, elem_of_app. intros [Hin|Hin].
      - apply list_elem_of_fmap in Hin as (e & Heq & [_ Hin]%list_elem_of_filter).
        apply Hfresh. apply list_elem_of_fmap. eauto.
      - cbn in Hin. by apply list_elem_of_singleton in Hin. }
  rewrite decide_True by (rewrite !length_app; cbn [length]; lia).
  destruct (map_delete (cache c) key); done.
Qed.
End Facts.

(** Claim C8.  With capacity 2, [put(a,1)], [put(b,2)], [get(a)],
    [put(c,3)] evicts [b] and not [a]: afterwards [get(a)] and [get(c)] hit
    and [get(b)] misses.  In general a hit in [get] re-inserts the entry at
    the most recently used end; the entry just read then survives the next
    [put] of another key, and on a full cache the victim of that [put] is
    the oldest entry other than the one just read. *)
Theorem lru_recency :
  (let c := put (put (new 2) "a" 1%Z) "b" 2%Z in
   let '(hit, c) := get c "a" in
   let c := put c "c" 3%Z in
   hit = Some 1%Z
   ∧ (get c "a").1 = Some 1%Z ∧ (get c "c").1 = Some 3%Z ∧ (get c "b").1 = None)
  ∧ (∀ (V : Type) (c : lru V) key value,
       map_get (cache c) key = Some value →
       get c key = (Some value,
                    LRU (capacity c) (map_delete (cache c) key ++ [(key, value)])))
  ∧ (∀ (V : Type) (c : lru V) key value key' value',
       NoDup (cache c).*1 →
       (Z.of_nat (length (cache c)) <= capacity c)%Z →
       2 ≤ length (cache c) →
       map_get (cache c) key = Some value →
       key' ≠ key →
       map_get (cache (put (get c key).2 key' value')) key = Some value)
  ∧ (∀ (V : Type) (c : lru V) key value key' value',
       NoDup (cache c).*1 →
       Z.of_nat (length (cache c)) = capacity c →
       map_get (cache c) key = Some value →
       key' ∉ (cache c).*1 →
       cache (put (get c key).2 key' value')
       = drop 1 (map_delete (cache c) key ++ [(key, value)]) ++ [(key', value')]).
Proof.
  split_and!.
  - by vm_compute.
  - intros V. apply get_hit.
  - intros V. apply read_entry_survives.
  - intros V. apply victim_after_read.
Qed.


Section CallFacts.
Context {V : Type}.
Implicit Types (m : list (string * V)) (c : lru V) (key : string) (value : V).

Lemma keys_snoc_NoDup m key value :
  NoDup m.*1 → key ∉ m.*1 → NoDup (m ++ [(key, value)]).*1.
Proof.
  intros Hm Hkey. rewrite fmap_app, NoDup_app. split_and!; [done| |].
  - intros k Hk Hin. cbn in Hin. apply list_elem_of_singleton in Hin. by subst k.
  - cbn. apply NoDup_singleton.
Qed.

Lemma map_delete_length_le m key : length (map_delete m key) ≤ length m.
Proof. apply length_filter. Qed.

Lemma put_capacity c key value : capacity (put c key value) = capacity c.
Proof. done. Qed.

Lemma put_ok c key value : cache_ok c → cache_ok (put c key value).
Proof.
  intros [Hnd Hlen]. unfold cache_ok. rewrite put_capacity, put_entries by done.
  cbn zeta.
  pose proof (keys_snoc_NoDup (map_delete (cache c) key) key value
                (map_delete_NoDup _ _ Hnd) (map_delete_keys _ _)) as Hnd'.
  pose proof (map_delete_length_le (cache c) key) as Hle.
  set (m := map_delete (cache c) key ++ [(key, value)]) in *.
  assert (length m = length (map_delete (cache c) key) + 1) as Hm.
  { unfold m. rewrite length_app. done. }
  case_decide as Hover.
  - split.
    + destruct m as [|e m']; [done|]. cbn [skipn]. rewrite drop_0.
      rewrite fmap_cons in Hnd'. by apply NoDup_cons in Hnd' as [_ ?].
    + rewrite length_drop. lia.
  - split; [done|lia].
Qed.

Lemma get_ok c key : cache_ok c → cache_ok (get c key).2.
Proof.
  intros [Hnd Hlen]. destruct (map_get (cache c) key) as [value|] eqn:Hget.
  - rewrite (get_hit c key value Hget). unfold cache_ok. cbn [snd cache capacity].
    split.
    + apply keys_snoc_NoDup; [by apply map_delete_NoDup|apply map_delete_keys].
    + rewrite length_app. cbn [length].
      pose proof (map_delete_length _ _ _ Hnd Hget). lia.
  - by rewrite (get_miss c key Hget).
Qed.

Lemma lru_new_ok capacity : @cache_ok V (new capacity).
Proof. split; [constructor|simpl; lia]. Qed.

Lemma lru_step_ok c o : cache_ok c → cache_ok (step c o).
Proof.
  destruct o; cbn [step]; [apply put_ok|apply get_ok|].
  intros _. split; [constructor|simpl; lia].
Qed.

Lemma lru_run_ok capacity (ops : list (op V)) : cache_ok (run capacity ops).
Proof.
  unfold run. generalize (lru_new_ok capacity). generalize (new (V:=V) capacity).
  induction ops as [|o ops IH]; intros c Hc; cbn [foldl]; [done|].
  apply IH. by apply lru_step_ok.
Qed.

Lemma lru_run_capacity capacity (ops : list (op V)) :
  LRUCache.capacity (run capacity ops) = capacity.
Proof.
  unfold run. change capacity with (LRUCache.capacity (new (V:=V) capacity)) at 2.
  generalize (new (V:=V) capacity).
  induction ops as [|o ops IH]; intros c; cbn [foldl]; [done|].
  rewrite IH. destruct o; cbn [step]; [done| |done].
  unfold get. by destruct (map_get (cache c) key).
Qed.

Lemma get_hit_perm c key value :
  NoDup (cache c).*1 → map_get (cache c) key = Some value →
  map_delete (cache c) key ++ [(key, value)] ≡ₚ cache c.
Proof.
  intros Hnd Hget. rewrite Permutation_app_comm. cbn [app].
  revert Hnd Hget. unfold map_delete.
  induction (cache c) as [|e m IH]; [done|].
  rewrite fmap_cons, NoDup_cons, map_get_cons. intros [He Hm] Hget.
  destruct (decide (e.1 = key)) as [<-|Hne].
  - simplify_eq. rewrite filter_cons_False by (intros []; done).
    fold (map_delete m e.1). rewrite map_delete_absent by done.
    by destruct e.
  - rewrite filter_cons_True by done. rewrite Permutation_swap.
    by rewrite IH.
Qed.
End CallFacts.

(** X10.  Whatever the [put], [get] and [clear] calls on a new cache, it
    never holds more entries than its capacity (none for a capacity below
    zero), and never two entries with one key. *)
Theorem lru_never_exceeds_capacity {V : Type} (capacity : Z) (ops : list (op V)) :
  (Z.of_nat (getSize (run capacity ops)) <= Z.max 0 capacity)%Z
  ∧ NoDup (cache (run capacity ops)).*1.
Proof.
  destruct (lru_run_ok (V:=V) capacity ops) as [Hnd Hlen].
  rewrite lru_run_capacity in Hlen. done.
Qed.

(** X11.  On a cache of capacity at least one, in any state that calls can
    reach, a [get] right after [put(key, value)] returns [value]. *)
Theorem lru_put_then_get {V : Type} (capacity : Z) (ops : list (op V)) key value :
  (1 <= capacity)%Z →
  (get (put (run capacity ops) key value) key).1 = Some value.
Proof.
  intros Hcap. destruct (lru_run_ok (V:=V) capacity ops) as [Hnd Hlen].
  rewrite lru_run_capacity in Hlen.
  assert (LRUCache.capacity (run capacity ops) = capacity) as Hc
    by apply lru_run_capacity.
  set (c := run capacity ops) in *.
  assert (map_get (cache (put c key value)) key = Some value) as Hget.
  { rewrite put_entries by done. cbn zeta.
    pose proof (map_delete_keys (cache c) key) as Hfresh.
    destruct (map_delete (cache c) key) as [|e m0] eqn:Hm.
    - cbn [app length]. rewrite Hc.
      rewrite decide_False by lia. by rewrite map_get_cons, decide_True.
    - rewrite fmap_cons, not_elem_of_cons in Hfresh. destruct Hfresh as [Hk Hf].
      case_decide.
      + cbn [app skipn]. rewrite drop_0, map_get_app, map_get_absent by done.
        by rewrite map_get_cons, decide_True.
      + cbn [app]. rewrite map_get_cons, decide_False by done.
        rewrite map_get_app, map_get_absent by done.
        by rewrite map_get_cons, decide_True. }
  by rewrite (get_hit _ _ _ Hget).
Qed.

Lemma lru_put_then_get_witness :
  (1 <= 2)%Z
  ∧ (get (put (run 2 [Put "a" 1%Z; Put "b" 2%Z; Get "a"]) "c" 3%Z) "c").1
    = Some 3%Z.
Proof.
  assert (1 <= 2)%Z as Hcap by lia.
  split; [exact Hcap|].
  exact (lru_put_then_get 2 [Put "a" 1%Z; Put "b" 2%Z; Get "a"] "c" 3%Z Hcap).
Defined.

(** X12.  A [get] changes the order of the entries and nothing else, and
    it returns [null] exactly for a key that is not in the cache. *)
Theorem lru_get_keeps_entries {V : Type} (capacity : Z) (ops : list (op V)) key :
  cache (get (run capacity ops) key).2 ≡ₚ cache (run capacity ops)
  ∧ ((get (run capacity ops) key).1 = None ↔ key ∉ (cache (run capacity ops)).*1).
Proof.
  destruct (lru_run_ok (V:=V) capacity ops) as [Hnd _].
  set (c := run capacity ops) in *.
  destruct (map_get (cache c) key) as [value|] eqn:Hget.
  - rewrite (get_hit c key value Hget). cbn [fst snd cache]. split.
    + by apply get_hit_perm.
    + split; [done|]. intros Habs%map_get_None. congruence.
  - rewrite (get_miss c key Hget). split; [done|]. by rewrite <-map_get_None.
Qed.

(** X13.  A [put] of a key already present replaces its entry and evicts
    nothing; a [put] of a new key on a cache with room only appends; a
    [put] of a new key on a full cache drops the oldest entry and only
    it. *)
Theorem lru_put_evicts_oldest {V : Type} (capacity : Z) (ops : list (op V)) key value :
  (0 <= capacity)%Z →
  (key ∈ (cache (run capacity ops)).*1 →
     cache (put (run capacity ops) key value)
     = map_delete (cache (run capacity ops)) key ++ [(key, value)])
  ∧ (key ∉ (cache (run capacity ops)).*1 →
     (Z.of_nat (length (cache (run capacity ops))) < capacity)%Z →
     cache (put (run capacity ops) key value)
     = cache (run capacity ops) ++ [(key, value)])
  ∧ (key ∉ (cache (run capacity ops)).*1 →
     Z.of_nat (length (cache (run capacity ops))) = capacity →
     cache (put (run capacity ops) key value)
     = drop 1 (cache (run capacity ops) ++ [(key, value)])).
Proof.
  intros Hcap. set (c := run capacity ops). destruct (lru_run_ok (V:=V) capacity ops) as [Hnd Hlen].
  rewrite lru_run_capacity in Hlen. fold c in Hnd, Hlen.
  assert (LRUCache.capacity c = capacity) as Hc by apply lru_run_capacity.
  split_and!.
  - intros Hin. rewrite put_entries by done. cbn zeta.
    destruct (map_get (cache c) key) as [v|] eqn:Hget.
    2:{ by apply map_get_None in Hget. }
    pose proof (map_delete_length _ _ _ Hnd Hget).
    rewrite decide_False; [done|]. rewrite length_app, Hc. cbn [length]. lia.
  - intros Hfresh Hroom. rewrite put_entries by done. cbn zeta.
    rewrite map_delete_absent by done.
    rewrite decide_False; [done|]. rewrite length_app, Hc. cbn [length]. lia.
  - intros Hfresh Hfull. rewrite put_entries by done. cbn zeta.
    rewrite map_delete_absent by done.
    rewrite decide_True; [done|]. rewrite length_app, Hc. cbn [length]. lia.
Qed.

Lemma lru_put_evicts_oldest_witness :
  (0 <= 2)%Z
  ∧ ("c" ∈ (cache (run 2 [Put "a" 1%Z; Put "b" 2%Z; Get "a"])).*1 →
     cache (put (run 2 [Put "a" 1%Z; Put "b" 2%Z; Get "a"]) "c" 3%Z)
     = map_delete (cache (run 2 [Put "a" 1%Z; Put "b" 2%Z; Get "a"])) "c"
       ++ [("c", 3%Z)])
  ∧ ("c" ∉ (cache (run 2 [Put "a" 1%Z; Put "b" 2%Z; Get "a"])).*1 →
     (Z.of_nat (length (cache (run 2 [Put "a" 1%Z; Put "b" 2%Z; Get "a"]))) < 2)%Z →
     cache (put (run 2 [Put "a" 1%Z; Put "b" 2%Z; Get "a"]) "c" 3%Z)
     = cache (run 2 [Put "a" 1%Z; Put "b" 2%Z; Get "a"]) ++ [("c", 3%Z)])
  ∧ ("c" ∉ (cache (run 2 [Put "a" 1%Z; Put "b" 2%Z; Get "a"])).*1 →
     Z.of_nat (length (cache (run 2 [Put "a" 1%Z; Put "b" 2%Z; Get "a"]))) = 2%Z →
     cache (put (run 2 [Put "a" 1%Z; Put "b" 2%Z; Get "a"]) "c" 3%Z)
     = drop 1 (cache (run 2 [Put "a" 1%Z; Put "b" 2%Z; Get "a"]) ++ [("c", 3%Z)])).
Proof.
  assert (0 <= 2)%Z as Hcap by lia.
  split; [exact Hcap|].
  exact (lru_put_evicts_oldest 2 [Put "a" 1%Z; Put "b" 2%Z; Get "a"] "c" 3%Z Hcap).
Defined.

(** The oldest entry goes when a third key arrives. *)
Example third_key_evicts_first :
  cache (run 2 [Put "a" 1%Z; Put "b" 2%Z; Put "c" 3%Z]) = [("b", 2%Z); ("c", 3%Z)].
Proof. by vm_compute. Qed.
End LRUCacheFacts.

(** ** NotificationBatcher *)

Module NotificationBatcherFacts.
Import NotificationBatcher.

Section Facts.
Context {N : Type}.
Implicit Types (b : batcher N) (ns : list N).

Lemma add_below b n :
  (Z.of_nat (length (batch b)) + 1 < batchSize b)%Z →
  ∃ e, ¬ is_flush e
       ∧ add b n = (e, Batcher (batch b ++ [n]) (batchSize b) (flushInterval b)
                               (Some (default (flushInterval b) (timer b)))).
Proof.
  intros Hlt. unfold add. cbn [batch batchSize flushInterval timer].
  rewrite decide_False by (rewrite length_app; cbn [length]; lia).
  destruct (timer b) eqn:Ht; eexists; (split; [|done]); by intros [].
Qed.

Lemma add_reaching b n :
  (Z.of_nat (length (batch b)) + 1 >= batchSize b)%Z →
  add b n = (Flushed (Some (batch b ++ [n])),
             Batcher [] (batchSize b) (flushInterval b) None).
Proof.
  intros Hge. unfold add, flush. cbn [batch batchSize flushInterval timer].
  rewrite decide_True by (rewrite length_app; cbn [length]; lia).
  rewrite decide_False; [done|]. rewrite length_app. cbn [length]. lia.
Qed.

Lemma add_all_fills ns : ∀ b,
  ns ≠ [] →
  Z.of_nat (length (batch b) + length ns) = batchSize b →
  ∃ early,
    Forall (λ e, ¬ is_flush e) early
    ∧ length early + 1 = length ns
    ∧ add_all b ns
      = (early ++ [Flushed (Some (batch b ++ ns))],
         Batcher [] (batchSize b) (flushInterval b) None).
Proof.
  induction ns as [|n ns IH]; intros b Hne Hlen; [done|].
  cbn [add_all]. destruct (decide (ns = [])) as [->|Hns].
  - rewrite add_reaching by (cbn [length] in Hlen; lia).
    exists []. split_and!; [constructor|done|done].
  - assert (0 < length ns) by (destruct ns; [done|simpl; lia]).
    destruct (add_below b n) as (e & He & ->); [cbn [length] in Hlen; lia|].
    edestruct (IH (Batcher (batch b ++ [n]) (batchSize b) (flushInterval b)
                           (Some (default (flushInterval b) (timer b)))))
      as (early & Hearly & Hcount & ->); [done| |].
    { cbn [batch batchSize]. rewrite length_app. cbn [length] in *. lia. }
    cbn [batch batchSize flushInterval]. exists (e :: early).
    split_and!; [by constructor|cbn [length]; lia|].
    by rewrite <-app_assoc.
Qed.
End Facts.

(** Claim C9.  For a batch size [B] of at least one, adding [B]
    notifications to a new batcher, with no timeout firing in between,
    flushes on the last [add] and on no earlier one; the flush yields
    exactly the [B] notifications in the order they were added, and the
    batch is empty and the timer cleared right after. *)
Theorem batcher_threshold {N : Type} (B : Z) (flushInterval : option Z)
    (ns : list N) :
  (1 <= B)%Z → Z.of_nat (length ns) = B →
  ∃ early b,
    add_all (new (Some B) flushInterval) ns = (early ++ [Flushed (Some ns)], b)
    ∧ Forall (λ e, ¬ is_flush e) early
    ∧ batch b = [] ∧ getBatchSize b = 0 ∧ timer b = None.
Proof.
  intros HB Hlen.
  destruct (add_all_fills ns (new (Some B) flushInterval))
    as (early & Hearly & _ & Hrun).
  - intros ->. simpl in Hlen. lia.
  - simpl. lia.
  - eexists early, _. split; [exact Hrun|]. done.
Qed.

Lemma batcher_threshold_witness :
  (1 <= 3)%Z ∧ Z.of_nat (length ["x"; "y"; "z"]) = 3%Z
  ∧ ∃ early b,
      add_all (new (Some 3%Z) None) ["x"; "y"; "z"]
        = (early ++ [Flushed (Some ["x"; "y"; "z"])], b)
      ∧ Forall (λ e, ¬ is_flush e) early
      ∧ batch b = [] ∧ getBatchSize b = 0 ∧ timer b = None.
Proof.
  assert (1 <= 3)%Z as HB by lia.
  assert (Z.of_nat (length ["x"; "y"; "z"]) = 3%Z) as Hlen by reflexivity.
  split; [exact HB|]. split; [exact Hlen|].
  exact (batcher_threshold 3 None ["x"; "y"; "z"] HB Hlen).
Defined.


Section EventFacts.
Context {N : Type}.
Implicit Types (b : batcher N) (ns : list N).

Lemma flush_cases b :
  (batch b = [] ∧ flush b = (None, b))
  ∨ (batch b ≠ []
     ∧ flush b = (Some (batch b), Batcher [] (batchSize b) (flushInterval b) None)).
Proof.
  unfold flush. destruct (batch b) as [|n ns] eqn:Hb; cbn [length].
  - left. by rewrite decide_True.
  - right. by rewrite decide_False.
Qed.

Lemma batcher_flush_ok b : batcher_ok b → batcher_ok (flush b).2.
Proof.
  intros [Hlen Ht]. destruct (flush_cases b) as [[_ ->]|[_ ->]]; [done|].
  split; [cbn [snd batch batchSize length] in *; lia|done].
Qed.

Lemma batcher_add_ok b n : batcher_ok b → batcher_ok (add b n).2.
Proof.
  intros [Hlen Ht].
  destruct (decide (Z.of_nat (length (batch b)) + 1 < batchSize b)%Z) as [Hlt|Hge].
  - destruct (add_below b n Hlt) as (e & _ & ->). cbn [snd]. split.
    + cbn [batch batchSize]. rewrite length_app. cbn [length]. lia.
    + cbn [timer batch]. split; [done|]. by destruct (batch b).
  - rewrite add_reaching by lia. cbn [snd]. split; [|done].
    cbn [batch batchSize length]. lia.
Qed.

Lemma sent_by_add b n :
  concat (sent_by (add b n).1) ++ batch (add b n).2 = batch b ++ [n].
Proof.
  destruct (decide (Z.of_nat (length (batch b)) + 1 < batchSize b)%Z) as [Hlt|Hge].
  - destruct (add_below b n Hlt) as (e & He & ->). cbn [fst snd batch].
    destruct e; [by destruct He|done|done].
  - rewrite add_reaching by lia. cbn [fst snd sent_by concat batch].
    by rewrite !app_nil_r.
Qed.

Lemma sent_by_flush b :
  concat (sent_by (Flushed (flush b).1)) ++ batch (flush b).2 = batch b.
Proof.
  destruct (flush_cases b) as [[Hb ->]|[_ ->]]; cbn [fst snd sent_by concat batch].
  - done.
  - by rewrite !app_nil_r.
Qed.

Lemma batcher_run_conserves evs : ∀ b,
  concat (run b evs).1 ++ batch (run b evs).2 = batch b ++ added evs.
Proof.
  induction evs as [|[n|] evs IH]; intros b; cbn [run].
  - cbn. by rewrite app_nil_r.
  - pose proof (sent_by_add b n) as Hadd. destruct (add b n) as [e b1].
    specialize (IH b1). destruct (run b1 evs) as [out b2]. cbn [fst snd] in *.
    change (added (Add n :: evs)) with (n :: added evs).
    rewrite concat_app, <-app_assoc, IH, app_assoc, Hadd.
    by rewrite <-app_assoc.
  - pose proof (sent_by_flush b) as Hfl. destruct (flush b) as [r b1].
    specialize (IH b1). destruct (run b1 evs) as [out b2]. cbn [fst snd] in *.
    change (added (Flush :: evs)) with (added evs).
    by rewrite concat_app, <-app_assoc, IH, app_assoc, Hfl.
Qed.

Lemma batcher_run_ok evs : ∀ b, batcher_ok b → batcher_ok (run b evs).2.
Proof.
  induction evs as [|[n|] evs IH]; intros b Hb; cbn [run].
  - done.
  - pose proof (batcher_add_ok b n Hb) as Hadd. destruct (add b n) as [e b1].
    specialize (IH b1 Hadd). by destruct (run b1 evs).
  - pose proof (batcher_flush_ok b Hb) as Hfl. destruct (flush b) as [r b1].
    specialize (IH b1 Hfl). by destruct (run b1 evs).
Qed.

Lemma add_batchSize b n : batchSize (add b n).2 = batchSize b.
Proof. unfold add, flush. repeat case_decide; try done. by destruct (timer b). Qed.

Lemma flush_batchSize b : batchSize (flush b).2 = batchSize b.
Proof. unfold flush. by case_decide. Qed.

Lemma run_batchSize evs : ∀ b, batchSize (run b evs).2 = batchSize b.
Proof.
  induction evs as [|[n|] evs IH]; intros b; cbn [run]; [done| |].
  - pose proof (add_batchSize b n) as Hadd.
    destruct (add b n) as [e b1]. specialize (IH b1).
    destruct (run b1 evs). cbn [snd] in *. congruence.
  - pose proof (flush_batchSize b) as Hfl.
    destruct (flush b) as [r b1]. specialize (IH b1).
    destruct (run b1 evs). cbn [snd] in *. congruence.
Qed.

Lemma run_sent_sizes evs : ∀ b,
  batcher_ok b →
  Forall (λ toSend, toSend ≠ [] ∧ (Z.of_nat (length toSend) <= batchSize b)%Z)
         (run b evs).1.
Proof.
  induction evs as [|[n|] evs IH]; intros b Hb; cbn [run].
  - constructor.
  - pose proof (batcher_add_ok b n Hb) as Hadd.
    pose proof (add_batchSize b n) as Hsize.
    assert (Forall (λ toSend, toSend ≠ [] ∧ (Z.of_nat (length toSend) <= batchSize b)%Z)
                   (sent_by (add b n).1)) as Hsent.
    { destruct Hb as [Hlen _].
      destruct (decide (Z.of_nat (length (batch b)) + 1 < batchSize b)%Z) as [Hlt|Hge].
      - destruct (add_below b n Hlt) as (e & He & ->). cbn [fst].
        destruct e; [by destruct He|constructor|constructor].
      - rewrite add_reaching by lia. cbn [fst sent_by].
        constructor; [|constructor]. split; [by destruct (batch b)|].
        rewrite length_app. cbn [length]. lia. }
    destruct (add b n) as [e b1]. cbn [fst snd] in *.
    specialize (IH b1 Hadd). rewrite Hsize in IH.
    destruct (run b1 evs) as [out b2]. cbn [fst] in *.
    by apply Forall_app.
  - pose proof (batcher_flush_ok b Hb) as Hfl.
    pose proof (flush_batchSize b) as Hsize.
    assert (Forall (λ toSend, toSend ≠ [] ∧ (Z.of_nat (length toSend) <= batchSize b)%Z)
                   (sent_by (Flushed (flush b).1))) as Hsent.
    { destruct Hb as [Hlen _].
      destruct (flush_cases b) as [[_ ->]|[Hne ->]]; cbn [fst sent_by].
      - constructor.
      - constructor; [|constructor]. split; [done|lia]. }
    destruct (flush b) as [r b1]. cbn [fst snd] in *.
    specialize (IH b1 Hfl). rewrite Hsize in IH.
    destruct (run b1 evs) as [out b2]. cbn [fst] in *.
    by apply Forall_app.
Qed.

Lemma batcher_new_ok (B : Z) flushInterval :
  (1 <= B)%Z → batcher_ok (new (N:=N) (Some B) flushInterval).
Proof. intros HB. split; [simpl; lia|done]. Qed.
End EventFacts.

(** X14.  Whatever the [add] and [flush] calls, timeouts included, nothing
    added is lost, repeated or reordered: the batches sent, one after the
    other, followed by what still waits in the batch, are the notifications
    in the order they were added. *)
Theorem batcher_sends_everything_once {N : Type} (batchSize flushInterval : option Z)
    (evs : list (event N)) :
  concat (run (new batchSize flushInterval) evs).1
    ++ batch (run (new batchSize flushInterval) evs).2
  = added evs.
Proof. by rewrite batcher_run_conserves. Qed.

(** X15.  For a batch size of at least one, whatever the [add] and [flush]
    calls: no batch sent is empty or larger than the batch size, the
    waiting batch stays below the batch size, and a timeout is pending
    exactly while something waits. *)
Theorem batcher_bounds {N : Type} (B : Z) (flushInterval : option Z)
    (evs : list (event N)) :
  (1 <= B)%Z →
  Forall (λ toSend, toSend ≠ [] ∧ (Z.of_nat (length toSend) <= B)%Z)
         (run (new (Some B) flushInterval) evs).1
  ∧ (Z.of_nat (getBatchSize (run (new (Some B) flushInterval) evs).2) < B)%Z
  ∧ (timer (run (new (Some B) flushInterval) evs).2 = None
     ↔ batch (run (new (Some B) flushInterval) evs).2 = []).
Proof.
  intros HB.
  pose proof (run_sent_sizes evs _ (batcher_new_ok B flushInterval HB)) as Hout.
  pose proof (batcher_run_ok evs _ (batcher_new_ok B flushInterval HB)) as [Hlen Ht].
  rewrite run_batchSize in Hlen. done.
Qed.

Lemma batcher_bounds_witness :
  (1 <= 2)%Z
  ∧ Forall (λ toSend, toSend ≠ [] ∧ (Z.of_nat (length toSend) <= 2)%Z)
           (run (new (Some 2%Z) None)
                [Add "x"; Flush; Add "y"; Add "z"; Add "w"]).1
  ∧ (Z.of_nat (getBatchSize
                 (run (new (Some 2%Z) None)
                      [Add "x"; Flush; Add "y"; Add "z"; Add "w"]).2) < 2)%Z
  ∧ (timer (run (new (Some 2%Z) None)
                [Add "x"; Flush; Add "y"; Add "z"; Add "w"]).2 = None
     ↔ batch (run (new (Some 2%Z) None)
                  [Add "x"; Flush; Add "y"; Add "z"; Add "w"]).2 = []).
Proof.
  assert (1 <= 2)%Z as HB by lia.
  split; [exact HB|].
  exact (batcher_bounds 2 None [Add "x"; Flush; Add "y"; Add "z"; Add "w"] HB).
Defined.
End NotificationBatcherFacts.

(** ** Double arithmetic *)

Module DoubleFacts.
Import Double.

Lemma pow2_pos e : (0 < pow2 e)%Q.
Proof. apply Qpower_0_lt. reflexivity. Qed.

Lemma pow2_add a b : (pow2 (a + b) == pow2 a * pow2 b)%Q.
Proof. apply Qpower_plus. discriminate. Qed.

Lemma pow2_le a b : (a <= b)%Z → (pow2 a <= pow2 b)%Q.
Proof. intros. apply Qpower_le_compat_l; [done|discriminate]. Qed.

Lemma pow2_lt a b : (a < b)%Z → (pow2 a < pow2 b)%Q.
Proof. intros. apply Qpower_lt_compat_l; [done|reflexivity]. Qed.

Lemma pow2_lt_inv a b : (pow2 a < pow2 b)%Q → (a < b)%Z.
Proof. intros. eapply Qpower_lt_compat_l_inv; [done|reflexivity]. Qed.

Lemma pow2_Z e : (0 <= e)%Z → (pow2 e == inject_Z (2 ^ e))%Q.
Proof. intros. unfold pow2. by rewrite Zpower_Qpower. Qed.

(** A multiple of [2^b] is a multiple of every smaller power of two. *)
Lemma grid_refine a b z :
  (a <= b)%Z →
  (inject_Z z * pow2 b == inject_Z (z * 2 ^ (b - a)) * pow2 a)%Q.
Proof.
  intros Hab. replace b with ((b - a) + a)%Z at 1 by lia.
  rewrite pow2_add, (pow2_Z (b - a)) by lia.
  rewrite inject_Z_mult. ring.
Qed.

(** *** Rounding to an integer *)

Lemma rne_bounds x : (Qfloor x <= rne x <= Qfloor x + 1)%Z.
Proof.
  unfold rne. destruct (_ ?= _)%Q; [destruct (Z.even _)| |]; lia.
Qed.

Lemma rne_mono x y : (x <= y)%Q → (rne x <= rne y)%Z.
Proof.
  intros Hxy. pose proof (Qfloor_resp_le _ _ Hxy) as Hf.
  destruct (decide (Qfloor x < Qfloor y)%Z) as [Hlt|Hge].
  { pose proof (rne_bounds x). pose proof (rne_bounds y). lia. }
  assert (Qfloor x = Qfloor y) as Heq by lia.
  unfold rne. rewrite <-Heq.
  destruct (x - inject_Z (Qfloor x) ?= 1 # 2)%Q eqn:Hx;
    destruct (y - inject_Z (Qfloor x) ?= 1 # 2)%Q eqn:Hy;
    try (destruct (Z.even (Qfloor x))); try lia;
    exfalso;
    repeat match goal with
    | H : (_ ?= _)%Q = Eq |- _ => apply Qeq_alt in H
    | H : (_ ?= _)%Q = Lt |- _ => apply Qlt_alt in H
    | H : (_ ?= _)%Q = Gt |- _ => apply Qgt_alt in H
    end; lra.
Qed.

Lemma rne_Z z : rne (inject_Z z) = z.
Proof.
  unfold rne. rewrite Qfloor_Z.
  assert ((inject_Z z - inject_Z z ?= 1 # 2)%Q = Lt) as ->; [|done].
  apply Qlt_alt. unfold Qminus. by rewrite Qplus_opp_r.
Qed.

#[global] Instance rne_comp : Proper (Qeq ==> eq) rne.
Proof.
  intros x y Hxy. apply Z.le_antisymm; apply rne_mono; lra.
Qed.

(** *** Rounding to a multiple of a power of two *)

Lemma round_at_mono e x y : (x <= y)%Q → (round_at e x <= round_at e y)%Q.
Proof.
  intros Hxy. unfold round_at. pose proof (pow2_pos e) as He.
  apply Qmult_le_compat_r; [|lra].
  rewrite <-Zle_Qle. apply rne_mono.
  apply Qmult_le_compat_r; [done|]. apply Qinv_le_0_compat. lra.
Qed.

Lemma round_at_grid e z :
  (round_at e (inject_Z z * pow2 e) == inject_Z z * pow2 e)%Q.
Proof.
  unfold round_at. pose proof (pow2_pos e) as He.
  assert (inject_Z z * pow2 e / pow2 e == inject_Z z)%Q as ->
    by (field; lra).
  by rewrite rne_Z.
Qed.

#[global] Instance round_at_comp e : Proper (Qeq ==> Qeq) (round_at e).
Proof.
  intros x y Hxy. apply Qle_antisym; apply round_at_mono; lra.
Qed.

Lemma pow2_on_grid k e :
  (e <= k)%Z → (round_at e (pow2 k) == pow2 k)%Q.
Proof.
  intros Hek.
  assert (pow2 k == inject_Z (2 ^ (k - e)) * pow2 e)%Q as Hk.
  { rewrite <-(Qmult_1_l (pow2 k)). change 1%Q with (inject_Z 1).
    rewrite (grid_refine e k 1 Hek). by rewrite Z.mul_1_l. }
  rewrite Hk. apply round_at_grid.
Qed.

(** *** The binary exponent *)

Lemma ilog2_spec x :
  (0 < x)%Q → (pow2 (ilog2 x) <= x)%Q ∧ (x < pow2 (ilog2 x + 1))%Q.
Proof.
  intros Hx. destruct x as [n d]. unfold ilog2. cbn [Qnum Qden].
  assert (0 < n)%Z as Hn by (unfold Qlt in Hx; simpl in Hx; lia).
  set (a := Z.log2 n). set (b := Z.log2 (Z.pos d)).
  pose proof (Z.log2_spec n Hn) as [Ha1 Ha2]. fold a in Ha1, Ha2.
  pose proof (Z.log2_spec (Z.pos d) eq_refl) as [Hb1 Hb2]. fold b in Hb1, Hb2.
  assert (0 <= a)%Z as Ha0 by apply Z.log2_nonneg.
  assert (0 <= b)%Z as Hb0 by apply Z.log2_nonneg.
  assert (0 < 2 ^ a)%Z by (apply Z.pow_pos_nonneg; lia).
  assert (0 < 2 ^ b)%Z by (apply Z.pow_pos_nonneg; lia).
  assert (n # d < pow2 (a - b + 1))%Q as Hup.
  { apply (Qmult_lt_r _ _ (pow2 b) (pow2_pos b)).
    rewrite <-pow2_add. replace (a - b + 1 + b)%Z with (Z.succ a) by lia.
    rewrite (pow2_Z b), (pow2_Z (Z.succ a)) by lia.
    unfold Qlt. cbn [Qnum Qden Qmult inject_Z]. nia. }
  assert (pow2 (a - b - 1) < n # d)%Q as Hlo.
  { apply (Qmult_lt_r _ _ (pow2 (Z.succ b)) (pow2_pos _)).
    rewrite <-pow2_add. replace (a - b - 1 + Z.succ b)%Z with a by lia.
    rewrite (pow2_Z a), (pow2_Z (Z.succ b)) by lia.
    unfold Qlt. cbn [Qnum Qden Qmult inject_Z]. nia. }
  destruct (Qle_bool (pow2 (a - b)) (n # d)) eqn:Hle.
  - apply Qle_bool_iff in Hle. done.
  - assert (¬ (pow2 (a - b) <= n # d)%Q) as Hnle
      by (rewrite <-Qle_bool_iff, Hle; done).
    apply Qnot_le_lt in Hnle.
    replace (a - b - 1 + 1)%Z with (a - b)%Z by lia.
    split; [by apply Qlt_le_weak|done].
Qed.

Lemma ilog2_unique x k :
  (pow2 k <= x)%Q → (x < pow2 (k + 1))%Q → ilog2 x = k.
Proof.
  intros Hlo Hhi.
  assert (0 < x)%Q as Hx by (pose proof (pow2_pos k); lra).
  destruct (ilog2_spec x Hx) as [Hl Hh].
  assert (ilog2 x < k + 1)%Z by (apply pow2_lt_inv; lra).
  assert (k < ilog2 x + 1)%Z by (apply pow2_lt_inv; lra).
  lia.
Qed.

Lemma ilog2_mono x y : (0 < x)%Q → (x <= y)%Q → (ilog2 x <= ilog2 y)%Z.
Proof.
  intros Hx Hxy.
  destruct (ilog2_spec x Hx) as [Hl _].
  destruct (ilog2_spec y) as [_ Hh]; [lra|].
  assert (ilog2 x < ilog2 y + 1)%Z by (apply pow2_lt_inv; lra).
  lia.
Qed.

(** *** Rounding to 53 bits *)

Lemma fl_pos_bounds x :
  (0 < x)%Q →
  (pow2 (ilog2 x) <= fl_pos x)%Q ∧ (fl_pos x <= pow2 (ilog2 x + 1))%Q.
Proof.
  intros Hx. destruct (ilog2_spec x Hx) as [Hl Hh]. unfold fl_pos. split.
  - apply Qle_trans with (round_at (ilog2 x - 52) (pow2 (ilog2 x))).
    + rewrite pow2_on_grid by lia. apply Qle_refl.
    + by apply round_at_mono.
  - apply Qle_trans with (round_at (ilog2 x - 52) (pow2 (ilog2 x + 1))).
    + apply round_at_mono. lra.
    + rewrite pow2_on_grid by lia. apply Qle_refl.
Qed.

Lemma fl_pos_pos x : (0 < x)%Q → (0 < fl_pos x)%Q.
Proof.
  intros Hx. destruct (fl_pos_bounds x Hx) as [Hl _].
  pose proof (pow2_pos (ilog2 x)). lra.
Qed.

Lemma fl_pos_mono x y : (0 < x)%Q → (x <= y)%Q → (fl_pos x <= fl_pos y)%Q.
Proof.
  intros Hx Hxy. assert (0 < y)%Q as Hy by lra.
  pose proof (ilog2_mono x y Hx Hxy) as He.
  destruct (decide (ilog2 x = ilog2 y)) as [Heq|Hne].
  { unfold fl_pos. rewrite Heq. by apply round_at_mono. }
  destruct (fl_pos_bounds x Hx) as [_ Hxu].
  destruct (fl_pos_bounds y Hy) as [Hyl _].
  pose proof (pow2_le (ilog2 x + 1) (ilog2 y) ltac:(lia)). lra.
Qed.

Lemma fl_Gt x : (0 < x)%Q → fl x = fl_pos x.
Proof.
  intros Hx. unfold fl.
  assert ((x ?= 0)%Q = Gt) as ->; [|done]. by apply Qgt_alt.
Qed.

Lemma fl_Lt x : (x < 0)%Q → fl x = (- fl_pos (- x))%Q.
Proof.
  intros Hx. unfold fl.
  assert ((x ?= 0)%Q = Lt) as ->; [|done]. by apply Qlt_alt.
Qed.

Lemma fl_Eq x : (x == 0)%Q → fl x = 0%Q.
Proof.
  intros Hx. unfold fl.
  assert ((x ?= 0)%Q = Eq) as ->; [|done]. by apply Qeq_alt.
Qed.

Lemma Qsign_cases x : (x < 0)%Q ∨ (x == 0)%Q ∨ (0 < x)%Q.
Proof.
  destruct (Q_dec x 0) as [[?|?]|?]; auto.
Qed.

(** Rounding keeps the sign. *)
Lemma fl_pos_iff x : (0 < fl x)%Q ↔ (0 < x)%Q.
Proof.
  destruct (Qsign_cases x) as [Hx|[Hx|Hx]].
  - rewrite fl_Lt by done.
    pose proof (fl_pos_pos (- x)) as H. split; intros; lra.
  - rewrite fl_Eq by done. split; intros; lra.
  - rewrite fl_Gt by done. pose proof (fl_pos_pos x Hx). tauto.
Qed.

(** Rounding is monotone. *)
Lemma fl_mono x y : (x <= y)%Q → (fl x <= fl y)%Q.
Proof.
  intros Hxy.
  destruct (Qsign_cases x) as [Hx|[Hx|Hx]];
    destruct (Qsign_cases y) as [Hy|[Hy|Hy]]; try lra.
  - rewrite !fl_Lt by done.
    pose proof (fl_pos_mono (- y) (- x)). lra.
  - rewrite fl_Lt, fl_Eq by done. pose proof (fl_pos_pos (- x)). lra.
  - rewrite fl_Lt, fl_Gt by done.
    pose proof (fl_pos_pos (- x)). pose proof (fl_pos_pos y). lra.
  - rewrite !fl_Eq by done. lra.
  - rewrite fl_Eq, fl_Gt by done. pose proof (fl_pos_pos y). lra.
  - rewrite !fl_Gt by done. by apply fl_pos_mono.
Qed.

#[global] Instance fl_comp : Proper (Qeq ==> Qeq) fl.
Proof.
  intros x y Hxy. apply Qle_antisym; apply fl_mono; lra.
Qed.

Lemma fl_opp x : (fl (- x) == - fl x)%Q.
Proof.
  destruct (Qsign_cases x) as [Hx|[Hx|Hx]].
  - rewrite (fl_Lt x), (fl_Gt (- x)) by lra. lra.
  - rewrite (fl_Eq x), (fl_Eq (- x)) by lra. lra.
  - rewrite (fl_Gt x), (fl_Lt (- x)) by lra.
    assert (- - x == x)%Q as Hxx by lra.
    unfold fl_pos.
    assert (ilog2 (- - x) = ilog2 x) as ->.
    { destruct (ilog2_spec x Hx). apply ilog2_unique; lra. }
    rewrite Hxx. lra.
Qed.

Lemma fl_nonneg x : (0 <= x)%Q → (0 <= fl x)%Q.
Proof. intros. change 0%Q with (fl 0). by apply fl_mono. Qed.

(** A multiple of [2^e] with at most 53 bits is a double. *)
Lemma fl_pos_grid z e :
  (0 < z)%Z → (z <= 2 ^ 53)%Z →
  (fl_pos (inject_Z z * pow2 e) == inject_Z z * pow2 e)%Q.
Proof.
  intros Hz Hz53. set (x := (inject_Z z * pow2 e)%Q).
  pose proof (pow2_pos e) as He.
  assert (0 < inject_Z z)%Q as Hzq
    by (change 0%Q with (inject_Z 0); by rewrite <-Zlt_Qlt).
  assert (0 < x)%Q as Hx by (unfold x; nra).
  destruct (ilog2_spec x Hx) as [Hl Hh].
  destruct (decide (z = 2 ^ 53)%Z) as [->|Hne].
  - assert (x == pow2 (53 + e))%Q as Hx53.
    { unfold x. rewrite pow2_add, (pow2_Z 53) by lia. done. }
    unfold fl_pos.
    assert (ilog2 x = (53 + e)%Z) as ->.
    { apply ilog2_unique; [lra|]. rewrite Hx53. apply pow2_lt. lia. }
    rewrite Hx53. apply pow2_on_grid. lia.
  - assert (ilog2 x - 52 <= e)%Z as Hg.
    { assert (ilog2 x < 53 + e)%Z; [|lia].
      apply pow2_lt_inv. eapply Qle_lt_trans; [exact Hl|].
      rewrite pow2_add, (pow2_Z 53) by lia. unfold x.
      apply Qmult_lt_compat_r; [done|]. rewrite <-Zlt_Qlt. lia. }
    unfold fl_pos. unfold x at 2 3.
    rewrite (grid_refine (ilog2 x - 52) e z Hg).
    apply round_at_grid.
Qed.

Lemma fl_grid z e :
  (Z.abs z <= 2 ^ 53)%Z → (fl (inject_Z z * pow2 e) == inject_Z z * pow2 e)%Q.
Proof.
  intros Hz. pose proof (pow2_pos e) as He.
  destruct (Z.lt_trichotomy z 0) as [Hneg|[->|Hpos]].
  - assert (inject_Z z * pow2 e == - (inject_Z (- z) * pow2 e))%Q as ->
      by (rewrite inject_Z_opp; ring).
    rewrite fl_opp.
    assert (0 < inject_Z (- z))%Q
      by (change 0%Q with (inject_Z 0); rewrite <-Zlt_Qlt; lia).
    rewrite fl_Gt by nra. rewrite fl_pos_grid by lia. done.
  - rewrite fl_Eq; [|change (inject_Z 0) with 0%Q; ring].
    change (inject_Z 0) with 0%Q. ring.
  - assert (0 < inject_Z z)%Q
      by (change 0%Q with (inject_Z 0); by rewrite <-Zlt_Qlt).
    rewrite fl_Gt by nra. apply fl_pos_grid; lia.
Qed.

(** Integers up to [2^53] in magnitude are doubles. *)
Lemma fl_Z z : (Z.abs z <= 2 ^ 53)%Z → (fl (inject_Z z) == inject_Z z)%Q.
Proof.
  intros Hz. pose proof (fl_grid z 0 Hz) as H.
  change (pow2 0) with 1%Q in H. by rewrite !Qmult_1_r in H.
Qed.

(** The result of a rounding is a double. *)
Lemma fl_pos_idem x : (0 < x)%Q → (fl_pos (fl_pos x) == fl_pos x)%Q.
Proof.
  intros Hx. destruct (fl_pos_bounds x Hx) as [Hl Hu].
  destruct (ilog2_spec x Hx) as [Hxl Hxu].
  destruct (Qlt_le_dec (fl_pos x) (pow2 (ilog2 x + 1))) as [Hlt|Hge].
  - unfold fl_pos at 1.
    rewrite (ilog2_unique (fl_pos x) (ilog2 x)) by done.
    unfold fl_pos, round_at at 2 3. apply round_at_grid.
  - assert (fl_pos x == pow2 (ilog2 x + 1))%Q as Heq by lra.
    assert (ilog2 (fl_pos x) = (ilog2 x + 1)%Z) as Hk.
    { apply ilog2_unique; [lra|]. rewrite Heq. apply pow2_lt. lia. }
    unfold fl_pos at 1. rewrite Hk, Heq.
    apply pow2_on_grid. lia.
Qed.

Lemma fl_idem x : (fl (fl x) == fl x)%Q.
Proof.
  destruct (Qsign_cases x) as [Hx|[Hx|Hx]].
  - rewrite (fl_Lt x) by done. rewrite fl_opp.
    rewrite fl_Gt by (apply fl_pos_pos; lra).
    rewrite fl_pos_idem by lra. done.
  - rewrite (fl_Eq x) by done. done.
  - rewrite (fl_Gt x) by done. rewrite fl_Gt by (by apply fl_pos_pos).
    by apply fl_pos_idem.
Qed.

Lemma representable_fl x : representable (fl x).
Proof. apply fl_idem. Qed.

Lemma representable_Z z : (Z.abs z <= 2 ^ 53)%Z → representable (inject_Z z).
Proof. apply fl_Z. Qed.

Lemma representable_Qmin a b :
  representable a → representable b → representable (Qmin a b).
Proof.
  unfold representable. intros Ha Hb.
  destruct (Q.min_spec a b) as [[_ H]|[_ H]]; by rewrite H.
Qed.

(** Rounding fixes a double, so it keeps a bound that is a double. *)
Lemma fl_le x hi : representable hi → (x <= hi)%Q → (fl x <= hi)%Q.
Proof.
  intros Hhi Hx. apply Qle_trans with (fl hi); [by apply fl_mono|].
  apply Qle_lteq. by right.
Qed.

Lemma fl_ge x lo : representable lo → (lo <= x)%Q → (lo <= fl x)%Q.
Proof.
  intros Hlo Hx. apply Qle_trans with (fl lo); [|by apply fl_mono].
  apply Qle_lteq. right. by symmetry.
Qed.

(** *** The rounding error *)

Lemma rne_error x :
  (- (1 # 2) <= inject_Z (rne x) - x)%Q ∧ (inject_Z (rne x) - x <= 1 # 2)%Q.
Proof.
  unfold rne.
  pose proof (Qfloor_le x) as Hlo. pose proof (Qlt_floor x) as Hhi.
  rewrite inject_Z_plus in Hhi. change (inject_Z 1) with 1%Q in Hhi.
  destruct (x - inject_Z (Qfloor x) ?= 1 # 2)%Q eqn:Hc;
    [apply Qeq_alt in Hc; destruct (Z.even (Qfloor x))
    |apply Qlt_alt in Hc|apply Qgt_alt in Hc];
    rewrite ?inject_Z_plus; change (inject_Z 1) with 1%Q; split; lra.
Qed.

Lemma round_at_error e x :
  (x - pow2 e / 2 <= round_at e x)%Q ∧ (round_at e x <= x + pow2 e / 2)%Q.
Proof.
  pose proof (pow2_pos e) as He. destruct (rne_error (x / pow2 e)) as [Hl Hh].
  unfold round_at.
  assert (x == x / pow2 e * pow2 e)%Q as Hx by (field; lra).
  set (y := (x / pow2 e)%Q) in *. set (r := inject_Z (rne y)) in *.
  clearbody r. clearbody y. set (p := pow2 e) in *. clearbody p.
  assert (0 <= (r - y + (1 # 2)) * p)%Q as H1
    by (apply Qmult_le_0_compat; lra).
  assert (0 <= ((1 # 2) - (r - y)) * p)%Q as H2
    by (apply Qmult_le_0_compat; lra).
  assert ((r - y + (1 # 2)) * p == r * p - y * p + p / 2)%Q as E1 by field.
  assert (((1 # 2) - (r - y)) * p == y * p - r * p + p / 2)%Q as E2 by field.
  rewrite E1 in H1. rewrite E2 in H2. rewrite Hx. split; lra.
Qed.

Lemma eps_pos : (0 < eps)%Q.
Proof. apply pow2_pos. Qed.

Lemma eps_lt_1 : (eps < 1)%Q.
Proof. reflexivity. Qed.

Lemma fl_pos_error x :
  (0 < x)%Q → ((1 - eps) * x <= fl_pos x)%Q ∧ (fl_pos x <= (1 + eps) * x)%Q.
Proof.
  intros Hx. destruct (ilog2_spec x Hx) as [Hl _].
  destruct (round_at_error (ilog2 x - 52) x) as [Hlo Hhi].
  assert (pow2 (ilog2 x - 52) / 2 == pow2 (ilog2 x) * eps)%Q as Hhalf.
  { unfold eps. rewrite <-pow2_add.
    replace (ilog2 x + -53)%Z with ((ilog2 x - 52) + -1)%Z by lia.
    rewrite pow2_add. change (pow2 (-1)) with (1 # 2)%Q. field. }
  rewrite Hhalf in Hlo, Hhi. pose proof eps_pos.
  assert (pow2 (ilog2 x) * eps <= x * eps)%Q
    by (apply Qmult_le_compat_r; lra).
  assert ((1 - eps) * x == x - x * eps)%Q as -> by ring.
  assert ((1 + eps) * x == x + x * eps)%Q as -> by ring.
  unfold fl_pos. split; lra.
Qed.

(** An operation on doubles is off by a relative error of at most
    [2^-53]. *)
Lemma fl_error x :
  (0 <= x)%Q → ((1 - eps) * x <= fl x)%Q ∧ (fl x <= (1 + eps) * x)%Q.
Proof.
  intros Hx. destruct (Qsign_cases x) as [Hn|[Hz|Hp]]; [lra| |].
  - rewrite fl_Eq by done. rewrite Hz. split; lra.
  - rewrite fl_Gt by done. by apply fl_pos_error.
Qed.

Lemma power_up_ge k : (1 <= power (1 + eps) k)%Q.
Proof.
  pose proof eps_pos. induction k as [|k IH]; cbn [power]; [lra|].
  assert (0 <= eps * power (1 + eps) k)%Q
    by (apply Qmult_le_0_compat; lra).
  assert ((1 + eps) * power (1 + eps) k
          == power (1 + eps) k + eps * power (1 + eps) k)%Q as -> by ring.
  lra.
Qed.

Lemma power_down_range k :
  (0 < power (1 - eps) k)%Q ∧ (power (1 - eps) k <= 1)%Q.
Proof.
  pose proof eps_pos. pose proof eps_lt_1.
  induction k as [|k [IH1 IH2]]; cbn [power]; [lra|]. split.
  - apply Qmult_lt_0_compat; lra.
  - assert (0 <= eps * power (1 - eps) k)%Q
      by (apply Qmult_le_0_compat; lra).
    assert ((1 - eps) * power (1 - eps) k
            == power (1 - eps) k - eps * power (1 - eps) k)%Q as -> by ring.
    lra.
Qed.

Lemma within_refl exact : within 0 exact exact.
Proof. unfold within. cbn [power]. split; lra. Qed.

(** One more rounding. *)
Lemma within_fl n exact x :
  (0 <= exact)%Q → within n exact x → within (S n) exact (fl x).
Proof.
  intros Hex [Hlo Hhi]. unfold within. cbn [power].
  pose proof (power_up_ge n) as Hup.
  pose proof (power_down_range n) as [Hd0 Hd1].
  pose proof eps_pos as He. pose proof eps_lt_1 as He1.
  set (Pd := power (1 - eps) n) in *. set (Pu := power (1 + eps) n) in *.
  assert (0 <= Pd * exact)%Q by (apply Qmult_le_0_compat; lra).
  destruct (fl_error x) as [Hfl Hfh]; [lra|].
  split.
  - eapply Qle_trans; [|exact Hfl].
    rewrite <-Qmult_assoc. apply Qmult_le_l; lra.
  - eapply Qle_trans; [exact Hfh|].
    rewrite <-Qmult_assoc. apply Qmult_le_l; lra.
Qed.

Lemma within_div n exact x c :
  (0 < c)%Q → within n exact x → within n (exact / c) (x / c).
Proof.
  intros Hc [Hlo Hhi]. unfold within.
  assert (0 <= / c)%Q by (apply Qinv_le_0_compat; lra).
  unfold Qdiv. rewrite !Qmult_assoc. split; by apply Qmult_le_compat_r.
Qed.

(** Adding [n] non-negative doubles from left to right is off by a
    relative error of at most [(1 + 2^-53)^n - 1]. *)
Lemma foldl_add_error l : ∀ a A k,
  (0 <= A)%Q →
  (power (1 - eps) k * A <= a)%Q → (a <= power (1 + eps) k * A)%Q →
  Forall (λ x, 0 <= x)%Q l →
  (power (1 - eps) (k + length l) * (A + foldr Qplus 0 l)
     <= foldl Double.add a l)%Q
  ∧ (foldl Double.add a l
     <= power (1 + eps) (k + length l) * (A + foldr Qplus 0 l))%Q.
Proof.
  induction l as [|x l IH]; intros a A k HA Hlo Hhi Hl; cbn [foldl foldr length].
  - rewrite Nat.add_0_r, Qplus_0_r. done.
  - apply Forall_cons in Hl as [Hx Hl].
    pose proof (power_up_ge k) as Hup.
    pose proof (power_down_range k) as [Hd0 Hd1].
    pose proof eps_pos as He. pose proof eps_lt_1 as He1.
    set (Pd := power (1 - eps) k) in *. set (Pu := power (1 + eps) k) in *.
    assert (0 <= Pd * A)%Q by (apply Qmult_le_0_compat; lra).
    assert (0 <= a)%Q as Ha by lra.
    destruct (fl_error (a + x)) as [Hfl Hfh]; [lra|].
    replace (k + S (length l)) with (S k + length l) by lia.
    assert (A + (x + foldr Qplus 0 l) == (A + x) + foldr Qplus 0 l)%Q as ->
      by ring.
    apply IH; [lra| | |done]; cbn [power]; unfold Double.add;
      fold Pd; fold Pu.
    + assert (Pd * x <= 1 * x)%Q by (apply Qmult_le_compat_r; lra).
      assert (Pd * (A + x) <= a + x)%Q
        by (rewrite Qmult_plus_distr_r; lra).
      assert (Pd * (A + x) * (1 - eps) <= (a + x) * (1 - eps))%Q
        by (apply Qmult_le_compat_r; lra).
      eapply Qle_trans; [|exact Hfl].
      assert ((1 - eps) * Pd * (A + x) == Pd * (A + x) * (1 - eps))%Q as ->
        by ring.
      by rewrite (Qmult_comm (1 - eps) (a + x)).
    + assert (1 * x <= Pu * x)%Q by (apply Qmult_le_compat_r; lra).
      assert (a + x <= Pu * (A + x))%Q
        by (rewrite Qmult_plus_distr_r; lra).
      assert ((a + x) * (1 + eps) <= Pu * (A + x) * (1 + eps))%Q
        by (apply Qmult_le_compat_r; lra).
      eapply Qle_trans; [exact Hfh|].
      assert ((1 + eps) * Pu * (A + x) == Pu * (A + x) * (1 + eps))%Q as ->
        by ring.
      by rewrite (Qmult_comm (1 + eps) (a + x)).
Qed.

(** The arithmetic of the usual examples: three tenths do not add up to
    [0.3], and their third is not a tenth. *)
Example tenths :
  Qred tenth = (3602879701896397 # 36028797018963968)%Q
  ∧ Qred (add (add tenth tenth) tenth)
    = (1351079888211149 # 4503599627370496)%Q
  ∧ Qred (fl (3 # 10)) = (5404319552844595 # 18014398509481984)%Q
  ∧ Qred (div (add (add (add 0 tenth) tenth) tenth) 3)
    = (7205759403792795 # 72057594037927936)%Q.
Proof. by vm_compute. Qed.

End DoubleFacts.

(** ** TokenBucket *)

Module TokenBucketFacts.
Import Double DoubleFacts TokenBucket.

Lemma elapsed_nonneg last now :
  (last <= now)%Z →
  (0 <= Double.div (Double.sub (inject_Z now) (inject_Z last)) 1000)%Q.
Proof.
  intros Hnow. unfold Double.div, Double.sub.
  apply fl_nonneg. apply Qle_shift_div_l; [done|]. rewrite Qmult_0_l.
  apply fl_nonneg. unfold Qminus. rewrite <-inject_Z_opp, <-inject_Z_plus.
  change 0%Q with (inject_Z 0). rewrite <-Zle_Qle. lia.
Qed.

Lemma refill_ok b now :
  bucket_ok b → (lastRefill b <= now)%Z →
  bucket_ok (refill b now)
  ∧ capacity (refill b now) = capacity b
  ∧ lastRefill (refill b now) = now.
Proof.
  intros (Hcap & Htok & Hrate & Hlo & Hhi) Hnow.
  unfold refill, bucket_ok, in_range. simpl.
  pose proof (elapsed_nonneg _ _ Hnow) as Hel.
  set (elapsed := Double.div _ 1000) in *.
  assert (0 <= Double.mul elapsed (refillRate b))%Q as Hmul.
  { apply fl_nonneg. by apply Qmult_le_0_compat. }
  assert (0 <= Double.add (tokens b) (Double.mul elapsed (refillRate b)))%Q
    as Hadd.
  { apply fl_nonneg. lra. }
  split_and!; try done.
  - apply representable_Qmin; [done|apply representable_fl].
  - apply Q.min_glb; lra.
  - apply Q.le_min_l.
Qed.

Lemma consume_Some b now amount :
  consume b now (Some amount)
  = if Qle_bool amount (tokens (refill b now))
    then (true, Bucket (capacity (refill b now))
                       (Double.sub (tokens (refill b now)) amount)
                       (refillRate (refill b now)) (lastRefill (refill b now)))
    else (false, refill b now).
Proof. done. Qed.

Lemma consume_ok b now amount :
  bucket_ok b → (lastRefill b <= now)%Z → (0 <= amount)%Q →
  bucket_ok (consume b now (Some amount)).2
  ∧ capacity (consume b now (Some amount)).2 = capacity b
  ∧ lastRefill (consume b now (Some amount)).2 = now
  ∧ ((consume b now (Some amount)).1 = false →
     tokens (consume b now (Some amount)).2 = tokens (refill b now)).
Proof.
  intros Hb Hnow Hamount.
  destruct (refill_ok b now Hb Hnow)
    as ((Hrcap & Htok & Hrate & Hlo & Hhi) & Hcap & Hlast).
  rewrite consume_Some.
  destruct (Qle_bool amount (tokens (refill b now))) eqn:Hle;
    cbn [fst snd].
  - apply Qle_bool_iff in Hle.
    unfold bucket_ok, in_range. cbn [tokens capacity refillRate lastRefill].
    split_and!; try done.
    + apply representable_fl.
    + apply fl_nonneg. lra.
    + apply fl_le; [done|]. lra.
  - split_and!; done.
Qed.

Lemma run_cons b now amount calls :
  run b ((now, amount) :: calls)
  = (Observation (tokens (refill b now))
                 (consume b now (Some amount)).1
                 (tokens (consume b now (Some amount)).2)
       :: (run (consume b now (Some amount)).2 calls).1,
     (run (consume b now (Some amount)).2 calls).2).
Proof.
  cbn [run]. destruct (consume b now (Some amount)) as [ok b1]. simpl.
  by destruct (run b1 calls).
Qed.

Lemma run_ok calls : ∀ b,
  bucket_ok b → admissible (lastRefill b) calls →
  Forall (λ o, in_range (capacity b) (after_refill o)
               ∧ in_range (capacity b) (after_consume o)
               ∧ (answer o = false → after_consume o = after_refill o))
         (run b calls).1.
Proof.
  induction calls as [|[now amount] calls IH]; intros b Hb Hcalls.
  - constructor.
  - destruct Hcalls as (Hnow & Hamount & Hcalls).
    rewrite run_cons. cbn [fst].
    destruct (refill_ok b now Hb Hnow) as ((_ & _ & _ & Hr) & Hrcap & _).
    destruct (consume_ok b now amount Hb Hnow Hamount)
      as (Hb1 & Hcap & Hlast & Hfalse).
    constructor.
    + cbn [after_refill after_consume answer]. split_and!; [|  |done].
      * by rewrite <-Hrcap.
      * rewrite <-Hcap. apply Hb1.
    + rewrite <-Hcap. apply IH; [done|]. by rewrite Hlast.
Qed.

Lemma new_bucket_ok capacity refillRate t0 :
  representable capacity → (0 <= capacity)%Q → (0 <= refillRate)%Q →
  bucket_ok (new capacity refillRate t0).
Proof.
  intros Hrep Hcap Hrate. unfold bucket_ok, in_range, new. simpl.
  split_and!; [done|done|done|done|lra].
Qed.

(** A bucket of two tokens refilled at one token per second: two calls
    pass, the third is refused, and the refill then follows the clock. *)
Example sample_answers :
  answer <$> (run (new 2 1 0) sample_calls).1 = [true; true; false; false; true].
Proof. by vm_compute. Qed.

(** Ten refills of a tenth of a token leave a little less than one token
    in an emptied bucket of rate one: [getAvailableTokens] then reports 0
    and a [consume] of one token is refused. *)
Example ten_tenths :
  Qred (tokens (run (new 5 1 0) tenth_steps).2)
  = (9007199254740991 # 9007199254740992)%Q
  ∧ (getAvailableTokens (run (new 5 1 0) tenth_steps).2 1000).1 = 0%Z
  ∧ (consume (run (new 5 1 0) tenth_steps).2 1000 None).1 = false.
Proof. by vm_compute. Qed.

(** Claim C5 as stated fails: with the clock set back by a second
    between two calls, an emptied bucket holds minus one token after the
    refill; so does a bucket of negative refill rate after five seconds,
    and a bucket of negative capacity from the start.  All amounts are
    non-negative. *)
Lemma token_bucket_negative_tokens :
  Exists (λ o, (after_refill o == -1)%Q)
    (run (new 5 1 1000) [(1000%Z, 5%Q); (0%Z, 0%Q)]).1
  ∧ Exists (λ o, (after_refill o < 0)%Q)
      (run (new 2 (-1) 0) [(5000%Z, 0%Q)]).1
  ∧ Exists (λ o, (after_refill o < 0)%Q)
      (run (new (-1) 1 0) [(0%Z, 0%Q)]).1.
Proof.
  split_and!.
  - vm_compute. apply Exists_cons_tl, Exists_cons_hd. reflexivity.
  - vm_compute. apply Exists_cons_hd. reflexivity.
  - vm_compute. apply Exists_cons_hd. reflexivity.
Qed.

(** Claim C5, amended.  For a bucket of non-negative capacity and refill
    rate, and every sequence of [consume] calls with non-negative amounts
    at clock readings that do not run backwards, the token count right
    after each refill and the one when each call returns lie between 0 and
    the capacity; a call that answers [false] leaves the refilled count as
    it is.  The capacity is a double, as every JS number is. *)
Theorem token_bucket_conservation (capacity refillRate : Q) (t0 : Z)
    (calls : list (Z * Q)) :
  Double.representable capacity →
  (0 <= capacity)%Q → (0 <= refillRate)%Q → admissible t0 calls →
  Forall (λ o, in_range capacity (after_refill o)
               ∧ in_range capacity (after_consume o)
               ∧ (answer o = false → after_consume o = after_refill o))
         (run (new capacity refillRate t0) calls).1.
Proof.
  intros Hrep Hcap Hrate Hcalls.
  apply (run_ok calls (new capacity refillRate t0)); [|done].
  by apply new_bucket_ok.
Qed.

Lemma token_bucket_conservation_witness :
  Double.representable 2 ∧ (0 <= 2)%Q ∧ (0 <= 1)%Q ∧ admissible 0 sample_calls
  ∧ Forall (λ o, in_range 2 (after_refill o)
                 ∧ in_range 2 (after_consume o)
                 ∧ (answer o = false → after_consume o = after_refill o))
           (run (new 2 1 0) sample_calls).1.
Proof.
  assert (Double.representable 2) as Hrep by (vm_compute; reflexivity).
  assert (0 <= 2)%Q as Hcap by (unfold Qle; simpl; lia).
  assert (0 <= 1)%Q as Hrate by (unfold Qle; simpl; lia).
  assert (admissible 0 sample_calls) as Hcalls
    by (simpl; unfold Qle; simpl; lia).
  split; [exact Hrep|]. split; [exact Hcap|]. split; [exact Hrate|].
  split; [exact Hcalls|].
  exact (token_bucket_conservation 2 1 0 sample_calls Hrep Hcap Hrate Hcalls).
Defined.

Lemma refill_again b now :
  bucket_ok b → lastRefill b = now →
  (tokens (refill b now) == tokens b)%Q.
Proof.
  intros (_ & Htok & _ & _ & Hhi) <-. unfold refill. cbn [tokens].
  unfold Double.add, Double.mul, Double.div, Double.sub.
  rewrite (fl_Eq (inject_Z (lastRefill b) - inject_Z (lastRefill b)))
    by ring.
  rewrite (fl_Eq (0 / 1000)) by reflexivity.
  rewrite (fl_Eq (0 * refillRate b)) by ring.
  unfold representable in Htok. rewrite Qplus_0_r, Htok.
  by apply Q.min_r.
Qed.

Lemma run_final_ok calls : ∀ b,
  bucket_ok b → admissible (lastRefill b) calls →
  bucket_ok (run b calls).2 ∧ capacity (run b calls).2 = capacity b.
Proof.
  induction calls as [|[now amount] calls IH]; intros b Hb Hcalls; [done|].
  destruct Hcalls as (Hnow & Hamount & Hcalls).
  rewrite run_cons. cbn [snd].
  destruct (consume_ok b now amount Hb Hnow Hamount) as (Hb1 & Hcap & Hlast & _).
  destruct (IH _ Hb1) as [Hok Hcap']; [by rewrite Hlast|].
  split; [done|congruence].
Qed.

(** X16.  For a bucket of non-negative capacity (a double) and refill
    rate, after any admissible calls and at a clock reading not before the
    last refill, [getAvailableTokens] reports a whole number between 0 and
    the capacity, and a [consume] at that same instant of any amount up to
    that number succeeds: its refill adds nothing, no time having
    passed. *)
Theorem available_tokens_can_be_consumed (capacity refillRate : Q) (t0 : Z)
    (calls : list (Z * Q)) (now : Z) :
  Double.representable capacity →
  (0 <= capacity)%Q → (0 <= refillRate)%Q → admissible t0 calls →
  (lastRefill (run (new capacity refillRate t0) calls).2 <= now)%Z →
  let r := getAvailableTokens (run (new capacity refillRate t0) calls).2 now in
  (0 <= r.1)%Z ∧ (inject_Z r.1 <= capacity)%Q
  ∧ ∀ amount, (amount <= inject_Z r.1)%Q →
      (consume r.2 now (Some amount)).1 = true.
Proof.
  intros Hrep Hcap Hrate Hcalls Hnow r.
  destruct (run_final_ok calls (new capacity refillRate t0)) as [Hb Hc];
    [by apply new_bucket_ok|done|].
  set (b := (run (new capacity refillRate t0) calls).2) in *.
  destruct (refill_ok b now Hb Hnow) as (Hb1 & Hcap1 & Hlast1).
  pose proof Hb1 as (_ & _ & _ & Hlo & Hhi).
  unfold r, getAvailableTokens. cbn [fst snd].
  pose proof (Qfloor_le (tokens (refill b now))) as Hfl.
  split_and!.
  - change 0%Z with (Qfloor 0). by apply Qfloor_resp_le.
  - rewrite Hcap1, Hc in Hhi. cbn [TokenBucket.capacity new] in Hhi. lra.
  - intros amount Hamount. rewrite consume_Some.
    pose proof (refill_again (refill b now) now Hb1 Hlast1) as Heq.
    assert (Qle_bool amount (tokens (refill (refill b now) now)) = true) as ->; [|done].
    apply Qle_bool_iff. rewrite Heq. lra.
Qed.

Lemma available_tokens_can_be_consumed_witness :
  Double.representable 2 ∧ (0 <= 2)%Q ∧ (0 <= 1)%Q ∧ admissible 0 sample_calls
  ∧ (lastRefill (run (new 2 1 0) sample_calls).2 <= 2000)%Z
  ∧ let r := getAvailableTokens (run (new 2 1 0) sample_calls).2 2000 in
    (0 <= r.1)%Z ∧ (inject_Z r.1 <= 2)%Q
    ∧ ∀ amount, (amount <= inject_Z r.1)%Q →
        (consume r.2 2000 (Some amount)).1 = true.
Proof.
  assert (Double.representable 2) as Hrep by (vm_compute; reflexivity).
  assert (0 <= 2)%Q as Hcap by (unfold Qle; simpl; lia).
  assert (0 <= 1)%Q as Hrate by (unfold Qle; simpl; lia).
  assert (admissible 0 sample_calls) as Hcalls
    by (simpl; unfold Qle; simpl; lia).
  assert (lastRefill (run (new 2 1 0) sample_calls).2 <= 2000)%Z as Hnow
    by (vm_compute; discriminate).
  split; [exact Hrep|]. split; [exact Hcap|]. split; [exact Hrate|].
  split; [exact Hcalls|]. split; [exact Hnow|].
  exact (available_tokens_can_be_consumed 2 1 0 sample_calls 2000
           Hrep Hcap Hrate Hcalls Hnow).
Defined.

End TokenBucketFacts.

(** ** Wait-time statistics *)

Module AnalyticsFacts.
Import Double DoubleFacts Analytics.

Lemma round_nearest x : nearest x (JS.round x).
Proof.
  unfold nearest, JS.round.
  pose proof (Qfloor_le (x + (1 # 2))). pose proof (Qlt_floor (x + (1 # 2))) as Hlt.
  rewrite inject_Z_plus in Hlt. change (inject_Z 1) with 1%Q in Hlt.
  split; lra.
Qed.

Lemma nearest_unique x z1 z2 : nearest x z1 → nearest x z2 → z1 = z2.
Proof.
  unfold nearest. intros [H1 H2] [H3 H4].
  assert (inject_Z z1 < inject_Z z2 + 1)%Q as Ha by lra.
  assert (inject_Z z2 < inject_Z z1 + 1)%Q as Hb by lra.
  change 1%Q with (inject_Z 1) in Ha, Hb. rewrite <-inject_Z_plus in Ha, Hb.
  rewrite <-Zlt_Qlt in Ha, Hb. lia.
Qed.


Lemma truthy_time_spec time : truthy_time time = true ↔ counts time.
Proof.
  destruct time as [ms|]; simpl; [|done].
  by rewrite negb_true_iff, Z.eqb_neq.
Qed.

Lemma qualifies_considered t : qualifies t = true ↔ considered t.
Proof.
  unfold qualifies, considered.
  rewrite !andb_true_iff, !bool_decide_eq_true, !truthy_time_spec. tauto.
Qed.

Lemma filter_qualifies (tickets : list ticket) :
  filter (λ t, qualifies t = true) tickets = filter considered tickets.
Proof. apply list_filter_iff. intros t. apply qualifies_considered. Qed.

Lemma waitTimes_of ts :
  Forall considered ts →
  ∃ ws, mapM waitTime ts = Some ws ∧ Forall2 wait_of ts ws.
Proof.
  induction 1 as [|t ts (_ & Hc & Hd) _ (ws & Hws & Hall)].
  - by exists [].
  - destruct (createdAt t) as [c|] eqn:Hct; [|done].
    destruct (completedAt t) as [d|] eqn:Hdt; [|done].
    exists (minutes c d :: ws). split.
    + change (mapM waitTime (t :: ts))
        with (y ← waitTime t; k ← mapM waitTime ts; mret (y :: k)).
      rewrite Hws. unfold waitTime. by rewrite Hct, Hdt.
    + constructor; [|done]. by exists c, d.
Qed.

Lemma foldl_Qmax l : ∀ a,
  (foldl Qmax a l ∈ a :: l) ∧ ∀ y, y ∈ a :: l → (y <= foldl Qmax a l)%Q.
Proof.
  induction l as [|x l IH]; intros a; simpl.
  - split; [by left|]. intros y ->%list_elem_of_singleton. apply Qle_refl.
  - destruct (IH (Qmax a x)) as [Hin Hub]. split.
    + apply elem_of_cons in Hin as [Hin|Hin]; [|by do 2 right].
      rewrite Hin. unfold Qmax, GenericMinMax.gmax.
      destruct (a ?= x)%Q; [left|right; left|left].
    + assert (Qmax a x <= foldl Qmax (Qmax a x) l)%Q as Hm by (apply Hub; left).
      intros y [->|[->|Hy]%elem_of_cons]%elem_of_cons.
      * eapply Qle_trans; [apply Q.le_max_l|exact Hm].
      * eapply Qle_trans; [apply Q.le_max_r|exact Hm].
      * apply Hub. by right.
Qed.

Lemma max_of_spec l mx : JS.max_of l = Some mx → is_max l mx.
Proof. destruct l as [|x l]; intros [= <-]. apply foldl_Qmax. Qed.

(** The sign of the rounded difference is the sign of the difference. *)
Lemma ascending_spec a b : ascending a b = true ↔ (b < a)%Q.
Proof.
  unfold ascending, Double.sub.
  destruct (0 ?= fl (a - b))%Q eqn:Hc.
  - apply Qeq_alt in Hc. split; [done|]. intros Hab.
    assert (0 < fl (a - b))%Q by (apply fl_pos_iff; lra). lra.
  - apply Qlt_alt in Hc. apply (proj1 (fl_pos_iff _)) in Hc.
    split; [intros _; lra|done].
  - apply Qgt_alt in Hc. split; [done|]. intros Hab.
    assert (0 < fl (a - b))%Q by (apply fl_pos_iff; lra). lra.
Qed.

Lemma ascending_sorted l : StronglySorted Qle (JS.sort_by ascending l).
Proof.
  apply sort_by_sorted; [intros x y z; apply Qle_trans| |]; intros a b H.
  - destruct (Qlt_le_dec b a) as [Hlt|Hle]; [|done].
    apply ascending_spec in Hlt. congruence.
  - apply ascending_spec in H. by apply Qlt_le_weak.
Qed.

Lemma is_max_perm l1 l2 mx : l1 ≡ₚ l2 → is_max l1 mx → is_max l2 mx.
Proof.
  intros Hperm [Hin Hub]. split; [by rewrite <-Hperm|].
  intros y Hy. apply Hub. by rewrite Hperm.
Qed.

Lemma stats_of_waits (ws : list Q) :
  ws ≠ [] →
  let sorted := JS.sort_by ascending ws in
  ∃ avg median mx,
    mean sorted = Some avg
    ∧ sorted !! (length sorted / 2) = Some median
    ∧ JS.max_of sorted = Some mx
    ∧ is_max ws mx.
Proof.
  intros Hne sorted.
  pose proof (sort_by_perm ascending ws) as Hperm. fold sorted in Hperm.
  assert (0 < length sorted) as Hlen.
  { rewrite Hperm. destruct ws; [done|simpl; lia]. }
  destruct (lookup_lt_is_Some_2 sorted (length sorted / 2)) as [median Hmed].
  { apply Nat.div_lt; lia. }
  destruct sorted as [|x rest] eqn:Hsorted; [simpl in Hlen; lia|].
  eexists _, median, _. split_and!; [done|done|done|].
  eapply is_max_perm; [exact Hperm|]. by apply max_of_spec.
Qed.

Lemma length_pos_Q {A} (l : list A) :
  l ≠ [] → (0 < inject_Z (Z.of_nat (length l)))%Q.
Proof.
  intros Hne. change 0%Q with (inject_Z 0). rewrite <-Zlt_Qlt.
  destruct l; [done|simpl; lia].
Qed.

Lemma foldr_Qplus_perm l1 l2 :
  l1 ≡ₚ l2 → (foldr Qplus 0 l1 == foldr Qplus 0 l2)%Q.
Proof.
  induction 1 as [|x l1 l2 _ IH|x y l|l1 l2 l3 _ IH1 _ IH2]; simpl.
  - done.
  - by rewrite IH.
  - ring.
  - by rewrite IH1.
Qed.

Lemma foldr_Qplus_nonneg l :
  Forall (λ x, 0 <= x)%Q l → (0 <= foldr Qplus 0 l)%Q.
Proof. induction 1; simpl; lra. Qed.

(** The mean that the doubles give is the mean up to the rounding of as
    many operations as there are values. *)
Lemma mean_error l avg :
  Forall (λ x, 0 <= x)%Q l → mean l = Some avg →
  within (length l) (arithmetic_mean l) avg.
Proof.
  unfold within.
  destruct l as [|x l]; [done|]. intros [Hx Hl]%Forall_cons [= <-].
  pose proof (length_pos_Q (x :: l) ltac:(done)) as Hn.
  set (n := inject_Z (Z.of_nat (length (x :: l)))) in *.
  destruct (foldl_add_error l x x 0) as [Hlo Hhi];
    [done|cbn [power]; lra|cbn [power]; lra|done|].
  cbn [Nat.add] in Hlo, Hhi.
  pose proof (foldr_Qplus_nonneg l Hl) as Hsum.
  pose proof (power_down_range (length l)) as [Hd0 Hd1].
  pose proof (power_up_ge (length l)) as Hup.
  pose proof eps_pos as He. pose proof eps_lt_1 as He1.
  set (Pd := power (1 - eps) (length l)) in *.
  set (Pu := power (1 + eps) (length l)) in *.
  set (s := foldl Double.add x l) in *.
  assert (0 <= Pd * (x + foldr Qplus 0 l))%Q
    by (apply Qmult_le_0_compat; lra).
  assert (0 <= s / n)%Q as Hq.
  { apply Qle_shift_div_l; [done|]. lra. }
  destruct (fl_error (s / n) Hq) as [Hfl Hfh].
  unfold arithmetic_mean, Double.div.
  change (inject_Z (Z.of_nat (length (x :: l)))) with n.
  change (length (x :: l)) with (S (length l)). cbn [power foldr].
  fold Pd Pu s. split.
  - eapply Qle_trans; [|exact Hfl].
    assert ((1 - eps) * Pd * ((x + foldr Qplus 0 l) / n)
            == (Pd * (x + foldr Qplus 0 l)) / n * (1 - eps))%Q as ->
      by (field; lra).
    rewrite (Qmult_comm (1 - eps)).
    apply Qmult_le_compat_r; [|lra].
    apply Qmult_le_compat_r; [done|]. apply Qinv_le_0_compat. lra.
  - eapply Qle_trans; [exact Hfh|].
    assert ((1 + eps) * Pu * ((x + foldr Qplus 0 l) / n)
            == (Pu * (x + foldr Qplus 0 l)) / n * (1 + eps))%Q as ->
      by (field; lra).
    rewrite (Qmult_comm (1 + eps)).
    apply Qmult_le_compat_r; [|lra].
    apply Qmult_le_compat_r; [done|]. apply Qinv_le_0_compat. lra.
Qed.

Lemma arithmetic_mean_perm l1 l2 :
  l1 ≡ₚ l2 → (arithmetic_mean l1 == arithmetic_mean l2)%Q.
Proof.
  intros Hperm. unfold arithmetic_mean.
  by rewrite (foldr_Qplus_perm _ _ Hperm), Hperm.
Qed.




(** The wait in minutes that the doubles give is the exact one up to
    three roundings. *)
Lemma minutes_error c d :
  (c <= d)%Z →
  within 3 ((inject_Z d - inject_Z c) / 1000 / 60) (minutes c d).
Proof.
  intros Hcd. unfold minutes, Double.div, Double.sub.
  assert (0 <= inject_Z d - inject_Z c)%Q as Hpos.
  { unfold Qminus. rewrite <-inject_Z_opp, <-inject_Z_plus.
    change 0%Q with (inject_Z 0). rewrite <-Zle_Qle. lia. }
  apply within_fl.
  { apply Qle_shift_div_l; [done|]. rewrite Qmult_0_l.
    apply Qle_shift_div_l; [done|]. by rewrite Qmult_0_l. }
  apply within_div; [done|]. apply within_fl.
  { apply Qle_shift_div_l; [done|]. by rewrite Qmult_0_l. }
  apply within_div; [done|]. apply within_fl; [done|]. apply within_refl.
Qed.

(** Claim C7 as stated fails on two counts.  A completed ticket created
    at the epoch (time value 0) has both timestamps present and a wait of
    ten minutes, but is not considered: the statistics are all zeros.  And
    the mean is the one the doubles give: for waits of 8 ms and 59992 ms,
    whose mean is half a minute, on the dot, the average returned is 0,
    where [Math.round] takes a half to 1. *)
Lemma wait_time_stats_epoch_and_rounding :
  (tstatus (completed_in "a" 0 600000) = Completed
   ∧ is_Some (createdAt (completed_in "a" 0 600000))
   ∧ is_Some (completedAt (completed_in "a" 0 600000))
   ∧ calculateWaitTimeStats [completed_in "a" 0 600000] = Some (Stats 0 0 0))
  ∧ (calculateWaitTimeStats [completed_in "a" 1 8; completed_in "b" 1 59992]
     = Some (Stats 0 1 1)
     ∧ ((8 # 60000) + (59992 # 60000)) / 2 == 1 # 2
     ∧ JS.round (((8 # 60000) + (59992 # 60000)) / 2) = 1%Z)%Q.
Proof.
  split_and!; try by vm_compute. all: by eexists.
Qed.

(** Claim C7, amended.  [calculateWaitTimeStats] considers exactly the
    tickets with status Completed and both timestamps truthy: present and
    not the number 0.  With none it returns all zeros.  Otherwise it
    returns the integers nearest (halves going up) to three numbers: the
    mean of the per-ticket wait times in minutes as the doubles give it
    (the ascending values added from left to right, the sum divided by
    their number; for waits that are not negative this is the mean up to
    the rounding of [n] operations), the element at index [n / 2] of the
    ascending order of the wait times (no interpolation for even [n]), and
    their maximum.  Wait times 10, 20, 30 give 20, 20, 30, and wait times
    10, 20, 30, 40 give the median 30. *)
Theorem wait_time_stats (tickets : list ticket) :
  (∃ r, calculateWaitTimeStats tickets = Some r
     ∧ (filter considered tickets = [] → r = Stats 0 0 0)
     ∧ (filter considered tickets ≠ [] →
        ∃ waits sorted avg median mx,
          Forall2 wait_of (filter considered tickets) waits
          ∧ sorted ≡ₚ waits ∧ StronglySorted Qle sorted
          ∧ mean sorted = Some avg
          ∧ (Forall (λ w, 0 <= w)%Q waits →
             within (length waits) (arithmetic_mean waits) avg)
          ∧ sorted !! (length sorted / 2) = Some median
          ∧ is_max waits mx
          ∧ nearest avg (avgWaitTime r)
          ∧ nearest median (medianWaitTime r)
          ∧ nearest mx (maxWaitTime r)))
  ∧ calculateWaitTimeStats
      [completed_after "a" 5 30; Ticket "b" 1 Booked (Some 9%Z) None None;
       completed_after "c" 7 10; completed_after "d" 1700000000000 20]
    = Some (Stats 20 20 30)
  ∧ calculateWaitTimeStats
      [completed_after "a" 1 40; completed_after "b" 1 10;
       completed_after "c" 1 30; completed_after "d" 1 20]
    = Some (Stats 25 30 40).
Proof.
  split_and!; [|by vm_compute|by vm_compute].
  unfold calculateWaitTimeStats. rewrite filter_qualifies.
  set (qual := filter considered tickets).
  case_decide as Hlen.
  - exists (Stats 0 0 0). split_and!; [done|done|].
    intros Hne. destruct qual; [done|simpl in Hlen; lia].
  - destruct (waitTimes_of qual) as (ws & -> & Hws).
    { apply Forall_forall. intros t Ht. by apply list_elem_of_filter in Ht as [? _]. }
    assert (ws ≠ []) as Hne.
    { intros ->. apply Forall2_length in Hws. simpl in Hws. lia. }
    destruct (stats_of_waits ws Hne)
      as (avg & median & mx & Hmean & Hmed & Hmax & Hismax).
    cbn [mbind option_bind]. rewrite Hmean. cbn [mbind option_bind].
    rewrite Hmed. cbn [mbind option_bind]. rewrite Hmax. cbn [mbind option_bind].
    eexists. split; [done|]. split.
    + intros Hq. rewrite Hq in Hlen. done.
    + intros _. exists ws, (JS.sort_by ascending ws), avg, median, mx.
      cbn [avgWaitTime medianWaitTime maxWaitTime].
      split_and!; [done|apply sort_by_perm|apply ascending_sorted|done| |done|done
                  |apply round_nearest|apply round_nearest|apply round_nearest].
      intros Hpos. pose proof (sort_by_perm ascending ws) as Hperm.
      assert (Forall (λ w, 0 <= w)%Q (JS.sort_by ascending ws)) as Hspos
        by (by rewrite Hperm).
      destruct (mean_error _ _ Hspos Hmean) as [Hl Hh].
      unfold within. rewrite <-(arithmetic_mean_perm _ _ Hperm).
      rewrite <-(Permutation_length Hperm). done.
Qed.

(** *** Sums without rounding error *)

Lemma foldl_add_comp l : ∀ a a',
  (a == a')%Q → (foldl Double.add a l == foldl Double.add a' l)%Q.
Proof.
  induction l as [|x l IH]; intros a a' Ha; cbn [foldl]; [done|].
  apply IH. unfold Double.add. by rewrite Ha.
Qed.

Lemma total_abs_nonneg l : (0 <= total (Z.abs <$> l))%Z.
Proof. induction l as [|x l IH]; cbn [total fmap list_fmap]; lia. Qed.

(** Whole numbers whose magnitudes total at most [2^53] are added without
    rounding. *)
Lemma foldl_add_exact l : ∀ a,
  (Z.abs a + total (Z.abs <$> l) <= 2 ^ 53)%Z →
  (foldl Double.add (inject_Z a) (inject_Z <$> l) == inject_Z (a + total l))%Q.
Proof.
  induction l as [|x l IH]; intros a Hb; cbn [foldl fmap list_fmap total].
  - by rewrite Z.add_0_r.
  - cbn [fmap list_fmap total] in Hb.
    pose proof (total_abs_nonneg l).
    rewrite (foldl_add_comp _ _ (inject_Z (a + x))).
    + rewrite IH by lia. by rewrite Z.add_assoc.
    + unfold Double.add. rewrite <-inject_Z_plus. apply fl_Z. lia.
Qed.

Lemma total_inject l :
  (inject_Z (total l) == foldr Qplus 0 (inject_Z <$> l))%Q.
Proof.
  induction l as [|x l IH]; cbn [total foldr fmap list_fmap]; [done|].
  by rewrite inject_Z_plus, IH.
Qed.

Lemma sum_le hi l :
  Forall (λ x, x <= hi)%Q l →
  (foldr Qplus 0 l <= inject_Z (Z.of_nat (length l)) * hi)%Q.
Proof.
  induction 1 as [|x l Hhi _ IH].
  - simpl. ring_simplify. apply Qle_refl.
  - cbn [length foldr]. rewrite Nat2Z.inj_succ, <-Z.add_1_r, inject_Z_plus.
    change (inject_Z 1) with 1%Q.
    apply Qle_trans with (hi + inject_Z (Z.of_nat (length l)) * hi)%Q;
      [|ring_simplify; apply Qle_refl]. by apply Qplus_le_compat.
Qed.

Lemma sum_ge lo l :
  Forall (λ x, lo <= x)%Q l →
  (inject_Z (Z.of_nat (length l)) * lo <= foldr Qplus 0 l)%Q.
Proof.
  induction 1 as [|x l Hlo _ IH].
  - simpl. ring_simplify. apply Qle_refl.
  - cbn [length foldr]. rewrite Nat2Z.inj_succ, <-Z.add_1_r, inject_Z_plus.
    change (inject_Z 1) with 1%Q.
    apply Qle_trans with (lo + inject_Z (Z.of_nat (length l)) * lo)%Q;
      [ring_simplify; apply Qle_refl|]. by apply Qplus_le_compat.
Qed.

Lemma exact_mean_bounds lo hi l :
  l ≠ [] → Forall (λ z, lo <= inject_Z z ∧ inject_Z z <= hi)%Q l →
  (lo <= exact_mean l)%Q ∧ (exact_mean l <= hi)%Q.
Proof.
  intros Hne Hall. unfold exact_mean. rewrite total_inject.
  pose proof (length_pos_Q l Hne) as Hlen.
  rewrite <-(length_fmap inject_Z l) in Hlen |- *.
  split.
  - apply Qle_shift_div_l; [done|]. rewrite Qmult_comm. apply sum_ge.
    apply Forall_fmap. eapply Forall_impl; [exact Hall|]. by intros z [??].
  - apply Qle_shift_div_r; [done|]. rewrite Qmult_comm. apply sum_le.
    apply Forall_fmap. eapply Forall_impl; [exact Hall|]. by intros z [??].
Qed.

Lemma total_abs_drop k l :
  (total (Z.abs <$> drop k l) <= total (Z.abs <$> l))%Z.
Proof.
  revert k. induction l as [|x l IH]; intros [|k];
    cbn [drop skipn total fmap list_fmap]; try lia.
  specialize (IH k). lia.
Qed.

(** X17.  On whole numbers whose magnitudes total at most [2^53], for a
    window size of at least one and a non-empty list,
    [calculateMovingAverage] is the double nearest to the mean of the last
    [windowSize] values, or of all of them when there are fewer; it lies
    between any two doubles that enclose all the values. *)
Theorem moving_average_is_mean_of_recent (values : list Z) (windowSize : Z) :
  (1 <= windowSize)%Z → values ≠ [] →
  (total (Z.abs <$> values) <= 2 ^ 53)%Z →
  ∃ q,
    calculateMovingAverage (inject_Z <$> values) (Some windowSize) = Some q
    ∧ (q == Double.fl (exact_mean (last_values (Z.to_nat windowSize) values)))%Q
    ∧ ∀ lo hi, Double.representable lo → Double.representable hi →
        Forall (λ z, lo <= inject_Z z ∧ inject_Z z <= hi)%Q values →
        (lo <= q)%Q ∧ (q <= hi)%Q.
Proof.
  intros Hw Hne Hsum.
  assert (0 < length values) as Hlen by (destruct values; [done|simpl; lia]).
  set (recent := last_values (Z.to_nat windowSize) values).
  assert (recent ≠ []) as Hrecent.
  { unfold recent, last_values. intros Hnil.
    apply (f_equal length) in Hnil. rewrite length_drop in Hnil.
    simpl in Hnil. lia. }
  assert (total (Z.abs <$> recent) <= 2 ^ 53)%Z as Hrsum.
  { unfold recent, last_values.
    pose proof (total_abs_drop (length values - Z.to_nat windowSize) values).
    lia. }
  assert (foldl Double.add 0%Q (inject_Z <$> recent) == inject_Z (total recent))%Q
    as Hexact.
  { change 0%Q with (inject_Z 0). rewrite foldl_add_exact by (simpl; lia).
    by rewrite Z.add_0_l. }
  assert (∀ q, (q == Double.fl (exact_mean recent))%Q →
            ∀ lo hi, Double.representable lo → Double.representable hi →
              Forall (λ z, lo <= inject_Z z ∧ inject_Z z <= hi)%Q values →
              (lo <= q)%Q ∧ (q <= hi)%Q) as Hbounds.
  { intros q Hq lo hi Hlo Hhi Hall. rewrite Hq.
    destruct (exact_mean_bounds lo hi recent Hrecent) as [Hl Hh].
    { rewrite Forall_forall in Hall |- *. intros z Hz. apply Hall.
      eapply elem_of_sublist; [exact Hz|]. apply sublist_drop. }
    split; [by apply fl_ge|by apply fl_le]. }
  unfold calculateMovingAverage. cbn [default from_option id].
  rewrite length_fmap, decide_False by lia. case_decide as Hshort.
  - eexists. split; [done|].
    assert (recent = values) as Hall.
    { unfold recent, last_values.
      replace (length values - Z.to_nat windowSize) with 0 by lia. done. }
    rewrite Hall in *.
    assert (Double.div (foldl Double.add 0%Q (inject_Z <$> values))
              (inject_Z (Z.of_nat (length values)))
            == Double.fl (exact_mean values))%Q as Hq.
    { unfold Double.div, exact_mean. by rewrite Hexact. }
    split; [done|]. by apply Hbounds.
  - rewrite decide_False by lia. eexists. split; [done|].
    assert (slice_from (inject_Z <$> values) (- windowSize)
            = inject_Z <$> recent) as Hslice.
    { unfold slice_from, recent, last_values. rewrite decide_True by lia.
      rewrite length_fmap, fmap_drop. f_equal. lia. }
    rewrite Hslice.
    assert (length recent = Z.to_nat windowSize) as Hk.
    { unfold recent, last_values. rewrite length_drop. lia. }
    assert (Double.div (foldl Double.add 0%Q (inject_Z <$> recent))
              (inject_Z windowSize)
            == Double.fl (exact_mean recent))%Q as Hq.
    { unfold Double.div, exact_mean. rewrite Hexact, Hk, Z2Nat.id by lia. done. }
    split; [done|]. by apply Hbounds.
Qed.

Lemma moving_average_is_mean_of_recent_witness :
  (1 <= 2)%Z ∧ [1; 2; 6]%Z ≠ []
  ∧ (total (Z.abs <$> [1; 2; 6]%Z) <= 2 ^ 53)%Z
  ∧ ∃ q,
      calculateMovingAverage (inject_Z <$> [1; 2; 6]%Z) (Some 2%Z) = Some q
      ∧ (q == Double.fl (exact_mean (last_values (Z.to_nat 2) [1; 2; 6]%Z)))%Q
      ∧ ∀ lo hi, Double.representable lo → Double.representable hi →
          Forall (λ z, lo <= inject_Z z ∧ inject_Z z <= hi)%Q [1; 2; 6]%Z →
          (lo <= q)%Q ∧ (q <= hi)%Q.
Proof.
  assert (1 <= 2)%Z as Hw by lia.
  assert ([1; 2; 6]%Z ≠ []) as Hne by discriminate.
  assert (total (Z.abs <$> [1; 2; 6]%Z) <= 2 ^ 53)%Z as Hsum
    by (vm_compute; discriminate).
  split; [exact Hw|]. split; [exact Hne|]. split; [exact Hsum|].
  exact (moving_average_is_mean_of_recent [1; 2; 6]%Z 2 Hw Hne Hsum).
Defined.

(** A window of two over 1, 2, 6 averages 2 and 6; an empty list gives 0
    and a window of zero no finite number.  Three tenths average a little
    more than a tenth. *)
Example moving_average_samples :
  map (option_map Qred)
    [calculateMovingAverage [1%Q; 2%Q; 6%Q] (Some 2%Z);
     calculateMovingAverage [] None;
     calculateMovingAverage [1%Q; 2%Q; 6%Q] None;
     calculateMovingAverage [1%Q] (Some 0%Z);
     calculateMovingAverage [tenth; tenth; tenth] None]
  = [Some 4%Q; Some 0%Q; Some 3%Q; None;
     Some (7205759403792795 # 72057594037927936)%Q]
  ∧ Qred tenth = (3602879701896397 # 36028797018963968)%Q.
Proof. by vm_compute. Qed.

End AnalyticsFacts.

(** ** Load ranking *)

Module ScheduleFacts.
Import Schedule.

Lemma assign_lookup_ne {A} (o : gmap string A) key a who :
  who ≠ key → PlainObject.assign o key a !! who = o !! who.
Proof.
  intros Hne. unfold PlainObject.assign.
  destruct (o !! key); [|case_bool_decide; [done|]];
    by rewrite lookup_insert_ne.
Qed.

Lemma assign_lookup {A} (o : gmap string A) key a :
  key ≠ "__proto__" → PlainObject.assign o key a !! key = Some a.
Proof.
  intros Hne. unfold PlainObject.assign.
  destruct (o !! key); [|rewrite bool_decide_eq_false_2 by done];
    by rewrite lookup_insert_eq.
Qed.

Lemma assign_proto {A} (o : gmap string A) key a :
  o !! "__proto__" = None → PlainObject.assign o key a !! "__proto__" = None.
Proof.
  intros Hnone. destruct (decide (key = "__proto__")) as [->|Hne].
  - unfold PlainObject.assign. rewrite Hnone. by rewrite bool_decide_eq_true_2.
  - by rewrite assign_lookup_ne.
Qed.

(** After the first loop an id of the roster holds the count 0, and any
    other key nothing or the count 0; [__proto__] is never a key. *)
Lemma zero_loads_fold doctors who : ∀ m : gmap string entry,
  (m !! who = None ∨ m !! who = Some (Count 0)) →
  let m' := foldl (λ doctorLoad doc,
                     PlainObject.assign doctorLoad (did doc) (Count 0))
                  m doctors in
  (m' !! who = None ∨ m' !! who = Some (Count 0))
  ∧ (who ≠ "__proto__" →
     m !! who = Some (Count 0) ∨ who ∈ map did doctors →
     m' !! who = Some (Count 0))
  ∧ (m !! "__proto__" = None → m' !! "__proto__" = None).
Proof.
  induction doctors as [|doc doctors IH]; intros m Hm; cbn [foldl].
  - split_and!; [done| |done]. intros _ [?|Hin]; [done|]. by inversion Hin.
  - set (m1 := PlainObject.assign m (did doc) (Count 0)).
    assert (m1 !! who = None ∨ m1 !! who = Some (Count 0)) as Hm1.
    { unfold m1. destruct (decide (who = did doc)) as [->|Hne].
      - unfold PlainObject.assign.
        destruct (m !! did doc) eqn:Hd;
          [|case_bool_decide; [by left|]]; right; by rewrite lookup_insert_eq.
      - by rewrite assign_lookup_ne. }
    destruct (IH m1 Hm1) as (IH1 & IH2 & IH3).
    split_and!; [done| |].
    + intros Hproto Hin. apply IH2; [done|].
      destruct (decide (who = did doc)) as [->|Hne].
      * left. unfold m1. by apply assign_lookup.
      * destruct Hin as [Hin|Hin].
        -- left. unfold m1. by rewrite assign_lookup_ne.
        -- right. cbn [map] in Hin. apply elem_of_cons in Hin as [?|?]; done.
    + intros Hnone. apply IH3. unfold m1. by apply assign_proto.
Qed.

Lemma zero_loads_lookup doctors doc :
  doc ∈ doctors → did doc ≠ "__proto__" →
  zero_loads doctors !! did doc = Some (Count 0).
Proof.
  intros Hin Hproto.
  destruct (zero_loads_fold doctors (did doc) ∅) as (_ & H & _); [by left|].
  apply H; [done|]. right. by apply list_elem_of_fmap_2.
Qed.

Lemma zero_loads_proto doctors : zero_loads doctors !! "__proto__" = None.
Proof.
  destruct (zero_loads_fold doctors "__proto__" ∅) as (_ & _ & H); [by left|].
  by apply H.
Qed.

Lemma tally_lookup tickets who : ∀ (doctorLoad : gmap string entry) n,
  who ≠ "__proto__" → doctorLoad !! who = Some (Count n) →
  foldl tally doctorLoad tickets !! who
  = Some (Count (n + Z.of_nat (length (open_tickets_of who tickets)))).
Proof.
  unfold open_tickets_of.
  induction tickets as [|t tickets IH]; intros doctorLoad n Hproto Hn;
    cbn [foldl].
  - simpl. by rewrite Z.add_0_r.
  - rewrite filter_cons. unfold tally at 2.
    destruct (charged t) as [who'|] eqn:Hch.
    + destruct (decide (who' = who)) as [->|Hne].
      * rewrite decide_True by done.
        rewrite (IH _ (n + 1)%Z); [|done|].
        -- cbn [length]. do 2 f_equal. lia.
        -- rewrite assign_lookup by done. unfold PlainObject.read.
           by rewrite Hn.
      * rewrite decide_False by congruence.
        apply IH; [done|]. by rewrite assign_lookup_ne.
    + rewrite decide_False by done. by apply IH.
Qed.

Lemma tally_proto tickets : ∀ doctorLoad : gmap string entry,
  doctorLoad !! "__proto__" = None →
  foldl tally doctorLoad tickets !! "__proto__" = None.
Proof.
  induction tickets as [|t tickets IH]; intros doctorLoad Hnone; cbn [foldl];
    [done|].
  apply IH. unfold tally. destruct (charged t); [|done]. by apply assign_proto.
Qed.

Lemma reported_load tickets doctors doc :
  doc ∈ doctors →
  reported (PlainObject.read (foldl tally (zero_loads doctors) tickets) (did doc))
  = shown_load tickets doc.
Proof.
  intros Hin. unfold shown_load, PlainObject.read. case_bool_decide as Hproto.
  - rewrite Hproto, tally_proto by apply zero_loads_proto. done.
  - rewrite (tally_lookup tickets (did doc) _ 0 Hproto)
      by (by apply zero_loads_lookup).
    by rewrite Z.add_0_l.
Qed.

(** A doctor called [__proto__] is shown with the prototype object for a
    load, whatever tickets it has; one called [constructor] with its
    count. *)
Example schedule_samples :
  optimizeDoctorSchedule
    [Ticket "1" 0 Open None None (Some "b"); Ticket "2" 0 Open None None (Some "b");
     Ticket "3" 0 Open None None (Some "constructor");
     Ticket "4" 0 Completed None None (Some "a");
     Ticket "5" 0 Open None None (Some "toString")]
    [Doctor "b" None; Doctor "constructor" None; Doctor "a" None]
  = [Ranked (Doctor "a" None) (Some 0%Z);
     Ranked (Doctor "constructor" None) (Some 1%Z);
     Ranked (Doctor "b" None) (Some 2%Z)]
  ∧ load <$> optimizeDoctorSchedule
               [Ticket "1" 0 Open None None (Some "__proto__")]
               [Doctor "__proto__" None]
    = [None].
Proof. by vm_compute. Qed.

(** X19.  [optimizeDoctorSchedule] lists every doctor of the roster once,
    each with the number of tickets assigned to its id that are not
    completed; only a doctor whose id is [__proto__] is listed with a load
    that is not a number.  When no doctor has that id, the list is by
    non-decreasing load. *)
Theorem schedule_ranks_roster_by_open_tickets tickets doctors :
  optimizeDoctorSchedule tickets doctors
    ≡ₚ map (λ doc, Ranked doc (shown_load tickets doc)) doctors
  ∧ (Forall (λ doc, did doc ≠ "__proto__") doctors →
     StronglySorted load_le (optimizeDoctorSchedule tickets doctors)).
Proof.
  unfold optimizeDoctorSchedule.
  assert (map (λ doc, Ranked doc (reported (PlainObject.read
                 (foldl tally (zero_loads doctors) tickets) (did doc)))) doctors
          = map (λ doc, Ranked doc (shown_load tickets doc)) doctors) as ->.
  { apply map_ext_in. intros doc Hin. f_equal. apply reported_load.
    by apply list_elem_of_In. }
  split; [apply sort_by_perm|].
  intros Hproto.
  apply (sort_by_sorted_on by_load (λ r, is_Some (load r)) load_le).
  - intros a b c _ _ _ (x & y & Hx & Hy & Hxy) (y' & z & Hy' & Hz & Hyz).
    exists x, z. split_and!; [done|done|]. simplify_eq. lia.
  - intros a b [x Hx] [y Hy] H. unfold by_load in H. rewrite Hx, Hy in H.
    apply bool_decide_eq_false in H. exists x, y. split_and!; [done|done|lia].
  - intros a b [x Hx] [y Hy] H. unfold by_load in H. rewrite Hx, Hy in H.
    apply bool_decide_eq_true in H. exists y, x. split_and!; [done|done|lia].
  - apply Forall_forall. intros r Hr.
    apply list_elem_of_fmap in Hr as (doc & -> & Hdoc).
    cbn [load]. unfold shown_load.
    rewrite bool_decide_eq_false_2; [done|].
    by apply (proj1 (Forall_forall _ _) Hproto).
Qed.
End ScheduleFacts.

(** ** Active tickets *)

Module ActiveWindowFacts.
Import ActiveWindow.

Lemma filter_sublist_mono {A} (P Q : A → Prop)
    `{!∀ x, Decision (P x)} `{!∀ x, Decision (Q x)} (l : list A) :
  (∀ x, P x → Q x) → filter P l `sublist_of` filter Q l.
Proof.
  intros HPQ. induction l as [|x l IH]; [done|].
  rewrite !filter_cons. destruct (decide (P x)) as [HP|HP].
  - rewrite decide_True by auto. by constructor.
  - case_decide; [by constructor|done].
Qed.

(** X20.  A wider window keeps every ticket that a narrower window lists,
    in the same order; the tickets listed are among those given, in their
    order, and none of them is completed. *)
Theorem active_tickets_grow_with_window tickets (w1 w2 now : Z) :
  (w1 <= w2)%Z →
  getActiveTicketsInWindow tickets (Some w1) now
    `sublist_of` getActiveTicketsInWindow tickets (Some w2) now
  ∧ getActiveTicketsInWindow tickets (Some w2) now `sublist_of` tickets
  ∧ ∀ s, s ∈ getActiveTicketsInWindow tickets (Some w2) now →
      tstatus (sticket s) ≠ Completed.
Proof.
  intros Hw. unfold getActiveTicketsInWindow. cbn [default from_option id].
  split_and!.
  - apply filter_sublist_mono. intros s. unfold active.
    rewrite !andb_true_iff. intros [Ht Hs]. split; [|done].
    destruct (ticketTime s); [|done].
    apply bool_decide_eq_true in Ht. apply bool_decide_eq_true. lia.
  - apply sublist_filter.
  - intros s [Hact _]%list_elem_of_filter. unfold active in Hact.
    apply andb_true_iff in Hact as [_ Hs]. apply orb_true_iff in Hs.
    destruct Hs as [Hs|Hs]; apply bool_decide_eq_true in Hs; congruence.
Qed.

Lemma active_tickets_grow_with_window_witness :
  (10 <= 30)%Z
  ∧ getActiveTicketsInWindow
      [Stored (Ticket "a" 1 Open (Some 0%Z) None None) None;
       Stored (Ticket "b" 1 Booked None None None) (Some 900000%Z);
       Stored (Ticket "c" 1 Completed (Some 1700000%Z) None None) None]
      (Some 10%Z) 1800000
    `sublist_of`
    getActiveTicketsInWindow
      [Stored (Ticket "a" 1 Open (Some 0%Z) None None) None;
       Stored (Ticket "b" 1 Booked None None None) (Some 900000%Z);
       Stored (Ticket "c" 1 Completed (Some 1700000%Z) None None) None]
      (Some 30%Z) 1800000
  ∧ getActiveTicketsInWindow
      [Stored (Ticket "a" 1 Open (Some 0%Z) None None) None;
       Stored (Ticket "b" 1 Booked None None None) (Some 900000%Z);
       Stored (Ticket "c" 1 Completed (Some 1700000%Z) None None) None]
      (Some 30%Z) 1800000
    `sublist_of`
      [Stored (Ticket "a" 1 Open (Some 0%Z) None None) None;
       Stored (Ticket "b" 1 Booked None None None) (Some 900000%Z);
       Stored (Ticket "c" 1 Completed (Some 1700000%Z) None None) None]
  ∧ ∀ s, s ∈ getActiveTicketsInWindow
               [Stored (Ticket "a" 1 Open (Some 0%Z) None None) None;
                Stored (Ticket "b" 1 Booked None None None) (Some 900000%Z);
                Stored (Ticket "c" 1 Completed (Some 1700000%Z) None None) None]
               (Some 30%Z) 1800000 →
      tstatus (sticket s) ≠ Completed.
Proof.
  assert (10 <= 30)%Z as Hw by lia.
  split; [exact Hw|].
  exact (active_tickets_grow_with_window
           [Stored (Ticket "a" 1 Open (Some 0%Z) None None) None;
            Stored (Ticket "b" 1 Booked None None None) (Some 900000%Z);
            Stored (Ticket "c" 1 Completed (Some 1700000%Z) None None) None]
           10 30 1800000 Hw).
Defined.
End ActiveWindowFacts.

(** ** Fuzzy search *)

Module FuzzyFacts.
Import Fuzzy.

Lemma prefix_distance_0_l str1 str2 j : prefix_distance str1 str2 0 j = j.
Proof. done. Qed.

Lemma prefix_distance_0_r str1 str2 i : prefix_distance str1 str2 i 0 = i.
Proof. by destruct i. Qed.

Lemma prefix_distance_S str1 str2 i j :
  prefix_distance str1 str2 (S i) (S j)
  = Nat.min (prefix_distance str1 str2 i (S j) + 1)
      (Nat.min (prefix_distance str1 str2 (S i) j + 1)
         (prefix_distance str1 str2 i j + cost str1 str2 (S i) (S j))).
Proof. done. Qed.

Section Table.
Context (str1 str2 : string).
Local Abbreviation len1 := (String.length str1).
Local Abbreviation len2 := (String.length str2).
Implicit Types (m : list (list (option nat))).

Lemma set_cell_agrees m P j i :
  agrees str1 str2 m P → j ≤ len2 → i ≤ len1 →
  agrees str1 str2 (set_cell m j i (prefix_distance str1 str2 i j))
         (λ j' i', P j' i' ∨ (j' = j ∧ i' = i)).
Proof.
  intros (Hlen & Hrows & Hcells) Hj Hi. unfold set_cell. split_and!.
  - by rewrite length_alter.
  - rewrite Forall_forall in Hrows |- *. intros row [k Hk]%list_elem_of_lookup.
    rewrite list_lookup_alter in Hk. case_decide; [|by eapply Hrows, list_elem_of_lookup_2].
    destruct (m !! j) as [row0|] eqn:Hrow0; simplify_eq/=.
    rewrite length_insert. by eapply Hrows, list_elem_of_lookup_2.
  - intros j' i' Hj' Hi' HP. unfold cell. rewrite list_lookup_alter.
    destruct (decide (j = j')) as [<-|Hne].
    + destruct (lookup_lt_is_Some_2 m j) as [row Hrow]; [lia|].
      rewrite Hrow. cbn [fmap option_fmap option_map].
      assert (length row = S len1) as Hrowlen.
      { rewrite Forall_forall in Hrows. by eapply Hrows, list_elem_of_lookup_2. }
      destruct (decide (i = i')) as [<-|Hne].
      * by rewrite list_lookup_insert_eq by lia.
      * rewrite list_lookup_insert_ne by done.
        destruct HP as [HP|[_ ->]]; [|done].
        specialize (Hcells j i' Hj' Hi' HP). unfold cell in Hcells.
        by rewrite Hrow in Hcells.
    + destruct HP as [HP|[-> _]]; [|done]. by apply Hcells.
Qed.

Lemma agrees_impl m (P Q : nat → nat → Prop) :
  (∀ j i, j ≤ len2 → i ≤ len1 → Q j i → P j i) →
  agrees str1 str2 m P → agrees str1 str2 m Q.
Proof.
  intros HQP (Hlen & Hrows & Hcells). split_and!; [done|done|].
  intros j i Hj Hi HQ. apply Hcells; auto.
Qed.

Lemma first_row_agrees n : ∀ a m P,
  agrees str1 str2 m P → a + n ≤ S len1 →
  agrees str1 str2 (foldl (λ m i, set_cell m 0 i i) m (seq a n))
         (λ j' i', P j' i' ∨ (j' = 0 ∧ a ≤ i' < a + n)).
Proof.
  induction n as [|n IH]; intros a m P Hm Ha; cbn [seq foldl].
  - eapply agrees_impl; [|exact Hm]. intros j i _ _ [?|[_ ?]]; [done|lia].
  - eapply agrees_impl; [|apply (IH (S a)); [|lia]].
    2:{ replace a with (prefix_distance str1 str2 a 0) at 2
          by apply prefix_distance_0_r.
        apply set_cell_agrees; [done|lia|lia]. }
    intros j i _ _ [?|[-> ?]]; [by left; left|].
    destruct (decide (i = a)) as [->|]; [left; right; done|right; lia].
Qed.

Lemma first_column_agrees n : ∀ b m P,
  agrees str1 str2 m P → b + n ≤ S len2 →
  agrees str1 str2 (foldl (λ m j, set_cell m j 0 j) m (seq b n))
         (λ j' i', P j' i' ∨ (i' = 0 ∧ b ≤ j' < b + n)).
Proof.
  induction n as [|n IH]; intros b m P Hm Hb; cbn [seq foldl].
  - eapply agrees_impl; [|exact Hm]. intros j i _ _ [?|[_ ?]]; [done|lia].
  - eapply agrees_impl; [|apply (IH (S b)); [|lia]].
    2:{ replace b with (prefix_distance str1 str2 0 b) at 2 by done.
        apply set_cell_agrees; [done|lia|lia]. }
    intros j i _ _ [?|[-> ?]]; [by left; left|].
    destruct (decide (j = b)) as [->|]; [left; right; done|right; lia].
Qed.

Lemma fill_row_agrees j n : ∀ a m,
  1 ≤ j ≤ len2 → 1 ≤ a → a + n = S len1 →
  agrees str1 str2 m (λ j' i', j' < j ∨ i' = 0 ∨ (j' = j ∧ i' < a)) →
  ∃ m', foldl (fill_cell str1 str2 j) (Some m) (seq a n) = Some m'
        ∧ agrees str1 str2 m' (λ j' i', j' < S j ∨ i' = 0).
Proof.
  induction n as [|n IH]; intros a m Hj Ha Han Hm; cbn [seq foldl].
  - exists m. split; [done|]. eapply agrees_impl; [|exact Hm].
    intros j' i' _ Hi' [?|?]; [|by right; left].
    destruct (decide (j' = j)) as [->|]; [right; right; lia|left; lia].
  - pose proof Hm as (_ & _ & Hcells).
    unfold fill_cell at 2. cbn [mbind option_bind].
    rewrite (Hcells j (a - 1)) by (try lia; right; right; lia).
    rewrite (Hcells (j - 1) a) by (try lia; left; lia).
    rewrite (Hcells (j - 1) (a - 1)) by (try lia; left; lia).
    cbn [mbind option_bind].
    assert (Nat.min (prefix_distance str1 str2 (a - 1) j + 1)
              (Nat.min (prefix_distance str1 str2 a (j - 1) + 1)
                 (prefix_distance str1 str2 (a - 1) (j - 1) + cost str1 str2 a j))
            = prefix_distance str1 str2 a j) as ->.
    { destruct a as [|a']; [lia|]. destruct j as [|j']; [lia|].
      rewrite prefix_distance_S. by rewrite !Nat.sub_succ, !Nat.sub_0_r. }
    apply (IH (S a)); [done|lia|lia|].
    eapply agrees_impl; [|apply set_cell_agrees; [exact Hm|lia|lia]].
    intros j' i' _ _ [?|[?|[-> ?]]]; [by left; left|by left; right; left|].
    destruct (decide (i' = a)) as [->|]; [by right|left; right; right; lia].
Qed.

Lemma fill_rows_agrees n : ∀ b m,
  1 ≤ b → b + n = S len2 →
  agrees str1 str2 m (λ j' i', j' < b ∨ i' = 0) →
  ∃ m', foldl (fill_row str1 str2) (Some m) (seq b n) = Some m'
        ∧ agrees str1 str2 m' (λ _ _, True).
Proof.
  induction n as [|n IH]; intros b m Hb Hbn Hm; cbn [seq foldl].
  - exists m. split; [done|]. eapply agrees_impl; [|exact Hm].
    intros j' i' Hj' _ _. left. lia.
  - destruct (fill_row_agrees b len1 1 m) as (m1 & Hrow & Hm1); [lia|lia|lia| |].
    { eapply agrees_impl; [|exact Hm]. intros j' i' _ _ [?|[?|[_ ?]]]; [by left|by right|right; lia]. }
    unfold fill_row at 2. rewrite Hrow. apply (IH (S b)); [lia|lia|done].
Qed.

Lemma empty_table_agrees :
  agrees str1 str2 (replicate (S len2) (replicate (S len1) None)) (λ _ _, False).
Proof.
  split_and!; [by rewrite length_replicate| |done].
  apply Forall_replicate. by rewrite length_replicate.
Qed.

Lemma table_is_recurrence :
  levenshteinDistance str1 str2 = Some (distance str1 str2).
Proof.
  unfold levenshteinDistance. cbn zeta.
  pose proof (first_row_agrees (S len1) 0 _ _ empty_table_agrees ltac:(lia)) as H1.
  pose proof (first_column_agrees (S len2) 0 _ _ H1 ltac:(lia)) as H2.
  destruct (fill_rows_agrees len2 1
              (foldl (λ m j, set_cell m j 0 j)
                 (foldl (λ m i, set_cell m 0 i i)
                    (replicate (S len2) (replicate (S len1) None))
                    (seq 0 (S len1)))
                 (seq 0 (S len2))))
    as (m' & -> & (_ & _ & Hcells)); [lia|lia| |].
  { eapply agrees_impl; [|exact H2].
    intros j i ? ? [?|?]; [left; right; lia|right; lia]. }
  cbn [mbind option_bind]. by apply Hcells.
Qed.
End Table.

Section Recurrence.
Context (str1 str2 : string).

Lemma prefix_distance_bounds i : ∀ j,
  i - j ≤ prefix_distance str1 str2 i j
  ∧ j - i ≤ prefix_distance str1 str2 i j
  ∧ prefix_distance str1 str2 i j ≤ Nat.max i j.
Proof.
  induction i as [|i IHi]; intros j; [rewrite prefix_distance_0_l; lia|].
  induction j as [|j IHj]; [rewrite prefix_distance_0_r; lia|].
  rewrite prefix_distance_S.
  pose proof (IHi (S j)). pose proof (IHi j).
  assert (cost str1 str2 (S i) (S j) ≤ 1) by (unfold cost; case_decide; lia).
  lia.
Qed.

Lemma prefix_distance_zero i : ∀ j,
  prefix_distance str1 str2 i j = 0 →
  i = j ∧ ∀ k, k < i → String.get k str1 = String.get k str2.
Proof.
  induction i as [|i IHi]; intros j.
  - rewrite prefix_distance_0_l. intros ->. split; [done|lia].
  - destruct j as [|j]; [by rewrite prefix_distance_0_r|].
    rewrite prefix_distance_S. intros Hmin.
    assert (prefix_distance str1 str2 i j = 0
            ∧ cost str1 str2 (S i) (S j) = 0) as [Hd Hc] by lia.
    destruct (IHi j Hd) as [-> Hk]. split; [done|].
    intros k Hlt. destruct (decide (k = j)) as [->|]; [|apply Hk; lia].
    unfold cost in Hc. rewrite !Nat.sub_succ, !Nat.sub_0_r in Hc.
    by case_decide.
Qed.
End Recurrence.

Lemma prefix_distance_same str n : prefix_distance str str n n = 0.
Proof.
  induction n as [|n IH]; [done|]. rewrite prefix_distance_S, IH.
  unfold cost. rewrite decide_True by done. lia.
Qed.

Lemma cost_sym str1 str2 i j : cost str1 str2 i j = cost str2 str1 j i.
Proof. unfold cost. repeat case_decide; congruence. Qed.

Lemma prefix_distance_sym str1 str2 i : ∀ j,
  prefix_distance str1 str2 i j = prefix_distance str2 str1 j i.
Proof.
  induction i as [|i IHi]; intros j.
  - by rewrite prefix_distance_0_l, prefix_distance_0_r.
  - induction j as [|j IHj]; [by rewrite prefix_distance_0_l, prefix_distance_0_r|].
    rewrite !prefix_distance_S, IHj, (IHi (S j)), (IHi j), cost_sym. lia.
Qed.

Lemma get_beyond str : ∀ k, String.length str ≤ k → String.get k str = None.
Proof.
  induction str as [|c str IH]; intros k Hk; [by destruct k|].
  destruct k as [|k]; [simpl in Hk; lia|]. apply IH. simpl in Hk. lia.
Qed.

(** X21.  [levenshteinDistance] always yields a number, the same for the
    two orders of its arguments, and 0 between a string and itself. *)
Theorem levenshtein_symmetric (str1 str2 : string) :
  levenshteinDistance str1 str2 = levenshteinDistance str2 str1
  ∧ is_Some (levenshteinDistance str1 str2)
  ∧ levenshteinDistance str1 str1 = Some 0.
Proof.
  rewrite !table_is_recurrence. unfold distance. split_and!.
  - by rewrite prefix_distance_sym.
  - done.
  - by rewrite prefix_distance_same.
Qed.

(** X22.  The distance is at least the difference of the two lengths and
    at most the greater of them; the distance to the empty string is the
    length. *)
Theorem levenshtein_bounds (str1 str2 : string) :
  ∃ d, levenshteinDistance str1 str2 = Some d
    ∧ String.length str1 - String.length str2 ≤ d
    ∧ String.length str2 - String.length str1 ≤ d
    ∧ d ≤ Nat.max (String.length str1) (String.length str2)
    ∧ levenshteinDistance str1 EmptyString = Some (String.length str1).
Proof.
  rewrite !table_is_recurrence. eexists. split; [done|].
  pose proof (prefix_distance_bounds str1 str2 (String.length str1)
                (String.length str2)) as (? & ? & ?).
  split_and!; [done|done|done|].
  unfold distance. by rewrite prefix_distance_0_r.
Qed.

(** X23.  The distance is 0 exactly between equal strings. *)
Theorem levenshtein_zero_iff_equal (str1 str2 : string) :
  levenshteinDistance str1 str2 = Some 0 ↔ str1 = str2.
Proof.
  rewrite table_is_recurrence. unfold distance. split.
  - intros [= Hd]. destruct (prefix_distance_zero _ _ _ _ Hd) as [Hlen Hk].
    apply String.get_correct. intros k.
    destruct (decide (k < String.length str1)) as [Hlt|Hge]; [by apply Hk|].
    rewrite !get_beyond by lia. done.
  - intros ->. by rewrite prefix_distance_same.
Qed.

Section Search.
Context {A : Type} (query : string) (searchField : A → option string).

Lemma search_results (items : list A) :
  mapM (λ item, d ← search_distance query searchField item; Some (item, d)) items
  = Some (map (λ item, (item, item_distance query searchField item)) items).
Proof.
  induction items as [|item items IH]; [done|].
  change (mapM ?f (item :: items))
    with (y ← f item; k ← mapM f items; mret (y :: k)).
  rewrite IH. unfold search_distance. by rewrite table_is_recurrence.
Qed.

Lemma filter_results (threshold : Z) (items : list A) :
  map fst (filter (λ r : A * nat, (Z.of_nat r.2 <= threshold)%Z)
             (map (λ item, (item, item_distance query searchField item)) items))
  = filter (λ item, (Z.of_nat (item_distance query searchField item) <= threshold)%Z)
           items.
Proof.
  induction items as [|item items IH]; [done|].
  cbn [map]. rewrite !filter_cons. cbn [snd].
  case_decide; cbn [map fst]; by rewrite IH.
Qed.

Lemma sorted_results (l : list (A * nat)) :
  Forall (λ r, r.2 = item_distance query searchField r.1) l →
  StronglySorted (λ a b : A * nat, a.2 ≤ b.2) l →
  StronglySorted (λ x y, item_distance query searchField x
                         ≤ item_distance query searchField y) (map fst l).
Proof.
  induction l as [|r l IH]; intros Hl Hsorted; [constructor|].
  apply Forall_cons in Hl as [Hr2 Hl].
  apply StronglySorted_inv in Hsorted as [Hs Hr].
  cbn [map]. constructor; [by apply IH|].
  apply Forall_forall. intros x (r' & -> & Hr')%list_elem_of_fmap.
  pose proof (proj1 (Forall_forall _ _) Hr r' Hr') as Hle.
  pose proof (proj1 (Forall_forall _ _) Hl r' Hr') as Heq.
  simpl in Hle, Heq. by rewrite <-Hr2, <-Heq.
Qed.

(** X24.  [fuzzySearch] returns exactly the items whose field is within
    the threshold of the query, case set aside, each as often as it was
    given, by non-decreasing distance. *)
Theorem fuzzySearch_returns_near_items_in_order (items : list A)
    (threshold : option Z) :
  ∃ found,
    fuzzySearch query items searchField threshold = Some found
    ∧ found ≡ₚ filter (λ item, (Z.of_nat (item_distance query searchField item)
                                 <= default 3%Z threshold)%Z) items
    ∧ StronglySorted (λ x y, item_distance query searchField x
                             ≤ item_distance query searchField y) found.
Proof.
  unfold fuzzySearch. rewrite search_results. cbn [mbind option_bind].
  eexists. split; [done|]. split.
  - rewrite <-filter_results. by rewrite sort_by_perm.
  - apply sorted_results.
    + apply Forall_forall. intros r Hr. apply sort_by_elem in Hr.
      apply list_elem_of_filter in Hr as [_ Hr].
      by apply list_elem_of_fmap in Hr as (item & -> & _).
    + apply sort_by_sorted.
      * intros a b c. lia.
      * intros a b H. apply bool_decide_eq_false in H. lia.
      * intros a b H. apply bool_decide_eq_true in H. lia.
Qed.
End Search.

(** Three edits turn one word into the other. *)
Example kitten_sitting : levenshteinDistance "kitten" "sitting" = Some 3.
Proof. by vm_compute. Qed.

End FuzzyFacts.
